(** * The btrfs garbage-collection tree (gc-tree.c)

    A shallow embedding of the GC item store (add_gc_item, delete_gc_item),
    the reclaim worker (gc_inode, gc_work_fn) and the work dispatcher
    (btrfs_queue_gc_work), and the properties of the module checked
    against it.

    - Integers of the C code are [Z]; a pointer that may carry an errno is
      an [err_ptr].
    - The module is written in a state monad over [btrfs_fs_info].  Every
      collaborator whose result the module cannot predict (allocators, the
      transaction manager, the tree primitives, the truncation engine, the
      subvolume resolver) answers from an [oracle], by the number of the
      call.  Each call is also appended to a trace, with the transaction
      handle as it is when the call is made, so that the budget a
      mutation runs under can be read off the trace.
    - The two loops that need not end (the do-while of gc_inode, the while
      of gc_work_fn) take fuel: [None] is a run that has not returned
      within its fuel, and nothing else.
    - Calls of the dispatcher and workers running at the same time are a
      step relation over the same primitives, one step per operation on a
      running bit or on the queue. *)

From Stdlib Require Import ZArith List Bool Lia Arith.
Import ListNotations.
Local Open Scope Z_scope.

(** ** errno values (include/uapi/asm-generic/errno-base.h) *)

Definition ENOENT : Z := 2.
Definition EAGAIN : Z := 11.
Definition ENOMEM : Z := 12.
Definition EEXIST : Z := 17.
Definition EINVAL : Z := 22.
Definition ENOSPC : Z := 28.
Definition MAX_ERRNO : Z := 4095.
Definition INT_MAX : Z := 2147483647.

(** A pointer, or an errno hidden in a pointer (ERR_PTR). *)
Inductive err_ptr (A : Type) : Type :=
| Ptr (a : A)
| ErrPtr (e : Z).
Arguments Ptr {A} a.
Arguments ErrPtr {A} e.

(** What ERR_PTR can carry: IS_ERR holds of the values in [-MAX_ERRNO, -1]. *)
Definition is_errno (e : Z) : Prop := - MAX_ERRNO <= e < 0.

(** [(int)x] for a u64 [x]. *)
Definition int_of_u64 (x : Z) : Z :=
  let y := x mod 2 ^ 32 in
  if y <? 2 ^ 31 then y else y - 2 ^ 32.

(** ** Keys, roots, inodes, reservations, handles *)

Record btrfs_key : Type := mk_key {
  objectid : Z;   (* u64 *)
  type : Z;       (* u8 *)
  offset : Z      (* u64 *)
}.

Definition key_eqb (a b : btrfs_key) : bool :=
  (objectid a =? objectid b) && (type a =? type b) && (offset a =? offset b).

(** btrfs_comp_cpu_keys: objectid, then type, then offset. *)
Definition key_ltb (a b : btrfs_key) : bool :=
  (objectid a <? objectid b)
  || ((objectid a =? objectid b)
      && ((type a <? type b)
          || ((type a =? type b) && (offset a <? offset b)))).

(** A root is identified by its root key. *)
Record btrfs_root : Type := mk_root { root_key : btrfs_key }.

Record btrfs_inode : Type := mk_inode {
  root : btrfs_root;   (* inode->root *)
  ino : Z              (* what btrfs_ino(inode) returns, a u64 *)
}.

Definition btrfs_ino (inode : btrfs_inode) : Z := ino inode.

Record btrfs_block_rsv : Type := mk_rsv {
  rsv_id : nat;
  size : Z;
  failfast : bool
}.

(** The value of a [struct btrfs_block_rsv *]: the filesystem's
    [&fs_info->trans_block_rsv], or a reservation of the caller. *)
Inductive rsv_ptr : Type :=
| trans_block_rsv
| rsv_of (r : btrfs_block_rsv).

Record btrfs_trans_handle : Type := mk_trans {
  transid : nat;
  block_rsv : rsv_ptr
}.

(** [trans->block_rsv = b] *)
Definition set_block_rsv (t : btrfs_trans_handle) (b : rsv_ptr) : btrfs_trans_handle :=
  {| transid := transid t; block_rsv := b |}.

(** A search path: whether it holds a position in a tree, and the key of
    the item at [nodes[0]], [slots[0]] when there is one. *)
Record btrfs_path : Type := mk_path {
  held : bool;
  slot : option btrfs_key
}.

Definition empty_path : btrfs_path := {| held := false; slot := None |}.

Record btrfs_truncate_control : Type := mk_control {
  tc_ino : Z;
  new_size : Z;
  min_type : Z
}.

Record gc_work : Type := mk_gc_work { work_root : btrfs_root }.

(** ** The leaf items of a root: keys in increasing order *)

Fixpoint items_insert (k : btrfs_key) (l : list btrfs_key) : list btrfs_key :=
  match l with
  | [] => [k]
  | x :: l' => if key_ltb k x then k :: l else x :: items_insert k l'
  end.

Definition items_mem (k : btrfs_key) (l : list btrfs_key) : bool :=
  existsb (key_eqb k) l.

Definition items_remove (k : btrfs_key) (l : list btrfs_key) : list btrfs_key :=
  filter (fun x => negb (key_eqb k x)) l.

(** ** Trace of the calls made to the collaborators *)

Inductive event : Type :=
| EvAllocPath (ok : bool)
| EvFreePath
| EvReleasePath
| EvJoin (r : btrfs_root) (rsv : rsv_ptr) (res : err_ptr btrfs_trans_handle)
| EvEnd (t : btrfs_trans_handle)
| EvInsert (t : btrfs_trans_handle) (r : btrfs_root) (k : btrfs_key) (ret : Z)
| EvSearch (t : btrfs_trans_handle) (r : btrfs_root) (k : btrfs_key) (ret : Z)
| EvDel (t : btrfs_trans_handle) (r : btrfs_root) (k : option btrfs_key)
| EvFirstItem (r : btrfs_root) (ret : Z)
| EvGetFsRoot (id : Z) (res : err_ptr btrfs_root)
| EvPutRoot (r : btrfs_root)
| EvErr (id : Z) (ret : Z)
| EvTruncate (t : btrfs_trans_handle) (r : btrfs_root)
             (c : btrfs_truncate_control) (ret : Z)
| EvBalanceDirty
| EvAllocRsv (ok : bool)
| EvFreeRsv
| EvAssert
| EvKmalloc (ok : bool)
| EvKfree
| EvTestAndSetBit (r : btrfs_root) (old : bool)
| EvClearBit (r : btrfs_root)
| EvQueueWork (w : gc_work).

(** ** The filesystem *)

Record btrfs_fs_info : Type := mk_fs {
  nr_global_roots : Z;                      (* u64 *)
  extent_tree_v2 : bool;                    (* btrfs_fs_incompat(EXTENT_TREE_V2) *)
  closing : bool;                           (* btrfs_fs_closing *)
  gc_workers : list gc_work;                (* queued work, oldest first *)
  items : btrfs_key -> list btrfs_key;      (* items of the root with this root key *)
  gc_running : btrfs_key -> bool;           (* BTRFS_ROOT_GC_RUNNING of root->state *)
  open_trans : list nat;                    (* handles joined and not ended *)
  ticks : nat;                              (* oracle calls made so far *)
  trace : list event                        (* oldest first *)
}.

Definition with_gc_workers (q : list gc_work) (s : btrfs_fs_info) :=
  mk_fs (nr_global_roots s) (extent_tree_v2 s) (closing s) q (items s)
        (gc_running s) (open_trans s) (ticks s) (trace s).

Definition with_items (f : btrfs_key -> list btrfs_key) (s : btrfs_fs_info) :=
  mk_fs (nr_global_roots s) (extent_tree_v2 s) (closing s) (gc_workers s) f
        (gc_running s) (open_trans s) (ticks s) (trace s).

Definition with_gc_running (f : btrfs_key -> bool) (s : btrfs_fs_info) :=
  mk_fs (nr_global_roots s) (extent_tree_v2 s) (closing s) (gc_workers s)
        (items s) f (open_trans s) (ticks s) (trace s).

Definition with_open_trans (o : list nat) (s : btrfs_fs_info) :=
  mk_fs (nr_global_roots s) (extent_tree_v2 s) (closing s) (gc_workers s)
        (items s) (gc_running s) o (ticks s) (trace s).

Definition with_ticks (n : nat) (s : btrfs_fs_info) :=
  mk_fs (nr_global_roots s) (extent_tree_v2 s) (closing s) (gc_workers s)
        (items s) (gc_running s) (open_trans s) n (trace s).

Definition with_trace (t : list event) (s : btrfs_fs_info) :=
  mk_fs (nr_global_roots s) (extent_tree_v2 s) (closing s) (gc_workers s)
        (items s) (gc_running s) (open_trans s) (ticks s) t.

Definition upd {A : Type} (f : btrfs_key -> A) (k : btrfs_key) (v : A) : btrfs_key -> A :=
  fun k' => if key_eqb k k' then v else f k'.

(** ** The monad of the module: state passing; [None] is a loop that has
    not finished within its fuel. *)

Definition M (A : Type) : Type := btrfs_fs_info -> option (A * btrfs_fs_info).

Definition ret {A : Type} (a : A) : M A := fun s => Some (a, s).

Definition bind {A B : Type} (m : M A) (k : A -> M B) : M B :=
  fun s => match m s with
           | Some (a, s') => k a s'
           | None => None
           end.

Definition out_of_fuel {A : Type} : M A := fun _ => None.

Declare Scope gc_scope.
Delimit Scope gc_scope with gc.
Notation "x <- m ;; k" := (bind m (fun x => k))
  (at level 61, m at next level, right associativity) : gc_scope.
Notation "m ;; k" := (bind m (fun _ => k))
  (at level 61, right associativity) : gc_scope.
Local Open Scope gc_scope.

Definition gets {A : Type} (f : btrfs_fs_info -> A) : M A := fun s => Some (f s, s).
Definition modify (f : btrfs_fs_info -> btrfs_fs_info) : M unit := fun s => Some (tt, f s).

Definition emit (e : event) : M unit :=
  modify (fun s => with_trace (trace s ++ [e]) s).

(** The answers of the collaborators, by call number. *)
Inductive join_answer : Type :=
| JoinOk (b : rsv_ptr)     (* a handle, whose block_rsv is [b] when handed out *)
| JoinErr (e : Z).         (* ERR_PTR(e) *)

Record oracle : Type := mk_oracle {
  o_alloc : nat -> bool;        (* true: the allocation succeeds *)
  o_join : nat -> join_answer;
  o_fault : nat -> Z;           (* negative: the tree primitive fails with it *)
  o_fs_root : nat -> Z;         (* negative: ERR_PTR of it; else the root is found *)
  o_truncate : nat -> Z         (* what btrfs_truncate_inode_items returns *)
}.

(** The number of this oracle call; the next call gets the next number. *)
Definition tick : M nat :=
  fun s => Some (ticks s, with_ticks (S (ticks s)) s).

Section GcTree.

(** Constants of ctree.h and btrfs_tree.h, and the size
    [btrfs_calc_metadata_size(fs_info, 1)] of one metadata item. *)
Variable BTRFS_GC_TREE_OBJECTID : Z.
Variable BTRFS_ROOT_ITEM_KEY : Z.
Variable BTRFS_GC_INODE_ITEM_KEY : Z.
Variable metadata_size_1 : Z.

Variable env : oracle.

(** ** The collaborators *)

(** Modelled from the spec: btrfs_global_root, the root/container resolver
    [resolve(tree_id, key_offset) -> RootHandle], a lookup of a fixed,
    always-present internal container by its key. *)
Definition btrfs_global_root (key : btrfs_key) : btrfs_root :=
  {| root_key := key |}.

(** Modelled from the spec: btrfs_alloc_path, acquiring scratch path storage,
    which can fail (NULL). *)
Definition btrfs_alloc_path : M (option btrfs_path) :=
  n <- tick ;;
  emit (EvAllocPath (o_alloc env n)) ;;
  ret (if o_alloc env n then Some empty_path else None).

(** Modelled from the spec: btrfs_release_path, releasing the read handle. *)
Definition btrfs_release_path (path : btrfs_path) : M btrfs_path :=
  emit EvReleasePath ;;
  ret empty_path.

(** Modelled from the spec: btrfs_free_path, releasing the scratch storage
    (NULL is accepted). *)
Definition btrfs_free_path (path : option btrfs_path) : M unit :=
  emit EvFreePath.

(** Modelled from the spec: btrfs_gc_rsv_refill_and_join, the transaction
    manager's [join_or_start(root, reservation) -> Handle | Error] after
    refilling the reservation. *)
Definition btrfs_gc_rsv_refill_and_join (r : btrfs_root) (rsv : rsv_ptr)
  : M (err_ptr btrfs_trans_handle) :=
  n <- tick ;;
  match o_join env n with
  | JoinErr e =>
      emit (EvJoin r rsv (ErrPtr e)) ;;
      ret (ErrPtr e)
  | JoinOk b =>
      let t := {| transid := n; block_rsv := b |} in
      modify (fun s => with_open_trans (n :: open_trans s) s) ;;
      emit (EvJoin r rsv (Ptr t)) ;;
      ret (Ptr t)
  end.

(** Modelled from the spec: btrfs_end_transaction, [end(handle)]. *)
Definition btrfs_end_transaction (t : btrfs_trans_handle) : M unit :=
  modify (fun s =>
    with_open_trans (filter (fun n => negb (Nat.eqb n (transid t))) (open_trans s)) s) ;;
  emit (EvEnd t).

(** Modelled from the spec: btrfs_insert_empty_item, inserting an
    empty-payload item at [key]; [Exists] if the key is already present. *)
Definition btrfs_insert_empty_item (t : btrfs_trans_handle) (r : btrfs_root)
    (path : btrfs_path) (key : btrfs_key) (data_size : Z) : M Z :=
  n <- tick ;;
  l <- gets (fun s => items s (root_key r)) ;;
  let res :=
    if o_fault env n <? 0 then o_fault env n
    else if items_mem key l then - EEXIST
    else 0 in
  (if res =? 0
   then modify (fun s => with_items (upd (items s) (root_key r) (items_insert key l)) s)
   else ret tt) ;;
  emit (EvInsert t r key res) ;;
  ret res.

(** Modelled from the spec: btrfs_search_slot, the search for the exact key:
    0 when found, 1 when not, negative when locating the slot fails.  The
    path holds a position in the tree afterwards unless the search failed. *)
Definition btrfs_search_slot (t : btrfs_trans_handle) (r : btrfs_root)
    (key : btrfs_key) (path : btrfs_path) (ins_len cow : Z) : M (Z * btrfs_path) :=
  n <- tick ;;
  l <- gets (fun s => items s (root_key r)) ;;
  let res :=
    if o_fault env n <? 0 then o_fault env n
    else if items_mem key l then 0
    else 1 in
  emit (EvSearch t r key res) ;;
  ret (res,
       if res <? 0 then path
       else {| held := true; slot := if res =? 0 then Some key else None |}).

(** Modelled from the spec: btrfs_del_item, deleting the item the path
    points to. *)
Definition btrfs_del_item (t : btrfs_trans_handle) (r : btrfs_root)
    (path : btrfs_path) : M Z :=
  n <- tick ;;
  emit (EvDel t r (slot path)) ;;
  if o_fault env n <? 0 then ret (o_fault env n)
  else
    match slot path with
    | Some k =>
        modify (fun s =>
          with_items (upd (items s) (root_key r)
                          (items_remove k (items s (root_key r)))) s) ;;
        ret 0
    | None => ret 0
    end.

(** Modelled from the spec: btrfs_first_item, reading the first key in the
    root: 0 when the root has a first item (the path then points to it),
    positive when it has none, negative on error. *)
Definition btrfs_first_item (r : btrfs_root) (path : btrfs_path)
  : M (Z * btrfs_path) :=
  n <- tick ;;
  l <- gets (fun s => items s (root_key r)) ;;
  if o_fault env n <? 0 then
    emit (EvFirstItem r (o_fault env n)) ;;
    ret (o_fault env n, path)
  else
    match l with
    | [] => emit (EvFirstItem r 1) ;; ret (1, path)
    | k :: _ =>
        emit (EvFirstItem r 0) ;;
        ret (0, {| held := true; slot := Some k |})
    end.

(** Modelled from the spec: btrfs_item_key_to_cpu(path->nodes[0], &key,
    path->slots[0]), reading the key the path points to; the key is left as
    it was when the path points to no item. *)
Definition btrfs_item_key_to_cpu (path : btrfs_path) (key : btrfs_key) : btrfs_key :=
  match slot path with
  | Some k => k
  | None => key
  end.

(** Modelled from the spec: btrfs_get_fs_root, resolving the owning
    subvolume; it fails with [NotFound] when the subvolume no longer
    exists, or with another error. *)
Definition btrfs_get_fs_root (id : Z) (check_ref : bool) : M (err_ptr btrfs_root) :=
  n <- tick ;;
  let res :=
    if o_fs_root env n <? 0 then ErrPtr (o_fs_root env n)
    else Ptr {| root_key := mk_key id BTRFS_ROOT_ITEM_KEY (2 ^ 64 - 1) |} in
  emit (EvGetFsRoot id res) ;;
  ret res.

(** Modelled from the spec: btrfs_put_root, giving the resolved root back. *)
Definition btrfs_put_root (r : btrfs_root) : M unit := emit (EvPutRoot r).

(** Modelled from the spec: btrfs_err, the error is surfaced for logging. *)
Definition btrfs_err (id : Z) (r : Z) : M unit := emit (EvErr id r).

(** Modelled from the spec: btrfs_truncate_inode_items, the truncation
    engine [truncate(root, inode_number, target_size, min_item_type)]. *)
Definition btrfs_truncate_inode_items (t : btrfs_trans_handle) (r : btrfs_root)
    (control : btrfs_truncate_control) : M Z :=
  n <- tick ;;
  emit (EvTruncate t r control (o_truncate env n)) ;;
  ret (o_truncate env n).

(** Modelled from the spec: btrfs_btree_balance_dirty, raw block I/O behind
    the transaction, no result. *)
Definition btrfs_btree_balance_dirty : M unit := emit EvBalanceDirty.

(** Modelled from the spec: btrfs_alloc_block_rsv, [alloc_temp(kind)], which
    can fail (NULL). *)
Definition btrfs_alloc_block_rsv : M (option btrfs_block_rsv) :=
  n <- tick ;;
  emit (EvAllocRsv (o_alloc env n)) ;;
  ret (if o_alloc env n
       then Some {| rsv_id := n; size := 0; failfast := false |}
       else None).

(** Modelled from the spec: btrfs_free_block_rsv, [free(reservation)]. *)
Definition btrfs_free_block_rsv (rsv : btrfs_block_rsv) : M unit := emit EvFreeRsv.

(** Modelled from the spec: btrfs_fs_closing, [is_closing() -> bool]. *)
Definition btrfs_fs_closing : M bool := gets closing.

(** Modelled from the spec: btrfs_fs_incompat(fs_info, EXTENT_TREE_V2),
    [has_feature(extended_reclaim) -> bool]. *)
Definition btrfs_fs_incompat_EXTENT_TREE_V2 : M bool := gets extent_tree_v2.

(** Modelled from the spec: kmalloc(sizeof(struct gc_work), GFP_KERNEL),
    allocating the work descriptor, which can fail; true when not NULL. *)
Definition kmalloc : M bool :=
  n <- tick ;;
  emit (EvKmalloc (o_alloc env n)) ;;
  ret (o_alloc env n).

(** Modelled from the spec: kfree, releasing the work descriptor. *)
Definition kfree : M unit := emit EvKfree.

(** Modelled from the spec: test_and_set_bit(BTRFS_ROOT_GC_RUNNING,
    &root->state), the atomic test-and-set of the running flag; the result
    is the old bit. *)
Definition test_and_set_bit (r : btrfs_root) : M bool :=
  old <- gets (fun s => gc_running s (root_key r)) ;;
  modify (fun s => with_gc_running (upd (gc_running s) (root_key r) true) s) ;;
  emit (EvTestAndSetBit r old) ;;
  ret old.

(** Modelled from the spec: clear_bit(BTRFS_ROOT_GC_RUNNING, &root->state),
    clearing the running flag. *)
Definition clear_bit (r : btrfs_root) : M unit :=
  modify (fun s => with_gc_running (upd (gc_running s) (root_key r) false) s) ;;
  emit (EvClearBit r).

(** Modelled from the spec: btrfs_init_work and
    btrfs_queue_work(fs_info->gc_workers, &gc_work->work), [enqueue(task)]
    onto the asynchronous execution facility. *)
Definition btrfs_queue_work (w : gc_work) : M unit :=
  modify (fun s => with_gc_workers (gc_workers s ++ [w]) s) ;;
  emit (EvQueueWork w).

(** Modelled from the spec: ASSERT(0), the programming-invariant violation,
    in a build where assertions do not stop the kernel. *)
Definition ASSERT_0 : M unit := emit EvAssert.

(** ** gc-tree.c *)

Definition gc_root_key (index : Z) : btrfs_key :=
  {| objectid := BTRFS_GC_TREE_OBJECTID;
     type := BTRFS_ROOT_ITEM_KEY;
     offset := index |}.

Definition inode_gc_root (fs_info : btrfs_fs_info) (inode : btrfs_inode) : btrfs_root :=
  let key := {| objectid := BTRFS_GC_TREE_OBJECTID;
                type := BTRFS_ROOT_ITEM_KEY;
                offset := btrfs_ino inode mod nr_global_roots fs_info |} in
  btrfs_global_root key.

Definition add_gc_item (r : btrfs_root) (key : btrfs_key) (rsv : rsv_ptr) : M Z :=
  path <- btrfs_alloc_path ;;
  match path with
  | None => ret (- ENOMEM)
  | Some path =>
      trans <- btrfs_gc_rsv_refill_and_join r rsv ;;
      match trans with
      | ErrPtr e =>
          btrfs_free_path (Some path) ;;
          ret e
      | Ptr trans =>
          let trans := set_block_rsv trans rsv in
          res <- btrfs_insert_empty_item trans r path key 0 ;;
          let trans := set_block_rsv trans trans_block_rsv in
          btrfs_end_transaction trans ;;
          btrfs_free_path (Some path) ;;
          ret res
      end
  end.

Definition delete_gc_item (r : btrfs_root) (path : btrfs_path) (rsv : rsv_ptr)
    (key : btrfs_key) : M btrfs_path :=
  trans <- btrfs_gc_rsv_refill_and_join r rsv ;;
  match trans with
  | ErrPtr _ => ret path
  | Ptr trans =>
      sp <- btrfs_search_slot trans r key path (-1) 1 ;;
      let '(res, path) := sp in
      let res := if res >? 0 then - ENOENT else res in
      if res <? 0 then ret path
      else
        btrfs_del_item trans r path ;;
        path <- btrfs_release_path path ;;
        btrfs_end_transaction trans ;;
        ret path
  end.

(** One pass of the body of the do-while loop of gc_inode: the result, and
    whether the pass left the loop by [break]. *)
Definition gc_inode_pass (r : btrfs_root) (rsv : rsv_ptr) (key : btrfs_key)
  : M (Z * bool) :=
  let control := {| tc_ino := offset key; new_size := 0; min_type := 0 |} in
  trans <- btrfs_gc_rsv_refill_and_join r rsv ;;
  match trans with
  | ErrPtr e => ret (e, true)
  | Ptr trans =>
      let trans := set_block_rsv trans rsv in
      res <- btrfs_truncate_inode_items trans r control ;;
      let trans := set_block_rsv trans trans_block_rsv in
      btrfs_end_transaction trans ;;
      btrfs_btree_balance_dirty ;;
      ret (res, false)
  end.

(** The loop condition of gc_inode. *)
Definition retryable (res : Z) : bool := (res =? - ENOSPC) || (res =? - EAGAIN).

(** The do-while loop of gc_inode; [fuel] bounds the number of retries. *)
Fixpoint gc_inode_loop (fuel : nat) (r : btrfs_root) (rsv : rsv_ptr)
    (key : btrfs_key) : M Z :=
  rb <- gc_inode_pass r rsv key ;;
  let '(res, broke) := rb in
  if broke then ret res
  else if retryable res then
    match fuel with
    | O => out_of_fuel
    | S fuel' => gc_inode_loop fuel' r rsv key
    end
  else ret res.

Definition gc_inode (fuel : nat) (rsv : rsv_ptr) (key : btrfs_key) : M Z :=
  r <- btrfs_get_fs_root (objectid key) true ;;
  match r with
  | ErrPtr e =>
      (* We are deleting this subvolume, just delete the GC item for it. *)
      if e =? - ENOENT then ret 0
      else
        btrfs_err (objectid key) e ;;
        ret e
  | Ptr r =>
      res <- gc_inode_loop fuel r rsv key ;;
      btrfs_put_root r ;;
      ret res
  end.

(** The body of the while loop of gc_work_fn, entered with the path on
    the first item. *)
Definition gc_work_body (fuel : nat) (r : btrfs_root) (path : btrfs_path)
    (rsv : rsv_ptr) : M btrfs_path :=
  let key := btrfs_item_key_to_cpu path (mk_key 0 0 0) in
  path <- btrfs_release_path path ;;
  res <- (if type key =? BTRFS_GC_INODE_ITEM_KEY
          then gc_inode fuel rsv key
          else ASSERT_0 ;; ret (- EINVAL)) ;;
  if res =? 0 then delete_gc_item r path rsv key
  else ret path.

(** The while loop of gc_work_fn; [fuel] bounds the number of passes, and
    the retries of each gc_inode. *)
Fixpoint gc_work_loop (fuel : nat) (r : btrfs_root) (path : btrfs_path)
    (rsv : rsv_ptr) : M btrfs_path :=
  c <- btrfs_fs_closing ;;
  if negb c then ret path
  else
    fp <- btrfs_first_item r path ;;
    let '(res, path) := fp in
    if negb (res =? 0) then ret path
    else
      match fuel with
      | O => out_of_fuel
      | S fuel' =>
          path <- gc_work_body fuel' r path rsv ;;
          gc_work_loop fuel' r path rsv
      end.

Definition gc_work_fn (fuel : nat) (work : gc_work) : M unit :=
  let r := work_root work in
  let out := clear_bit r ;; kfree in
  let out_path path := btrfs_free_path (Some path) ;; out in
  path <- btrfs_alloc_path ;;
  match path with
  | None => out
  | Some path =>
      rsv <- btrfs_alloc_block_rsv ;;
      match rsv with
      | None => out_path path
      | Some rsv =>
          let rsv := {| rsv_id := rsv_id rsv; size := metadata_size_1;
                        failfast := true |} in
          path <- gc_work_loop fuel r path (rsv_of rsv) ;;
          btrfs_free_block_rsv rsv ;;
          out_path path
      end
  end.

(** The body of the for loop of btrfs_queue_gc_work, at index [i]. *)
Definition queue_gc_root (i : Z) : M unit :=
  let key := {| objectid := BTRFS_GC_TREE_OBJECTID;
                type := BTRFS_ROOT_ITEM_KEY;
                offset := i |} in
  let r := btrfs_global_root key in
  old <- test_and_set_bit r ;;
  if old then ret tt
  else
    ok <- kmalloc ;;
    if negb ok then clear_bit r
    else btrfs_queue_work {| work_root := r |}.

(** [n] more passes of the for loop, from index [i]. *)
Fixpoint queue_gc_loop (n : nat) (i : Z) : M unit :=
  match n with
  | O => ret tt
  | S n' => queue_gc_root i ;; queue_gc_loop n' (i + 1)
  end.

Definition btrfs_queue_gc_work : M unit :=
  nr <- gets (fun fs_info => int_of_u64 (nr_global_roots fs_info)) ;;
  v2 <- btrfs_fs_incompat_EXTENT_TREE_V2 ;;
  if negb v2 then ret tt
  else
    c <- btrfs_fs_closing ;;
    if c then ret tt
    else queue_gc_loop (Z.to_nat nr) 0.

Definition btrfs_add_inode_gc_item (inode : btrfs_inode) (rsv : rsv_ptr) : M Z :=
  let key := {| objectid := objectid (root_key (root inode));
                type := BTRFS_GC_INODE_ITEM_KEY;
                offset := btrfs_ino inode |} in
  fs_info <- gets (fun s => s) ;;
  add_gc_item (inode_gc_root fs_info inode) key rsv.


(** ** Reading traces and states *)

(** The roots whose running bit was tested and set, in order. *)
Fixpoint tested_roots (t : list event) : list btrfs_root :=
  match t with
  | [] => []
  | EvTestAndSetBit r _ :: t' => r :: tested_roots t'
  | _ :: t' => tested_roots t'
  end.

(** The events of processing an item: reading it, resolving its
    subvolume, transactions, truncation, tree updates. *)
Definition item_event (e : event) : bool :=
  match e with
  | EvFirstItem _ _ | EvGetFsRoot _ _ | EvJoin _ _ _ | EvTruncate _ _ _ _
  | EvSearch _ _ _ _ | EvDel _ _ _ | EvInsert _ _ _ _ | EvEnd _ => true
  | _ => false
  end.

(** The events of one full pass of the loop of gc_inode on the inode of
    [key]: the handle is [n], handed out with budget [b], and truncation
    answers [res]. *)
Definition pass_events (r : btrfs_root) (rsv : rsv_ptr) (key : btrfs_key)
    (n : nat) (b : rsv_ptr) (res : Z) : list event :=
  [ EvJoin r rsv (Ptr {| transid := n; block_rsv := b |});
    EvTruncate {| transid := n; block_rsv := rsv |} r
               {| tc_ino := offset key; new_size := 0; min_type := 0 |} res;
    EvEnd {| transid := n; block_rsv := trans_block_rsv |};
    EvBalanceDirty ].

(** The events of consecutive full passes of the loop of gc_inode, the
    first one at call number [n]; each pass makes two calls, the join and
    the truncation. *)
Fixpoint run_events (r : btrfs_root) (rsv : rsv_ptr) (key : btrfs_key)
    (n : nat) (l : list (rsv_ptr * Z)) : list event :=
  match l with
  | [] => []
  | (b, res) :: l' =>
      pass_events r rsv key n b res ++ run_events r rsv key (S (S n)) l'
  end.

(** The oracle answers consecutive full passes, from call number [n], as
    the list says: a handle with budget [b], then truncation returning
    [res]. *)
Fixpoint answers (n : nat) (l : list (rsv_ptr * Z)) : Prop :=
  match l with
  | [] => True
  | (b, res) :: l' =>
      o_join env n = JoinOk b /\ o_truncate env (S n) = res
      /\ answers (S (S n)) l'
  end.

(** Handles are numbered by the call that handed them out, so the open
    ones are older than the next call. *)
Definition trans_fresh (s : btrfs_fs_info) : Prop :=
  Forall (fun n => (n < ticks s)%nat) (open_trans s).

(** ** What an action leaves alone *)

(** Every finished run of [m] relates its first state to its last by [R]. *)
Definition preserves {A : Type} (R : btrfs_fs_info -> btrfs_fs_info -> Prop)
    (m : M A) : Prop :=
  forall s a s', m s = Some (a, s') -> R s s'.

(** The running bits, the queue and the flags of the filesystem are the
    same. *)
Definition same_flags (s s' : btrfs_fs_info) : Prop :=
  gc_running s' = gc_running s
  /\ gc_workers s' = gc_workers s
  /\ closing s' = closing s
  /\ nr_global_roots s' = nr_global_roots s
  /\ extent_tree_v2 s' = extent_tree_v2 s.

(** The items of every root are the same. *)
Definition same_items (s s' : btrfs_fs_info) : Prop := items s' = items s.

(** No handle was left open, and none was closed that was open before. *)
Definition same_open_trans (s s' : btrfs_fs_info) : Prop :=
  (ticks s <= ticks s')%nat
  /\ (trans_fresh s -> open_trans s' = open_trans s).

(** What gc_inode leaves alone. *)
Definition quiet (s s' : btrfs_fs_info) : Prop :=
  same_flags s s' /\ same_items s s' /\ same_open_trans s s'.

(** ** Dispatchers and workers side by side

    Calls of btrfs_queue_gc_work and workers of the pool interleave at the
    operations on the running bit and on the queue. *)

(** Where a call of btrfs_queue_gc_work stands in its for loop, at index
    [i] with [n] passes to go after this one. *)
Inductive dispatch_pc : Type :=
| AtLoop (i : Z) (n : nat)         (* the loop test, before test_and_set_bit *)
| AtKmalloc (i : Z) (n : nat)      (* the bit was clear and this call set it *)
| AtClearBit (i : Z) (n : nat)     (* kmalloc returned NULL *)
| AtQueueWork (i : Z) (n : nat).   (* the descriptor is allocated *)

Record system : Type := mk_system {
  fs : btrfs_fs_info;
  dispatchers : list dispatch_pc;
  running : list gc_work             (* taken from the queue, not yet returned *)
}.

Inductive step : system -> system -> Prop :=
| step_call s ds ws :
    extent_tree_v2 s = true -> closing s = false ->
    step (mk_system s ds ws)
         (mk_system s (AtLoop 0 (Z.to_nat (int_of_u64 (nr_global_roots s))) :: ds) ws)
| step_test_set s s' ds1 ds2 ws i n :
    test_and_set_bit (btrfs_global_root (gc_root_key i)) s = Some (false, s') ->
    step (mk_system s (ds1 ++ AtLoop i (S n) :: ds2) ws)
         (mk_system s' (ds1 ++ AtKmalloc i n :: ds2) ws)
| step_test_busy s s' ds1 ds2 ws i n :
    test_and_set_bit (btrfs_global_root (gc_root_key i)) s = Some (true, s') ->
    step (mk_system s (ds1 ++ AtLoop i (S n) :: ds2) ws)
         (mk_system s' (ds1 ++ AtLoop (i + 1) n :: ds2) ws)
| step_return s ds1 ds2 ws i :
    step (mk_system s (ds1 ++ AtLoop i O :: ds2) ws)
         (mk_system s (ds1 ++ ds2) ws)
| step_kmalloc_ok s s' ds1 ds2 ws i n :
    kmalloc s = Some (true, s') ->
    step (mk_system s (ds1 ++ AtKmalloc i n :: ds2) ws)
         (mk_system s' (ds1 ++ AtQueueWork i n :: ds2) ws)
| step_kmalloc_null s s' ds1 ds2 ws i n :
    kmalloc s = Some (false, s') ->
    step (mk_system s (ds1 ++ AtKmalloc i n :: ds2) ws)
         (mk_system s' (ds1 ++ AtClearBit i n :: ds2) ws)
| step_clear s s' ds1 ds2 ws i n :
    clear_bit (btrfs_global_root (gc_root_key i)) s = Some (tt, s') ->
    step (mk_system s (ds1 ++ AtClearBit i n :: ds2) ws)
         (mk_system s' (ds1 ++ AtLoop (i + 1) n :: ds2) ws)
| step_queue s s' ds1 ds2 ws i n :
    btrfs_queue_work {| work_root := btrfs_global_root (gc_root_key i) |} s
      = Some (tt, s') ->
    step (mk_system s (ds1 ++ AtQueueWork i n :: ds2) ws)
         (mk_system s' (ds1 ++ AtLoop (i + 1) n :: ds2) ws)
| step_take s ds ws q1 q2 w :
    gc_workers s = q1 ++ w :: q2 ->
    step (mk_system s ds ws)
         (mk_system (with_gc_workers (q1 ++ q2) s) ds (w :: ws))
| step_worker s s' ds ws1 ws2 w fuel :
    gc_work_fn fuel w s = Some (tt, s') ->
    step (mk_system s ds (ws1 ++ w :: ws2))
         (mk_system s' ds (ws1 ++ ws2))
| step_other s s' ds ws :
    gc_running s' = gc_running s -> gc_workers s' = gc_workers s ->
    step (mk_system s ds ws) (mk_system s' ds ws).

Inductive reachable (init : system) : system -> Prop :=
| reach_init : reachable init init
| reach_step a b : reachable init a -> step a b -> reachable init b.

(** The workers of the root with key [k] in a list of work. *)
Definition works_on (k : btrfs_key) (l : list gc_work) : nat :=
  length (filter (fun w => key_eqb (root_key (work_root w)) k) l).

(** The workers of the root with key [k] that are queued or running. *)
Definition active_workers (k : btrfs_key) (y : system) : nat :=
  (works_on k (gc_workers (fs y)) + works_on k (running y))%nat.

(** Whether a dispatcher stands between setting the bit of the root with
    key [k] and either queueing its worker or clearing the bit again. *)
Definition holds_bit (k : btrfs_key) (pc : dispatch_pc) : bool :=
  match pc with
  | AtLoop _ _ => false
  | AtKmalloc i _ | AtClearBit i _ | AtQueueWork i _ => key_eqb (gc_root_key i) k
  end.

Definition holders (k : btrfs_key) (ds : list dispatch_pc) : nat :=
  length (filter (holds_bit k) ds).

(** The invariant of the interleavings: for every root, the dispatchers
    standing between setting its bit and queueing or clearing, together
    with its workers queued or running, are at most one, and none when
    the bit is clear. *)
Definition one_owner (y : system) : Prop :=
  forall k,
    (holders k (dispatchers y) + active_workers k y <= 1)%nat
    /\ (gc_running (fs y) k = false ->
        (holders k (dispatchers y) + active_workers k y = 0)%nat).

(** ** Classes of events *)

(** The run from [s] to [s'] has logged only events of the class [P]. *)
Definition emits_only (P : event -> Prop) (s s' : btrfs_fs_info) : Prop :=
  exists ev, trace s' = trace s ++ ev /\ Forall P ev.

(** What a pass of the loop of gc_inode logs when called with [rsv]: the
    join asked with [rsv], the truncation under [rsv], the end under the
    default budget, the balancing. *)
Definition pass_event (rsv : rsv_ptr) (e : event) : Prop :=
  match e with
  | EvJoin _ rsv' _ => rsv' = rsv
  | EvTruncate t _ _ _ => block_rsv t = rsv
  | EvEnd t => block_rsv t = trans_block_rsv
  | EvBalanceDirty => True
  | _ => False
  end.

(** What the drain loop of the worker of root [r] logs when it runs with
    [rsv]: reads, searches and deletions in [r], joins asked with [rsv],
    truncations under [rsv], and the calls around them; no allocation, no
    insertion, no operation on a running bit or on the queue. *)
Definition worker_event (r : btrfs_root) (rsv : rsv_ptr) (e : event) : Prop :=
  match e with
  | EvJoin _ rsv' _ => rsv' = rsv
  | EvTruncate t _ _ _ => block_rsv t = rsv
  | EvFirstItem r' _ | EvSearch _ r' _ _ | EvDel _ r' _ => r' = r
  | EvEnd _ | EvBalanceDirty | EvGetFsRoot _ _ | EvPutRoot _ | EvErr _ _
  | EvReleasePath | EvAssert => True
  | _ => False
  end.

(** The truncations of a trace: the objectid of the root and the inode
    number of each call of btrfs_truncate_inode_items, in order. *)
Fixpoint truncations (t : list event) : list (Z * Z) :=
  match t with
  | [] => []
  | EvTruncate _ r c _ :: t' =>
      (objectid (root_key r), tc_ino c) :: truncations t'
  | _ :: t' => truncations t'
  end.

(** Every collaborator of the drain loop succeeds, at every call. *)
Definition collaborators_succeed : Prop :=
  forall n,
    (exists b, o_join env n = JoinOk b)
    /\ 0 <= o_fault env n
    /\ 0 <= o_fs_root env n
    /\ o_truncate env n = 0.

(** The items of the roots other than [rk] are the same, and the root [rk]
    has no item that it did not have. *)
Definition shrinks_at (rk : btrfs_key) (s s' : btrfs_fs_info) : Prop :=
  (forall k0, k0 <> rk -> items s' k0 = items s k0)
  /\ (forall key, items_mem key (items s' rk) = true ->
                  items_mem key (items s rk) = true).

(** What one call of the dispatcher does to the bits and to the queue:
    bits that were set are still set; the work it has queued is for
    roots whose bit was clear and is now set, no root twice; the items and
    the open handles are as before. *)
Definition dispatched (s s' : btrfs_fs_info) : Prop :=
  (forall k, gc_running s k = true -> gc_running s' k = true)
  /\ (exists q,
        gc_workers s' = gc_workers s ++ q
        /\ NoDup q
        /\ forall w, In w q ->
             gc_running s (root_key (work_root w)) = false
             /\ gc_running s' (root_key (work_root w)) = true)
  /\ items s' = items s
  /\ open_trans s' = open_trans s.

(** Every running bit that is set has an owner: a dispatcher between its
    test_and_set_bit and its clear_bit or btrfs_queue_work, or a worker
    queued or running. *)
Definition bits_owned (y : system) : Prop :=
  forall k, gc_running (fs y) k = true ->
            (1 <= holders k (dispatchers y) + active_workers k y)%nat.

(** ** A sample filesystem

    Sixteen global roots; the GC tree has objectid 12, root items have
    type 132 and GC inode items type 200; inode 42 of subvolume 7. *)

Definition sample_env : oracle :=
  mk_oracle (fun _ => true) (fun _ => JoinOk trans_block_rsv)
            (fun _ => 0) (fun _ => 0) (fun _ => 0).

Definition sample_fs : btrfs_fs_info :=
  mk_fs 16 true false [] (fun _ => []) (fun _ => false) [] 0 [].

Definition sample_root : btrfs_root := mk_root (mk_key 12 132 10).

Definition sample_key : btrfs_key := mk_key 7 200 42.

Definition sample_inode : btrfs_inode := mk_inode (mk_root (mk_key 7 132 (2 ^ 64 - 1))) 42.

Definition sample_rsv : btrfs_block_rsv := mk_rsv 1 4096 true.

(** The sample filesystem with the GC item of the sample inode in root 10. *)
Definition sample_fs_item : btrfs_fs_info :=
  with_items (upd (items sample_fs) (root_key sample_root) [sample_key]) sample_fs.

(** The same, closing, with the running bit of every root set. *)
Definition sample_fs_closing : btrfs_fs_info :=
  mk_fs 16 true true [] (items sample_fs_item) (fun _ => true) [] 0 [].

Definition sample_work : gc_work := mk_gc_work sample_root.

Definition sample_path : btrfs_path := {| held := true; slot := Some sample_key |}.

(** Truncation always fails with -EIO. *)
Definition sample_env_eio : oracle :=
  mk_oracle (fun _ => true) (fun _ => JoinOk trans_block_rsv)
            (fun _ => 0) (fun _ => 0) (fun _ => -5).

(** Truncation answers -ENOSPC at call 2, -EAGAIN at call 4, then 0. *)
Definition sample_env_retry : oracle :=
  mk_oracle (fun _ => true) (fun _ => JoinOk trans_block_rsv)
            (fun _ => 0) (fun _ => 0)
            (fun n => if Nat.eqb n 2 then -28 else if Nat.eqb n 4 then -11 else 0).

(** The subvolume is gone: the resolver answers -ENOENT. *)
Definition sample_env_gone : oracle :=
  mk_oracle (fun _ => true) (fun _ => JoinOk trans_block_rsv)
            (fun _ => 0) (fun _ => -2) (fun _ => 0).

(** The resolver answers -EIO, and the tree primitive of call 4 fails. *)
Definition sample_env_fail : oracle :=
  mk_oracle (fun _ => true) (fun _ => JoinOk trans_block_rsv)
            (fun n => if Nat.eqb n 4 then -5 else 0) (fun _ => -5) (fun _ => 0).


(** The sample filesystem, closing, with no item in any root. *)
Definition sample_fs_closing_empty : btrfs_fs_info :=
  mk_fs 16 true true [] (fun _ => []) (fun _ => true) [] 0 [].

(** The tree primitive of call 2 fails with -EIO. *)
Definition sample_env_del_fails : oracle :=
  mk_oracle (fun _ => true) (fun _ => JoinOk trans_block_rsv)
            (fun n => if Nat.eqb n 2 then -5 else 0) (fun _ => 0) (fun _ => 0).

(** Truncation answers -ENOSPC at call 2, and the join of call 3 fails
    with -ENOSPC. *)
Definition sample_env_join_fails : oracle :=
  mk_oracle (fun _ => true)
            (fun n => if Nat.eqb n 3 then JoinErr (-28) else JoinOk trans_block_rsv)
            (fun _ => 0) (fun _ => 0)
            (fun n => if Nat.eqb n 2 then -28 else 0).

(** Truncation always answers -ENOSPC. *)
Definition sample_env_nospace : oracle :=
  mk_oracle (fun _ => true) (fun _ => JoinOk trans_block_rsv)
            (fun _ => 0) (fun _ => 0) (fun _ => -28).

(** The join of call 4 fails with -ENOMEM. *)
Definition sample_env_late_join_fails : oracle :=
  mk_oracle (fun _ => true)
            (fun n => if Nat.eqb n 4 then JoinErr (-12) else JoinOk trans_block_rsv)
            (fun _ => 0) (fun _ => 0) (fun _ => 0).

(** ** Running the code symbolically *)

Ltac unfold_prims :=
  unfold btrfs_alloc_path, btrfs_release_path, btrfs_free_path,
    btrfs_gc_rsv_refill_and_join, btrfs_end_transaction,
    btrfs_insert_empty_item, btrfs_search_slot, btrfs_del_item,
    btrfs_first_item, btrfs_get_fs_root, btrfs_put_root, btrfs_err,
    btrfs_truncate_inode_items, btrfs_btree_balance_dirty,
    btrfs_alloc_block_rsv, btrfs_free_block_rsv, btrfs_fs_closing,
    btrfs_fs_incompat_EXTENT_TREE_V2, kmalloc, kfree, test_and_set_bit,
    clear_bit, btrfs_queue_work, ASSERT_0, emit, modify, gets, tick, bind, ret.

Ltac unfold_prims_in H :=
  unfold btrfs_alloc_path, btrfs_release_path, btrfs_free_path,
    btrfs_gc_rsv_refill_and_join, btrfs_end_transaction,
    btrfs_insert_empty_item, btrfs_search_slot, btrfs_del_item,
    btrfs_first_item, btrfs_get_fs_root, btrfs_put_root, btrfs_err,
    btrfs_truncate_inode_items, btrfs_btree_balance_dirty,
    btrfs_alloc_block_rsv, btrfs_free_block_rsv, btrfs_fs_closing,
    btrfs_fs_incompat_EXTENT_TREE_V2, kmalloc, kfree, test_and_set_bit,
    clear_bit, btrfs_queue_work, ASSERT_0, emit, modify, gets, tick, bind, ret
    in H.

Ltac run := unfold_prims; cbn.

(** A collaborator that only consults the oracle and logs. *)
Ltac frame_prim :=
  let s := fresh "s" in let a := fresh "a" in let s' := fresh "s'" in
  let H := fresh "H" in
  intros s a s' H; unfold_prims_in H; cbn in H;
  repeat match type of H with
         | context [match ?x with _ => _ end] => destruct x; cbn in H
         end;
  inversion H; subst; cbn.

Ltac solve_frame :=
  unfold quiet, same_flags, same_items, same_open_trans; cbn;
  repeat split; auto.

(** A collaborator logs only events of the class at hand. *)
Ltac emits_prim :=
  frame_prim;
  first [ eexists; split;
          [ cbn; repeat rewrite <- app_assoc; reflexivity
          | repeat constructor; cbn; auto ]
        | exists []; split;
          [ cbn; symmetry; apply app_nil_r | constructor ] ].

(** ** Composing runs *)

Lemma bind_inv {A B : Type} (m : M A) (k : A -> M B) s b s' :
  bind m k s = Some (b, s') ->
  exists a s1, m s = Some (a, s1) /\ k a s1 = Some (b, s').
Proof.
  unfold bind. destruct (m s) as [[a s1]|]; [|discriminate].
  intros H. now exists a, s1.
Qed.

Lemma bind_run {A B : Type} (m : M A) (k : A -> M B) s a s1 :
  m s = Some (a, s1) -> bind m k s = k a s1.
Proof. unfold bind. now intros ->. Qed.

Section Preserves.

Variable R : btrfs_fs_info -> btrfs_fs_info -> Prop.
Hypothesis R_refl : forall s, R s s.
Hypothesis R_trans : forall a b c, R a b -> R b c -> R a c.

Lemma preserves_ret {A : Type} (a : A) : preserves R (ret a).
Proof. intros s x s' H. inversion H. apply R_refl. Qed.

Lemma preserves_bind {A B : Type} (m : M A) (k : A -> M B) :
  preserves R m -> (forall a, preserves R (k a)) -> preserves R (bind m k).
Proof.
  intros Hm Hk s b s' H. apply bind_inv in H. destruct H as (a & s1 & H1 & H2).
  eapply R_trans; [eapply Hm; eassumption | eapply Hk; eassumption].
Qed.



Lemma preserves_out_of_fuel {A : Type} : preserves R (@out_of_fuel A).
Proof. intros s x s' H. discriminate. Qed.

End Preserves.

Lemma same_flags_refl s : same_flags s s.
Proof. unfold same_flags. tauto. Qed.

Lemma same_flags_trans a b c : same_flags a b -> same_flags b c -> same_flags a c.
Proof. unfold same_flags. intuition congruence. Qed.

Lemma same_items_refl s : same_items s s.
Proof. reflexivity. Qed.

Lemma same_items_trans a b c : same_items a b -> same_items b c -> same_items a c.
Proof. unfold same_items. congruence. Qed.

Lemma trans_fresh_later s s' :
  (ticks s <= ticks s')%nat -> open_trans s' = open_trans s ->
  trans_fresh s -> trans_fresh s'.
Proof.
  unfold trans_fresh. intros Ht -> H. eapply Forall_impl; [|exact H].
  cbn. intros; lia.
Qed.

Lemma same_open_trans_refl s : same_open_trans s s.
Proof. unfold same_open_trans. auto. Qed.

Lemma same_open_trans_trans a b c :
  same_open_trans a b -> same_open_trans b c -> same_open_trans a c.
Proof.
  unfold same_open_trans. intros [H1 H2] [H3 H4]. split; [lia|].
  intros Hf. rewrite H4, H2; auto.
  apply (trans_fresh_later a b); auto.
Qed.

Lemma quiet_refl s : quiet s s.
Proof.
  unfold quiet.
  split; [apply same_flags_refl|split; [apply same_items_refl|apply same_open_trans_refl]].
Qed.

Lemma quiet_trans a b c : quiet a b -> quiet b c -> quiet a c.
Proof.
  unfold quiet. intros (H1 & H2 & H3) (H4 & H5 & H6).
  split; [|split].
  - exact (same_flags_trans _ _ _ H1 H4).
  - exact (same_items_trans _ _ _ H2 H5).
  - exact (same_open_trans_trans _ _ _ H3 H6).
Qed.

Lemma quiet_consult s n :
  (ticks s <= n)%nat -> forall ev, quiet s (with_trace ev (with_ticks n s)).
Proof.
  intros Hn ev. unfold quiet, same_flags, same_items, same_open_trans. cbn.
  repeat split; auto.
Qed.

(** ** Keys *)

Lemma key_eqb_eq a b : key_eqb a b = true <-> a = b.
Proof.
  unfold key_eqb. destruct a as [o1 t1 f1], b as [o2 t2 f2]. cbn. split.
  - intros H. apply andb_true_iff in H. destruct H as [H H3].
    apply andb_true_iff in H. destruct H as [H1 H2].
    apply Z.eqb_eq in H1, H2, H3. congruence.
  - intros H. injection H as -> -> ->. now rewrite !Z.eqb_refl.
Qed.

Lemma key_eqb_refl a : key_eqb a a = true.
Proof. now apply key_eqb_eq. Qed.

Lemma key_eqb_neq a b : key_eqb a b = false <-> a <> b.
Proof.
  split.
  - intros H E. apply key_eqb_eq in E. congruence.
  - intros H. destruct (key_eqb a b) eqn:E; [|reflexivity].
    apply key_eqb_eq in E. contradiction.
Qed.


Lemma upd_same {A : Type} (f : btrfs_key -> A) k v : upd f k v k = v.
Proof. unfold upd. now rewrite key_eqb_refl. Qed.


Lemma items_remove_not_mem k l : items_mem k (items_remove k l) = false.
Proof.
  unfold items_mem, items_remove. induction l as [|x l IH]; cbn; [reflexivity|].
  destruct (key_eqb k x) eqn:E; cbn; [assumption|].
  now rewrite E.
Qed.


(** ** Open handles *)

Lemma end_removes_fresh (l : list nat) (n m : nat) :
  Forall (fun x => (x < n)%nat) l -> (n <= m)%nat ->
  filter (fun x => negb (Nat.eqb x m)) (m :: l) = l.
Proof.
  intros H Hm. cbn. rewrite Nat.eqb_refl. cbn.
  induction H as [|x l Hx Hl IH]; cbn; [reflexivity|].
  assert (E : Nat.eqb x m = false) by (apply Nat.eqb_neq; lia).
  rewrite E. cbn. now rewrite IH.
Qed.

Lemma end_restores_open_trans s :
  trans_fresh s ->
  filter (fun n => negb (Nat.eqb n (ticks s))) (ticks s :: open_trans s)
  = open_trans s.
Proof.
  unfold trans_fresh. intros H. cbn. rewrite Nat.eqb_refl. cbn.
  induction H as [|x l Hx Hl IH]; cbn; [reflexivity|].
  assert (E : Nat.eqb x (ticks s) = false) by (apply Nat.eqb_neq; lia).
  rewrite E. cbn. now rewrite IH.
Qed.

(** *** add_gc_item, case by case *)

Lemma add_gc_item_no_path s r key rsv :
  o_alloc env (ticks s) = false ->
  add_gc_item r key rsv s =
  Some (- ENOMEM, with_trace (trace s ++ [EvAllocPath false])
                    (with_ticks (S (ticks s)) s)).
Proof.
  intros Ha. unfold add_gc_item. run. rewrite Ha. reflexivity.
Qed.

Lemma add_gc_item_join_fails s r key rsv e :
  o_alloc env (ticks s) = true ->
  o_join env (S (ticks s)) = JoinErr e ->
  add_gc_item r key rsv s =
  Some (e, with_trace (trace s ++ [EvAllocPath true; EvJoin r rsv (ErrPtr e);
                                   EvFreePath])
             (with_ticks (S (S (ticks s))) s)).
Proof.
  intros Ha Hj. unfold add_gc_item. run. rewrite Ha. cbn. rewrite Hj. cbn.
  repeat rewrite <- app_assoc. reflexivity.
Qed.

Lemma add_gc_item_joined s r key rsv b :
  o_alloc env (ticks s) = true ->
  o_join env (S (ticks s)) = JoinOk b ->
  exists res s',
    add_gc_item r key rsv s = Some (res, s')
    /\ trace s' = trace s ++
         [EvAllocPath true;
          EvJoin r rsv (Ptr {| transid := S (ticks s); block_rsv := b |});
          EvInsert {| transid := S (ticks s); block_rsv := rsv |} r key res;
          EvEnd {| transid := S (ticks s); block_rsv := trans_block_rsv |};
          EvFreePath]
    /\ open_trans s' =
         filter (fun n => negb (Nat.eqb n (S (ticks s))))
                (S (ticks s) :: open_trans s)
    /\ ticks s' = S (S (S (ticks s)))
    /\ (res = 0 ->
        o_fault env (S (S (ticks s))) >= 0
        /\ items_mem key (items s (root_key r)) = false
        /\ items s' = upd (items s) (root_key r)
                          (items_insert key (items s (root_key r))))
    /\ (res <> 0 -> items s' = items s)
    /\ (0 <= o_fault env (S (S (ticks s))) ->
        items_mem key (items s (root_key r)) = false -> res = 0).
Proof.
  intros Ha Hj. unfold add_gc_item. run. rewrite Ha. cbn. rewrite Hj. cbn.
  fold (items_mem key (items s (root_key r))).
  destruct (o_fault env (S (S (ticks s))) <? 0) eqn:Hf.
  - apply Z.ltb_lt in Hf.
    assert (E : (o_fault env (S (S (ticks s))) =? 0) = false) by (apply Z.eqb_neq; lia).
    rewrite E. cbn. eexists. eexists. split; [reflexivity|]. cbn.
    repeat rewrite <- app_assoc. cbn. repeat split; try lia; try reflexivity.
  - apply Z.ltb_ge in Hf.
    destruct (items_mem key (items s (root_key r))) eqn:Hk; cbn.
    + eexists. eexists. split; [reflexivity|]. cbn.
      repeat rewrite <- app_assoc. cbn.
      repeat split; try reflexivity; try (unfold EEXIST in *; lia);
        try discriminate.
    + eexists. eexists. split; [reflexivity|]. cbn.
      repeat rewrite <- app_assoc. cbn.
      repeat split; try reflexivity; try lia.
Qed.

(** *** One pass of the loop of gc_inode *)

Lemma gc_inode_pass_join_fails s r rsv key e :
  o_join env (ticks s) = JoinErr e ->
  gc_inode_pass r rsv key s =
  Some ((e, true), with_trace (trace s ++ [EvJoin r rsv (ErrPtr e)])
                     (with_ticks (S (ticks s)) s)).
Proof.
  intros Hj. unfold gc_inode_pass. run. rewrite Hj. reflexivity.
Qed.

Lemma gc_inode_pass_joined s r rsv key b :
  o_join env (ticks s) = JoinOk b ->
  gc_inode_pass r rsv key s =
  Some ((o_truncate env (S (ticks s)), false),
        with_trace (trace s ++ pass_events r rsv key (ticks s) b
                                           (o_truncate env (S (ticks s))))
          (with_open_trans
             (filter (fun n => negb (Nat.eqb n (ticks s))) (ticks s :: open_trans s))
             (with_ticks (S (S (ticks s))) s))).
Proof.
  intros Hj. unfold gc_inode_pass. run. rewrite Hj. cbn.
  repeat rewrite <- app_assoc. reflexivity.
Qed.

Lemma retryable_iff res :
  retryable res = true <-> res = - ENOSPC \/ res = - EAGAIN.
Proof.
  unfold retryable. rewrite orb_true_iff, !Z.eqb_eq. reflexivity.
Qed.

(** *** The loop of gc_inode *)

Lemma gc_inode_loop_stops s r rsv key b fuel :
  o_join env (ticks s) = JoinOk b ->
  retryable (o_truncate env (S (ticks s))) = false ->
  gc_inode_loop fuel r rsv key s =
  Some (o_truncate env (S (ticks s)),
        with_trace (trace s ++ pass_events r rsv key (ticks s) b
                                           (o_truncate env (S (ticks s))))
          (with_open_trans
             (filter (fun n => negb (Nat.eqb n (ticks s))) (ticks s :: open_trans s))
             (with_ticks (S (S (ticks s))) s))).
Proof.
  intros Hj Hr.
  destruct fuel; cbn; unfold bind at 1;
    rewrite (gc_inode_pass_joined _ _ _ _ _ Hj); cbn; rewrite Hr; reflexivity.
Qed.

Lemma gc_inode_loop_retries s r rsv key b fuel :
  o_join env (ticks s) = JoinOk b ->
  retryable (o_truncate env (S (ticks s))) = true ->
  gc_inode_loop (S fuel) r rsv key s =
  gc_inode_loop fuel r rsv key
    (with_trace (trace s ++ pass_events r rsv key (ticks s) b
                                        (o_truncate env (S (ticks s))))
       (with_open_trans
          (filter (fun n => negb (Nat.eqb n (ticks s))) (ticks s :: open_trans s))
          (with_ticks (S (S (ticks s))) s))).
Proof.
  intros Hj Hr. cbn. unfold bind at 1.
  rewrite (gc_inode_pass_joined _ _ _ _ _ Hj). cbn. rewrite Hr. reflexivity.
Qed.

Lemma gc_inode_loop_breaks s r rsv key e fuel :
  o_join env (ticks s) = JoinErr e ->
  gc_inode_loop fuel r rsv key s =
  Some (e, with_trace (trace s ++ [EvJoin r rsv (ErrPtr e)])
             (with_ticks (S (ticks s)) s)).
Proof.
  intros Hj.
  destruct fuel; cbn; unfold bind at 1;
    rewrite (gc_inode_pass_join_fails _ _ _ _ _ Hj); reflexivity.
Qed.

Lemma gc_inode_loop_run l : forall s r rsv key b res fuel,
  answers (ticks s) (l ++ [(b, res)]) ->
  Forall (fun x => retryable (snd x) = true) l ->
  retryable res = false ->
  (length l <= fuel)%nat ->
  exists s',
    gc_inode_loop fuel r rsv key s = Some (res, s')
    /\ trace s' = trace s ++ run_events r rsv key (ticks s) (l ++ [(b, res)])
    /\ ticks s' = (ticks s + 2 * S (length l))%nat
    /\ items s' = items s
    /\ gc_running s' = gc_running s
    /\ (trans_fresh s -> open_trans s' = open_trans s).
Proof.
  induction l as [|[b0 res0] l IH]; intros s r rsv key b res fuel Ha Hl Hr Hfuel.
  - cbn in Ha. destruct Ha as (Hj & Ht & _). subst res.
    rewrite (gc_inode_loop_stops _ _ _ _ _ _ Hj Hr).
    eexists. split; [reflexivity|]. cbn.
    repeat split; try reflexivity; try lia.
    intros Hfr. pose proof (end_restores_open_trans _ Hfr) as E.
    cbn in E. exact E.
  - cbn in Ha. destruct Ha as (Hj & Ht & Ha). subst res0.
    inversion Hl as [|x l' Hr0 Hl']; subst. cbn in Hr0.
    destruct fuel as [|fuel]; [cbn in Hfuel; lia|].
    rewrite (gc_inode_loop_retries _ _ _ _ _ _ Hj Hr0).
    match goal with |- context [gc_inode_loop fuel r rsv key ?s1] =>
      destruct (IH s1 r rsv key b res fuel) as (s' & Hrun & Htr & Htk & Hit & Hgr & Hop)
    end; try assumption.
    + cbn in Hfuel. lia.
    + exists s'. split; [exact Hrun|]. cbn in Htr, Htk, Hit, Hgr, Hop.
      repeat split.
      * rewrite Htr. cbn. rewrite <- app_assoc. reflexivity.
      * rewrite Htk. cbn. lia.
      * exact Hit.
      * exact Hgr.
      * intros Hfr. pose proof (end_restores_open_trans _ Hfr) as E.
        cbn in E. rewrite E in Hop.
        apply Hop. unfold trans_fresh in *. cbn.
        eapply Forall_impl; [|exact Hfr]. cbn. intros; lia.
Qed.

(** *** delete_gc_item, case by case *)

Lemma delete_gc_item_join_fails s r path rsv key e :
  o_join env (ticks s) = JoinErr e ->
  delete_gc_item r path rsv key s =
  Some (path, with_trace (trace s ++ [EvJoin r rsv (ErrPtr e)])
                (with_ticks (S (ticks s)) s)).
Proof.
  intros Hj. unfold delete_gc_item. run. rewrite Hj. reflexivity.
Qed.

Lemma delete_gc_item_search_error s r path rsv key b :
  o_join env (ticks s) = JoinOk b ->
  o_fault env (S (ticks s)) < 0 ->
  let t := {| transid := ticks s; block_rsv := b |} in
  delete_gc_item r path rsv key s =
  Some (path,
        with_trace (trace s ++ [EvJoin r rsv (Ptr t);
                                EvSearch t r key (o_fault env (S (ticks s)))])
          (with_open_trans (ticks s :: open_trans s)
             (with_ticks (S (S (ticks s))) s))).
Proof.
  intros Hj Hf t. unfold delete_gc_item. run. rewrite Hj. cbn.
  assert (Hlt : (o_fault env (S (ticks s)) <? 0) = true) by (apply Z.ltb_lt; lia).
  rewrite Hlt.
  assert (Hgt : (o_fault env (S (ticks s)) >? 0) = false).
  { rewrite Z.gtb_ltb. apply Z.ltb_ge. lia. }
  rewrite Hgt, Hlt. rewrite <- app_assoc. reflexivity.
Qed.

Lemma delete_gc_item_absent s r path rsv key b :
  o_join env (ticks s) = JoinOk b ->
  0 <= o_fault env (S (ticks s)) ->
  items_mem key (items s (root_key r)) = false ->
  let t := {| transid := ticks s; block_rsv := b |} in
  delete_gc_item r path rsv key s =
  Some ({| held := true; slot := None |},
        with_trace (trace s ++ [EvJoin r rsv (Ptr t); EvSearch t r key 1])
          (with_open_trans (ticks s :: open_trans s)
             (with_ticks (S (S (ticks s))) s))).
Proof.
  intros Hj Hf Hk t. unfold delete_gc_item. run. rewrite Hj. cbn.
  assert (Hlt : (o_fault env (S (ticks s)) <? 0) = false) by (apply Z.ltb_ge; lia).
  unfold items_mem in Hk. rewrite Hlt, Hk. cbn.
  rewrite <- app_assoc. reflexivity.
Qed.

Lemma delete_gc_item_present s r path rsv key b :
  o_join env (ticks s) = JoinOk b ->
  0 <= o_fault env (S (ticks s)) ->
  0 <= o_fault env (S (S (ticks s))) ->
  items_mem key (items s (root_key r)) = true ->
  let t := {| transid := ticks s; block_rsv := b |} in
  delete_gc_item r path rsv key s =
  Some (empty_path,
        with_trace (trace s ++ [EvJoin r rsv (Ptr t); EvSearch t r key 0;
                                EvDel t r (Some key); EvReleasePath; EvEnd t])
          (with_open_trans
             (filter (fun n => negb (Nat.eqb n (ticks s))) (ticks s :: open_trans s))
             (with_items (upd (items s) (root_key r)
                              (items_remove key (items s (root_key r))))
                (with_ticks (S (S (S (ticks s)))) s)))).
Proof.
  intros Hj Hf Hd Hk t. unfold delete_gc_item. run. rewrite Hj. cbn.
  assert (Hlt : (o_fault env (S (ticks s)) <? 0) = false) by (apply Z.ltb_ge; lia).
  assert (Hlt' : (o_fault env (S (S (ticks s))) <? 0) = false) by (apply Z.ltb_ge; lia).
  unfold items_mem in Hk. rewrite Hlt, Hk. cbn. rewrite Hlt'. cbn.
  repeat rewrite <- app_assoc. reflexivity.
Qed.

(** *** gc_inode and the body of the worker's loop *)

Lemma gc_inode_root_gone s fuel rsv key :
  o_fs_root env (ticks s) = - ENOENT ->
  gc_inode fuel rsv key s =
  Some (0, with_trace (trace s ++ [EvGetFsRoot (objectid key) (ErrPtr (- ENOENT))])
             (with_ticks (S (ticks s)) s)).
Proof.
  intros He. unfold gc_inode. run. rewrite He. reflexivity.
Qed.

Lemma gc_inode_root_error s fuel rsv key e :
  o_fs_root env (ticks s) = e -> e < 0 -> e <> - ENOENT ->
  gc_inode fuel rsv key s =
  Some (e, with_trace (trace s ++ [EvGetFsRoot (objectid key) (ErrPtr e);
                                   EvErr (objectid key) e])
             (with_ticks (S (ticks s)) s)).
Proof.
  intros He Hneg Hne. unfold gc_inode. run. rewrite He.
  assert (E1 : (e <? 0) = true) by (apply Z.ltb_lt; lia).
  assert (E2 : (e =? -2) = false) by (apply Z.eqb_neq; exact Hne).
  rewrite E1, E2. cbn. rewrite <- app_assoc. reflexivity.
Qed.

Lemma gc_inode_root_found s fuel rsv key :
  0 <= o_fs_root env (ticks s) ->
  let r := {| root_key := mk_key (objectid key) BTRFS_ROOT_ITEM_KEY (2 ^ 64 - 1) |} in
  gc_inode fuel rsv key s =
  (res <- gc_inode_loop fuel r rsv key ;; btrfs_put_root r ;; ret res)
    (with_trace (trace s ++ [EvGetFsRoot (objectid key) (Ptr r)])
       (with_ticks (S (ticks s)) s)).
Proof.
  intros He r. unfold gc_inode.
  assert (E1 : (o_fs_root env (ticks s) <? 0) = false) by (apply Z.ltb_ge; lia).
  unfold btrfs_get_fs_root, tick, emit, modify. unfold bind at 1 2 3. cbn.
  rewrite E1. reflexivity.
Qed.

Lemma gc_work_body_inode s fuel r path rsv key :
  slot path = Some key ->
  type key = BTRFS_GC_INODE_ITEM_KEY ->
  gc_work_body fuel r path rsv s =
  (res <- gc_inode fuel rsv key ;;
   if res =? 0 then delete_gc_item r empty_path rsv key else ret empty_path)
    (with_trace (trace s ++ [EvReleasePath]) s).
Proof.
  intros Hs Ht. unfold gc_work_body, btrfs_item_key_to_cpu. rewrite Hs.
  rewrite Ht, Z.eqb_refl. reflexivity.
Qed.

Lemma gc_work_body_unknown s fuel r path rsv key :
  slot path = Some key ->
  type key <> BTRFS_GC_INODE_ITEM_KEY ->
  gc_work_body fuel r path rsv s =
  Some (empty_path, with_trace (trace s ++ [EvReleasePath; EvAssert]) s).
Proof.
  intros Hs Ht. unfold gc_work_body, btrfs_item_key_to_cpu. rewrite Hs.
  apply Z.eqb_neq in Ht. rewrite Ht. run. rewrite <- app_assoc. reflexivity.
Qed.

(** *** What gc_inode and delete_gc_item leave alone *)

Lemma gc_inode_pass_quiet r rsv key : preserves quiet (gc_inode_pass r rsv key).
Proof.
  intros s a s' H. destruct (o_join env (ticks s)) as [b|e] eqn:Hj.
  - rewrite (gc_inode_pass_joined _ _ _ _ _ Hj) in H. inversion H; subst.
    unfold quiet, same_flags, same_items, same_open_trans. cbn.
    repeat split; auto.
    intros Hfr. pose proof (end_restores_open_trans _ Hfr) as E. cbn in E. exact E.
  - rewrite (gc_inode_pass_join_fails _ _ _ _ _ Hj) in H. inversion H; subst.
    apply quiet_consult. lia.
Qed.

Lemma quiet_bind {A B : Type} (m : M A) (k : A -> M B) :
  preserves quiet m -> (forall a, preserves quiet (k a)) ->
  preserves quiet (bind m k).
Proof. apply preserves_bind. exact quiet_trans. Qed.

Lemma quiet_ret {A : Type} (a : A) : preserves quiet (ret a).
Proof. apply preserves_ret. exact quiet_refl. Qed.

Lemma gc_inode_loop_quiet fuel r rsv key :
  preserves quiet (gc_inode_loop fuel r rsv key).
Proof.
  induction fuel as [|fuel IH]; cbn.
  - apply quiet_bind; [apply gc_inode_pass_quiet|].
    intros [res broke]. destruct broke; [apply quiet_ret|].
    destruct (retryable res); [apply preserves_out_of_fuel | apply quiet_ret].
  - apply quiet_bind; [apply gc_inode_pass_quiet|].
    intros [res broke]. destruct broke; [apply quiet_ret|].
    destruct (retryable res); [exact IH | apply quiet_ret].
Qed.

Lemma gc_inode_quiet fuel rsv key : preserves quiet (gc_inode fuel rsv key).
Proof.
  unfold gc_inode. apply quiet_bind.
  - frame_prim; solve_frame.
  - intros [r|e].
    + apply quiet_bind; [apply gc_inode_loop_quiet|].
      intros res. apply quiet_bind.
      * frame_prim; solve_frame.
      * intros _. apply quiet_ret.
    + destruct (e =? - ENOENT); [apply quiet_ret|].
      apply quiet_bind.
      * frame_prim; solve_frame.
      * intros _. apply quiet_ret.
Qed.

Lemma same_flags_bind {A B : Type} (m : M A) (k : A -> M B) :
  preserves same_flags m -> (forall a, preserves same_flags (k a)) ->
  preserves same_flags (bind m k).
Proof. apply preserves_bind. exact same_flags_trans. Qed.

Lemma same_flags_ret {A : Type} (a : A) : preserves same_flags (ret a).
Proof. apply preserves_ret. exact same_flags_refl. Qed.

Lemma quiet_same_flags {A : Type} (m : M A) :
  preserves quiet m -> preserves same_flags m.
Proof. intros H s a s' E. now destruct (H s a s' E). Qed.

Lemma join_same_flags r rsv :
  preserves same_flags (btrfs_gc_rsv_refill_and_join r rsv).
Proof. frame_prim; solve_frame. Qed.

Lemma end_same_flags t : preserves same_flags (btrfs_end_transaction t).
Proof. frame_prim; solve_frame. Qed.

Lemma search_same_flags t r key path a b :
  preserves same_flags (btrfs_search_slot t r key path a b).
Proof. frame_prim; solve_frame. Qed.

Lemma del_same_flags t r path : preserves same_flags (btrfs_del_item t r path).
Proof. frame_prim; solve_frame. Qed.

Lemma release_same_flags path : preserves same_flags (btrfs_release_path path).
Proof. frame_prim; solve_frame. Qed.

Lemma first_item_same_flags r path : preserves same_flags (btrfs_first_item r path).
Proof. frame_prim; solve_frame. Qed.

Lemma closing_same_flags : preserves same_flags btrfs_fs_closing.
Proof. frame_prim; solve_frame. Qed.

Lemma assert_same_flags : preserves same_flags ASSERT_0.
Proof. frame_prim; solve_frame. Qed.

Lemma delete_gc_item_same_flags r path rsv key :
  preserves same_flags (delete_gc_item r path rsv key).
Proof.
  unfold delete_gc_item. apply same_flags_bind; [apply join_same_flags|].
  intros [t|e]; [|apply same_flags_ret].
  apply same_flags_bind; [apply search_same_flags|].
  intros [res path']. cbn.
  match goal with
  | |- context [if ?c <? 0 then ret _ else _] => destruct (c <? 0)
  end; [apply same_flags_ret|].
  apply same_flags_bind; [apply del_same_flags|]. intros _.
  apply same_flags_bind; [apply release_same_flags|]. intros p.
  apply same_flags_bind; [apply end_same_flags|]. intros _.
  apply same_flags_ret.
Qed.

Lemma gc_work_body_same_flags fuel r path rsv :
  preserves same_flags (gc_work_body fuel r path rsv).
Proof.
  unfold gc_work_body.
  apply same_flags_bind; [apply release_same_flags|]. intros p.
  apply same_flags_bind.
  - destruct (_ =? BTRFS_GC_INODE_ITEM_KEY).
    + apply quiet_same_flags, gc_inode_quiet.
    + apply same_flags_bind; [apply assert_same_flags|].
      intros _. apply same_flags_ret.
  - intros res. destruct (res =? 0);
      [apply delete_gc_item_same_flags | apply same_flags_ret].
Qed.

Lemma gc_work_loop_same_flags fuel : forall r path rsv,
  preserves same_flags (gc_work_loop fuel r path rsv).
Proof.
  induction fuel as [|fuel IH]; intros r path rsv; cbn.
  - apply same_flags_bind; [apply closing_same_flags|]. intros c.
    destruct (negb c); [apply same_flags_ret|].
    apply same_flags_bind; [apply first_item_same_flags|]. intros [res p].
    destruct (negb (res =? 0)); [apply same_flags_ret|].
    apply preserves_out_of_fuel.
  - apply same_flags_bind; [apply closing_same_flags|]. intros c.
    destruct (negb c); [apply same_flags_ret|].
    apply same_flags_bind; [apply first_item_same_flags|]. intros [res p].
    destruct (negb (res =? 0)); [apply same_flags_ret|].
    apply same_flags_bind; [apply gc_work_body_same_flags|]. intros p'.
    apply IH.
Qed.

(** *** gc_work_fn *)

Lemma out_run r s :
  (clear_bit r ;; kfree) s =
  Some (tt, with_trace (trace s ++ [EvClearBit r; EvKfree])
              (with_gc_running (upd (gc_running s) (root_key r) false) s)).
Proof. run. rewrite <- app_assoc. reflexivity. Qed.

Lemma alloc_path_same_flags : preserves same_flags btrfs_alloc_path.
Proof. frame_prim; solve_frame. Qed.

Lemma alloc_rsv_same_flags : preserves same_flags btrfs_alloc_block_rsv.
Proof. frame_prim; solve_frame. Qed.

Lemma free_rsv_same_flags rsv : preserves same_flags (btrfs_free_block_rsv rsv).
Proof. frame_prim; solve_frame. Qed.

Lemma free_path_same_flags p : preserves same_flags (btrfs_free_path p).
Proof. frame_prim; solve_frame. Qed.

(** Every finished run of gc_work_fn ends with clear_bit and kfree, and
    nothing before them touches a running bit or the queue. *)
Lemma gc_work_fn_exit fuel w s s' :
  gc_work_fn fuel w s = Some (tt, s') ->
  exists s1,
    same_flags s s1
    /\ s' = with_trace (trace s1 ++ [EvClearBit (work_root w); EvKfree])
              (with_gc_running
                 (upd (gc_running s1) (root_key (work_root w)) false) s1).
Proof.
  unfold gc_work_fn. intros H.
  apply bind_inv in H. destruct H as (p & s1 & Hp & H).
  pose proof (alloc_path_same_flags _ _ _ Hp) as F1.
  destruct p as [p|].
  - apply bind_inv in H. destruct H as (v & s2 & Hv & H).
    pose proof (alloc_rsv_same_flags _ _ _ Hv) as F2.
    destruct v as [v|].
    + apply bind_inv in H. destruct H as (p' & s3 & Hl & H).
      pose proof (gc_work_loop_same_flags _ _ _ _ _ _ _ Hl) as F3.
      apply bind_inv in H. destruct H as ([] & s4 & Hf & H).
      pose proof (free_rsv_same_flags _ _ _ _ Hf) as F4.
      apply bind_inv in H. destruct H as ([] & s5 & Hg & H).
      pose proof (free_path_same_flags _ _ _ _ Hg) as F5.
      rewrite out_run in H. inversion H; subst. exists s5. split; [|reflexivity].
      eauto using same_flags_trans.
    + apply bind_inv in H. destruct H as ([] & s3 & Hg & H).
      pose proof (free_path_same_flags _ _ _ _ Hg) as F3.
      rewrite out_run in H. inversion H; subst. exists s3. split; [|reflexivity].
      eauto using same_flags_trans.
  - rewrite out_run in H. inversion H; subst. exists s1. split; [exact F1|reflexivity].
Qed.

Lemma gc_work_fn_no_path fuel w s :
  o_alloc env (ticks s) = false ->
  gc_work_fn fuel w s =
  Some (tt, with_trace (trace s ++ [EvAllocPath false; EvClearBit (work_root w);
                                    EvKfree])
              (with_gc_running
                 (upd (gc_running s) (root_key (work_root w)) false)
                 (with_ticks (S (ticks s)) s))).
Proof.
  intros Ha. unfold gc_work_fn. run. rewrite Ha. cbn.
  repeat rewrite <- app_assoc. reflexivity.
Qed.

Lemma gc_work_fn_no_rsv fuel w s :
  o_alloc env (ticks s) = true ->
  o_alloc env (S (ticks s)) = false ->
  gc_work_fn fuel w s =
  Some (tt, with_trace (trace s ++ [EvAllocPath true; EvAllocRsv false;
                                    EvFreePath; EvClearBit (work_root w); EvKfree])
              (with_gc_running
                 (upd (gc_running s) (root_key (work_root w)) false)
                 (with_ticks (S (S (ticks s))) s))).
Proof.
  intros Ha Hb. unfold gc_work_fn. run. rewrite Ha. cbn. rewrite Hb. cbn.
  repeat rewrite <- app_assoc. reflexivity.
Qed.

Lemma gc_work_fn_drained fuel w s p s2 :
  o_alloc env (ticks s) = true ->
  o_alloc env (S (ticks s)) = true ->
  let rsv := {| rsv_id := S (ticks s); size := metadata_size_1; failfast := true |} in
  gc_work_loop fuel (work_root w) empty_path (rsv_of rsv)
    (with_trace (trace s ++ [EvAllocPath true; EvAllocRsv true])
       (with_ticks (S (S (ticks s))) s)) = Some (p, s2) ->
  gc_work_fn fuel w s =
  Some (tt, with_trace (trace s2 ++ [EvFreeRsv; EvFreePath;
                                     EvClearBit (work_root w); EvKfree])
              (with_gc_running
                 (upd (gc_running s2) (root_key (work_root w)) false) s2)).
Proof.
  intros Ha Hb rsv Hl. unfold gc_work_fn.
  unfold btrfs_alloc_path, btrfs_alloc_block_rsv, tick, emit, modify.
  unfold bind at 1 2 3. cbn. rewrite Ha.
  unfold bind at 1 2 3. cbn. rewrite Hb. cbn.
  rewrite <- app_assoc. cbn. fold rsv.
  rewrite (bind_run _ _ _ _ _ Hl). run.
  repeat rewrite <- app_assoc. reflexivity.
Qed.

Lemma gc_work_loop_not_closing fuel r path rsv s :
  closing s = false -> gc_work_loop fuel r path rsv s = Some (path, s).
Proof.
  intros Hc. destruct fuel; cbn; unfold btrfs_fs_closing, gets, bind;
    rewrite Hc; reflexivity.
Qed.

(** *** The dispatcher *)

Lemma queue_gc_root_busy i s :
  gc_running s (gc_root_key i) = true ->
  queue_gc_root i s =
  Some (tt, with_trace (trace s ++ [EvTestAndSetBit (btrfs_global_root (gc_root_key i)) true])
              (with_gc_running (upd (gc_running s) (gc_root_key i) true) s)).
Proof.
  intros Hr. unfold queue_gc_root. run.
  fold (gc_root_key i). rewrite Hr. reflexivity.
Qed.

Lemma queue_gc_root_no_memory i s :
  gc_running s (gc_root_key i) = false ->
  o_alloc env (ticks s) = false ->
  queue_gc_root i s =
  Some (tt, with_trace (trace s ++ [EvTestAndSetBit (btrfs_global_root (gc_root_key i)) false;
                                    EvKmalloc false;
                                    EvClearBit (btrfs_global_root (gc_root_key i))])
              (with_gc_running
                 (upd (upd (gc_running s) (gc_root_key i) true) (gc_root_key i) false)
                 (with_ticks (S (ticks s)) s))).
Proof.
  intros Hr Ha. unfold queue_gc_root. run.
  fold (gc_root_key i). rewrite Hr. cbn. rewrite Ha. cbn.
  repeat rewrite <- app_assoc. reflexivity.
Qed.

Lemma queue_gc_root_queued i s :
  gc_running s (gc_root_key i) = false ->
  o_alloc env (ticks s) = true ->
  let w := {| work_root := btrfs_global_root (gc_root_key i) |} in
  queue_gc_root i s =
  Some (tt, with_trace (trace s ++ [EvTestAndSetBit (btrfs_global_root (gc_root_key i)) false;
                                    EvKmalloc true; EvQueueWork w])
              (with_gc_workers (gc_workers s ++ [w])
                 (with_gc_running (upd (gc_running s) (gc_root_key i) true)
                    (with_ticks (S (ticks s)) s)))).
Proof.
  intros Hr Ha w. unfold queue_gc_root. run.
  fold (gc_root_key i). rewrite Hr. cbn. rewrite Ha. cbn.
  repeat rewrite <- app_assoc. reflexivity.
Qed.

(** *** The worker's loop, pass by pass *)

Lemma btrfs_first_item_found s r path k l :
  0 <= o_fault env (ticks s) ->
  items s (root_key r) = k :: l ->
  btrfs_first_item r path s =
  Some ((0, {| held := true; slot := Some k |}),
        with_trace (trace s ++ [EvFirstItem r 0]) (with_ticks (S (ticks s)) s)).
Proof.
  intros Hf Hi. unfold btrfs_first_item. run.
  assert (E : (o_fault env (ticks s) <? 0) = false) by (apply Z.ltb_ge; lia).
  rewrite E, Hi. reflexivity.
Qed.

Lemma gc_work_loop_closing s r path rsv fuel :
  closing s = true ->
  gc_work_loop fuel r path rsv s =
  (fp <- btrfs_first_item r path ;;
   let '(res, path) := fp in
   if negb (res =? 0) then ret path
   else match fuel with
        | O => out_of_fuel
        | S fuel' =>
            path <- gc_work_body fuel' r path rsv ;;
            gc_work_loop fuel' r path rsv
        end) s.
Proof.
  intros Hc. destruct fuel; cbn [gc_work_loop];
    unfold btrfs_fs_closing, gets; unfold bind at 1; rewrite Hc; reflexivity.
Qed.

Lemma gc_work_loop_enters s r path rsv k l fuel :
  closing s = true ->
  0 <= o_fault env (ticks s) ->
  items s (root_key r) = k :: l ->
  gc_work_loop (S fuel) r path rsv s =
  (path <- gc_work_body fuel r {| held := true; slot := Some k |} rsv ;;
   gc_work_loop fuel r path rsv)
    (with_trace (trace s ++ [EvFirstItem r 0]) (with_ticks (S (ticks s)) s)).
Proof.
  intros Hc Hf Hi. rewrite (gc_work_loop_closing s r path rsv (S fuel) Hc).
  rewrite (bind_run _ _ _ _ _ (btrfs_first_item_found s r path k l Hf Hi)).
  reflexivity.
Qed.

Lemma gc_work_loop_no_fuel s r path rsv k l :
  closing s = true ->
  0 <= o_fault env (ticks s) ->
  items s (root_key r) = k :: l ->
  gc_work_loop O r path rsv s = None.
Proof.
  intros Hc Hf Hi. rewrite (gc_work_loop_closing s r path rsv O Hc).
  rewrite (bind_run _ _ _ _ _ (btrfs_first_item_found s r path k l Hf Hi)).
  reflexivity.
Qed.

(** A pass whose item fails: the body of the loop returns with the flags
    and the items as they were, and without a call of btrfs_del_item. *)
Lemma gc_work_body_failure s r rsv k fuel :
  (type k <> BTRFS_GC_INODE_ITEM_KEY
   \/ forall f s0, exists res s1,
        gc_inode f rsv k s0 = Some (res, s1) /\ res <> 0) ->
  exists s2,
    gc_work_body fuel r {| held := true; slot := Some k |} rsv s
      = Some (empty_path, s2)
    /\ closing s2 = closing s
    /\ items s2 = items s.
Proof.
  intros [Hk|Hfail].
  - rewrite (gc_work_body_unknown s fuel r {| held := true; slot := Some k |} rsv k eq_refl Hk).
    eexists. split; [reflexivity|]. split; reflexivity.
  - destruct (Z.eq_dec (type k) BTRFS_GC_INODE_ITEM_KEY) as [Hk|Hk].
    + rewrite (gc_work_body_inode s fuel r {| held := true; slot := Some k |} rsv k eq_refl Hk).
      destruct (Hfail fuel (with_trace (trace s ++ [EvReleasePath]) s))
        as (res & s1 & Hrun & Hres).
      rewrite (bind_run _ _ _ _ _ Hrun).
      apply Z.eqb_neq in Hres. rewrite Hres.
      destruct (gc_inode_quiet _ _ _ _ _ _ Hrun) as ((_ & _ & Hc & _) & Hi & _).
      exists s1. split; [reflexivity|]. split; [exact Hc|exact Hi].
    + rewrite (gc_work_body_unknown s fuel r {| held := true; slot := Some k |} rsv k eq_refl Hk).
      eexists. split; [reflexivity|]. split; reflexivity.
Qed.

(** *** The roots the dispatcher visits *)

Lemma btrfs_queue_gc_work_loops s :
  extent_tree_v2 s = true -> closing s = false ->
  btrfs_queue_gc_work s =
  queue_gc_loop (Z.to_nat (int_of_u64 (nr_global_roots s))) 0 s.
Proof.
  intros Hv Hc. unfold btrfs_queue_gc_work.
  unfold btrfs_fs_incompat_EXTENT_TREE_V2, btrfs_fs_closing, gets, bind.
  cbv beta iota. rewrite Hv. cbv beta iota. cbn [negb]. rewrite Hc. reflexivity.
Qed.

Lemma tested_roots_app a b : tested_roots (a ++ b) = tested_roots a ++ tested_roots b.
Proof.
  induction a as [|e a IH]; cbn; [reflexivity|].
  destruct e; cbn; rewrite IH; reflexivity.
Qed.

Lemma queue_gc_root_tested i s :
  exists s' ev,
    queue_gc_root i s = Some (tt, s')
    /\ trace s' = trace s ++ ev
    /\ tested_roots ev = [btrfs_global_root (gc_root_key i)].
Proof.
  destruct (gc_running s (gc_root_key i)) eqn:Hr.
  - rewrite (queue_gc_root_busy i s Hr). do 2 eexists.
    split; [reflexivity|]. split; reflexivity.
  - destruct (o_alloc env (ticks s)) eqn:Ha.
    + rewrite (queue_gc_root_queued i s Hr Ha). do 2 eexists.
      split; [reflexivity|]. split; reflexivity.
    + rewrite (queue_gc_root_no_memory i s Hr Ha). do 2 eexists.
      split; [reflexivity|]. split; reflexivity.
Qed.

Lemma queue_gc_loop_tested n : forall i s,
  exists s' ev,
    queue_gc_loop n i s = Some (tt, s')
    /\ trace s' = trace s ++ ev
    /\ tested_roots ev =
       map (fun j => btrfs_global_root (gc_root_key (i + Z.of_nat j))) (seq 0 n).
Proof.
  induction n as [|n IH]; intros i s.
  - exists s, []. cbn. rewrite app_nil_r. repeat split.
  - destruct (queue_gc_root_tested i s) as (s1 & ev1 & H1 & T1 & R1).
    destruct (IH (i + 1) s1) as (s2 & ev2 & H2 & T2 & R2).
    exists s2, (ev1 ++ ev2). split; [|split].
    + cbn [queue_gc_loop]. rewrite (bind_run _ _ _ _ _ H1). exact H2.
    + rewrite T2, T1. now rewrite app_assoc.
    + rewrite tested_roots_app, R1, R2. cbn [seq map app].
      rewrite Z.add_0_r. f_equal.
      rewrite <- seq_shift, map_map. apply map_ext. intros j.
      do 2 f_equal. lia.
Qed.

Lemma int_of_u64_small x : 0 <= x <= INT_MAX -> int_of_u64 x = x.
Proof.
  unfold INT_MAX, int_of_u64. intros H.
  rewrite Z.mod_small by lia.
  assert (E : (x <? 2 ^ 31) = true) by (apply Z.ltb_lt; lia).
  now rewrite E.
Qed.

Lemma nth_error_map_seq {A : Type} (f : nat -> A) n j :
  (j < n)%nat -> nth_error (map f (seq 0 n)) j = Some (f j).
Proof.
  intros H. rewrite nth_error_map, nth_error_seq.
  assert (E : (j <? n)%nat = true) by (apply Nat.ltb_lt; exact H).
  rewrite E. reflexivity.
Qed.

Lemma items_mem_insert k l : items_mem k (items_insert k l) = true.
Proof.
  unfold items_mem. induction l as [|x l IH]; cbn.
  - now rewrite key_eqb_refl.
  - destruct (key_ltb k x); cbn.
    + now rewrite key_eqb_refl.
    + rewrite IH. apply orb_true_r.
Qed.

(** *** Interleavings *)

Lemma holders_app k ds1 pc ds2 :
  holders k (ds1 ++ pc :: ds2) =
  (holders k ds1 + (if holds_bit k pc then 1 else 0) + holders k ds2)%nat.
Proof.
  unfold holders. rewrite filter_app, length_app. cbn.
  destruct (holds_bit k pc); cbn; lia.
Qed.

Lemma holders_drop k ds1 ds2 :
  holders k (ds1 ++ ds2) = (holders k ds1 + holders k ds2)%nat.
Proof. unfold holders. now rewrite filter_app, length_app. Qed.

Lemma works_on_app k q1 w q2 :
  works_on k (q1 ++ w :: q2) =
  (works_on k q1 + (if key_eqb (root_key (work_root w)) k then 1 else 0)
   + works_on k q2)%nat.
Proof.
  unfold works_on. rewrite filter_app, length_app. cbn.
  destruct (key_eqb (root_key (work_root w)) k); cbn; lia.
Qed.

Lemma works_on_cons k w q :
  works_on k (w :: q) =
  ((if key_eqb (root_key (work_root w)) k then 1 else 0) + works_on k q)%nat.
Proof.
  unfold works_on. cbn. destruct (key_eqb (root_key (work_root w)) k); reflexivity.
Qed.

Lemma works_on_drop k q1 q2 :
  works_on k (q1 ++ q2) = (works_on k q1 + works_on k q2)%nat.
Proof. unfold works_on. now rewrite filter_app, length_app. Qed.

Lemma test_and_set_bit_inv r s old s' :
  test_and_set_bit r s = Some (old, s') ->
  old = gc_running s (root_key r)
  /\ gc_running s' = upd (gc_running s) (root_key r) true
  /\ gc_workers s' = gc_workers s.
Proof. unfold test_and_set_bit. run. intros H. inversion H; subst. now cbn. Qed.

Lemma clear_bit_inv r s s' :
  clear_bit r s = Some (tt, s') ->
  gc_running s' = upd (gc_running s) (root_key r) false
  /\ gc_workers s' = gc_workers s.
Proof. unfold clear_bit. run. intros H. inversion H; subst. now cbn. Qed.

Lemma kmalloc_inv s ok s' :
  kmalloc s = Some (ok, s') ->
  ok = o_alloc env (ticks s)
  /\ gc_running s' = gc_running s /\ gc_workers s' = gc_workers s.
Proof. unfold kmalloc. run. intros H. inversion H; subst. now cbn. Qed.

Lemma btrfs_queue_work_inv w s s' :
  btrfs_queue_work w s = Some (tt, s') ->
  gc_running s' = gc_running s /\ gc_workers s' = gc_workers s ++ [w].
Proof. unfold btrfs_queue_work. run. intros H. inversion H; subst. now cbn. Qed.

Lemma gc_work_fn_inv fuel w s s' :
  gc_work_fn fuel w s = Some (tt, s') ->
  gc_running s' = upd (gc_running s) (root_key (work_root w)) false
  /\ gc_workers s' = gc_workers s.
Proof.
  intros H. apply gc_work_fn_exit in H.
  destruct H as (s1 & (Hr & Hq & _) & ->). cbn. now rewrite Hr, Hq.
Qed.

Lemma upd_false_elim (f : btrfs_key -> bool) k k' :
  upd f k true k' = false -> k <> k' /\ f k' = false.
Proof.
  unfold upd. destruct (key_eqb k k') eqn:E; [discriminate|].
  intros H. split; [now apply key_eqb_neq|exact H].
Qed.


Lemma one_owner_step a b : step a b -> one_owner a -> one_owner b.
Proof.
  intros Hstep Hinv. unfold one_owner in *.
  destruct Hstep as
    [ s ds ws Hv Hc
    | s s' ds1 ds2 ws i n Ht
    | s s' ds1 ds2 ws i n Ht
    | s ds1 ds2 ws i
    | s s' ds1 ds2 ws i n Hm
    | s s' ds1 ds2 ws i n Hm
    | s s' ds1 ds2 ws i n Hcl
    | s s' ds1 ds2 ws i n Hq
    | s ds ws q1 q2 w Hq
    | s s' ds ws1 ws2 w fuel Hw
    | s s' ds ws Hr Hq ];
    intros k; specialize (Hinv k); unfold active_workers in *;
    cbn [fs dispatchers running] in *.
  - (* a new call *)
    unfold holders in *. cbn. exact Hinv.
  - (* the bit was clear *)
    apply test_and_set_bit_inv in Ht. destruct Ht as (Hold & Hr & Hq).
    cbn [root_key btrfs_global_root] in *.
    rewrite Hr, Hq. rewrite holders_app in *. cbn [holds_bit] in *.
    destruct (key_eqb (gc_root_key i) k) eqn:E.
    + apply key_eqb_eq in E. subst k. rewrite upd_same.
      destruct Hinv as [_ H0]. specialize (H0 (eq_sym Hold)).
      split; [lia|discriminate].
    + unfold upd. rewrite E. exact Hinv.
  - (* the bit was set *)
    apply test_and_set_bit_inv in Ht. destruct Ht as (Hold & Hr & Hq).
    cbn [root_key btrfs_global_root] in *.
    rewrite Hr, Hq. rewrite holders_app in *. cbn [holds_bit] in *.
    destruct Hinv as [H1 H0]. split; [exact H1|].
    intros Hf. apply upd_false_elim in Hf. apply H0. tauto.
  - (* the loop is over *)
    rewrite holders_app in Hinv. rewrite holders_drop. cbn in Hinv.
    replace (holders k ds1 + holders k ds2)%nat
      with (holders k ds1 + 0 + holders k ds2)%nat by lia. exact Hinv.
  - apply kmalloc_inv in Hm. destruct Hm as (_ & Hr & Hq).
    rewrite Hr, Hq. rewrite holders_app in *. exact Hinv.
  - apply kmalloc_inv in Hm. destruct Hm as (_ & Hr & Hq).
    rewrite Hr, Hq. rewrite holders_app in *. exact Hinv.
  - (* clear_bit of the dispatcher *)
    apply clear_bit_inv in Hcl. destruct Hcl as (Hr & Hq).
    cbn [root_key btrfs_global_root] in *.
    rewrite Hr, Hq. rewrite holders_app in *. cbn [holds_bit] in *.
    destruct (key_eqb (gc_root_key i) k) eqn:E.
    + apply key_eqb_eq in E. subst k. rewrite upd_same.
      destruct Hinv as [H1 _]. split; [lia|]. intros _. lia.
    + unfold upd. rewrite E. exact Hinv.
  - (* the worker is queued *)
    apply btrfs_queue_work_inv in Hq. destruct Hq as (Hr & Hq).
    cbn [root_key work_root btrfs_global_root] in *.
    rewrite Hr, Hq. rewrite holders_app in *. cbn [holds_bit] in *.
    rewrite works_on_drop, works_on_cons. cbn [work_root btrfs_global_root root_key].
    change (works_on k []) with 0%nat.
    destruct (key_eqb (gc_root_key i) k) eqn:E.
    + destruct Hinv as [H1 H0]. split; [lia|]. intros Hf. specialize (H0 Hf). lia.
    + destruct Hinv as [H1 H0]. split; [lia|]. intros Hf. specialize (H0 Hf). lia.
  - (* a worker is taken from the queue *)
    rewrite Hq in Hinv. rewrite works_on_app in Hinv.
    unfold with_gc_workers. cbn [gc_workers gc_running]. rewrite works_on_drop.
    rewrite works_on_cons.
    destruct (key_eqb (root_key (work_root w)) k).
    + destruct Hinv as [H1 H0]. split; [lia|]. intros Hf. specialize (H0 Hf). lia.
    + destruct Hinv as [H1 H0]. split; [lia|]. intros Hf. specialize (H0 Hf). lia.
  - (* a worker returns *)
    apply gc_work_fn_inv in Hw. destruct Hw as (Hr & Hq).
    rewrite Hr, Hq. rewrite works_on_app in Hinv. rewrite works_on_drop.
    destruct (key_eqb (root_key (work_root w)) k) eqn:E.
    + apply key_eqb_eq in E. subst k. rewrite upd_same.
      destruct Hinv as [H1 _]. split; [lia|]. intros _. lia.
    + unfold upd. rewrite E.
      destruct Hinv as [H1 H0]. split; [lia|]. intros Hf. specialize (H0 Hf). lia.
  - rewrite Hr, Hq. exact Hinv.
Qed.

Lemma one_owner_reachable init y :
  one_owner init -> reachable init y -> one_owner y.
Proof.
  intros Hinit Hreach. induction Hreach as [|a b Hab IH Hstep]; [exact Hinit|].
  exact (one_owner_step a b Hstep IH).
Qed.

(** The only step that adds an active worker of a root is the queueing
    by a dispatcher that stands at btrfs_queue_work for that root. *)
Lemma active_workers_grow a b k :
  step a b ->
  (active_workers k a < active_workers k b)%nat ->
  exists i n, In (AtQueueWork i n) (dispatchers a) /\ gc_root_key i = k.
Proof.
  intros Hstep.
  destruct Hstep as
    [ s ds ws Hv Hc
    | s s' ds1 ds2 ws i n Ht
    | s s' ds1 ds2 ws i n Ht
    | s ds1 ds2 ws i
    | s s' ds1 ds2 ws i n Hm
    | s s' ds1 ds2 ws i n Hm
    | s s' ds1 ds2 ws i n Hcl
    | s s' ds1 ds2 ws i n Hq
    | s ds ws q1 q2 w Hq
    | s s' ds ws1 ws2 w fuel Hw
    | s s' ds ws Hr Hq ];
    unfold active_workers; cbn [fs dispatchers running]; intros Hlt.
  - lia.
  - apply test_and_set_bit_inv in Ht. destruct Ht as (_ & _ & Hq).
    rewrite Hq in Hlt. lia.
  - apply test_and_set_bit_inv in Ht. destruct Ht as (_ & _ & Hq).
    rewrite Hq in Hlt. lia.
  - lia.
  - apply kmalloc_inv in Hm. destruct Hm as (_ & _ & Hq). rewrite Hq in Hlt. lia.
  - apply kmalloc_inv in Hm. destruct Hm as (_ & _ & Hq). rewrite Hq in Hlt. lia.
  - apply clear_bit_inv in Hcl. destruct Hcl as (_ & Hq). rewrite Hq in Hlt. lia.
  - apply btrfs_queue_work_inv in Hq. destruct Hq as (_ & Hq).
    rewrite Hq, works_on_drop, works_on_cons in Hlt.
    cbn [work_root btrfs_global_root root_key] in Hlt.
    change (works_on k []) with 0%nat in Hlt.
    destruct (key_eqb (gc_root_key i) k) eqn:E; [|lia].
    apply key_eqb_eq in E. exists i, n. split; [|exact E].
    apply in_or_app. right. left. reflexivity.
  - rewrite Hq in Hlt. unfold with_gc_workers in Hlt. cbn [gc_workers] in Hlt.
    rewrite works_on_app, works_on_drop, works_on_cons in Hlt.
    destruct (key_eqb (root_key (work_root w)) k); lia.
  - apply gc_work_fn_inv in Hw. destruct Hw as (_ & Hq).
    rewrite Hq, works_on_app, works_on_drop in Hlt.
    destruct (key_eqb (root_key (work_root w)) k); lia.
  - rewrite Hq in Hlt. lia.
Qed.

(** A pass of the for loop of btrfs_queue_gc_work, run alone, is a
    sequence of steps of its dispatcher. *)
Lemma queue_gc_root_steps i n s s' ds1 ds2 ws :
  queue_gc_root i s = Some (tt, s') ->
  reachable (mk_system s (ds1 ++ AtLoop i (S n) :: ds2) ws)
            (mk_system s' (ds1 ++ AtLoop (i + 1) n :: ds2) ws).
Proof.
  unfold queue_gc_root. intros H.
  apply bind_inv in H. destruct H as (old & s1 & Ht & H).
  destruct old.
  - inversion H; subst. eapply reach_step; [apply reach_init|].
    now apply step_test_busy.
  - apply bind_inv in H. destruct H as (ok & s2 & Hm & H).
    destruct ok; cbn in H.
    + eapply reach_step; [eapply reach_step; [eapply reach_step;
        [apply reach_init|]|]|].
      * apply step_test_set. exact Ht.
      * apply step_kmalloc_ok. exact Hm.
      * apply step_queue. exact H.
    + eapply reach_step; [eapply reach_step; [eapply reach_step;
        [apply reach_init|]|]|].
      * apply step_test_set. exact Ht.
      * apply step_kmalloc_null. exact Hm.
      * apply step_clear. exact H.
Qed.

(** * The properties *)

(** C1: the GC root of an inode is the global root of the GC tree at index
    [btrfs_ino(inode) mod nr_global_roots], a function of the inode number
    alone once nr_global_roots is fixed (neither the subvolume of the inode
    nor the rest of the filesystem state count).  btrfs_add_inode_gc_item
    adds the item to that root, and a call of btrfs_queue_gc_work that
    goes through its loop visits the same root at that index. *)
Theorem inode_gc_root_routing s inode rsv :
  0 < nr_global_roots s <= INT_MAX ->
  let i := btrfs_ino inode mod nr_global_roots s in
  let r := inode_gc_root s inode in
  let key := {| objectid := objectid (root_key (root inode));
                type := BTRFS_GC_INODE_ITEM_KEY;
                offset := btrfs_ino inode |} in
  r = btrfs_global_root (gc_root_key i)
  /\ 0 <= i < nr_global_roots s
  /\ (forall s0 inode0,
        nr_global_roots s0 = nr_global_roots s ->
        btrfs_ino inode0 = btrfs_ino inode ->
        inode_gc_root s0 inode0 = r)
  /\ btrfs_add_inode_gc_item inode rsv s = add_gc_item r key rsv s
  /\ (forall b,
        o_alloc env (ticks s) = true ->
        o_join env (S (ticks s)) = JoinOk b ->
        0 <= o_fault env (S (S (ticks s))) ->
        items_mem key (items s (root_key r)) = false ->
        exists s',
          btrfs_add_inode_gc_item inode rsv s = Some (0, s')
          /\ items s' = upd (items s) (root_key r)
                            (items_insert key (items s (root_key r)))
          /\ items_mem key (items s' (root_key r)) = true)
  /\ (extent_tree_v2 s = true -> closing s = false ->
      exists s' ev,
        btrfs_queue_gc_work s = Some (tt, s')
        /\ trace s' = trace s ++ ev
        /\ nth_error (tested_roots ev) (Z.to_nat i) = Some r).
Proof.
  intros Hnr i r key.
  assert (Hi : 0 <= i < nr_global_roots s) by (apply Z.mod_pos_bound; lia).
  split; [reflexivity|]. split; [exact Hi|]. split; [|split; [|split]].
  - intros s0 inode0 E1 E2. unfold r, inode_gc_root. now rewrite E1, E2.
  - reflexivity.
  - intros b Ha Hj Hf Hk.
    change (btrfs_add_inode_gc_item inode rsv s) with (add_gc_item r key rsv s).
    destruct (add_gc_item_joined s r key rsv b Ha Hj)
      as (res & s' & Hrun & Htr & _ & _ & H0 & Hn0 & Hres).
    specialize (Hres Hf Hk). subst res. destruct (H0 eq_refl) as (_ & _ & Hit).
    exists s'. split; [exact Hrun|]. split; [exact Hit|].
    rewrite Hit, upd_same. apply items_mem_insert.
  - intros Hv Hc. rewrite (btrfs_queue_gc_work_loops s Hv Hc).
    rewrite (int_of_u64_small (nr_global_roots s)) by lia.
    destruct (queue_gc_loop_tested (Z.to_nat (nr_global_roots s)) 0 s)
      as (s' & ev & Hrun & Htr & Hroots).
    exists s', ev. split; [exact Hrun|]. split; [exact Htr|].
    rewrite Hroots, nth_error_map_seq by lia.
    cbn [Z.add]. rewrite Z2Nat.id by lia. reflexivity.
Qed.

(** A truncation error that is not transient is what gc_inode returns. *)
Lemma gc_inode_hard_error s fuel rsv key b :
  0 <= o_fs_root env (ticks s) ->
  o_join env (S (ticks s)) = JoinOk b ->
  retryable (o_truncate env (S (S (ticks s)))) = false ->
  exists s', gc_inode fuel rsv key s = Some (o_truncate env (S (S (ticks s))), s').
Proof.
  intros He Hj Hr. rewrite (gc_inode_root_found s fuel rsv key He).
  erewrite bind_run by (apply gc_inode_loop_stops; [exact Hj|exact Hr]).
  run. eexists. reflexivity.
Qed.

(** C2, where the code departs from it: the drain loop has no exit on a
    failed item.  When the filesystem is closing and the first item of the
    root fails (its kind is unknown, or gc_inode returns nonzero on it),
    the item is left in place, and the loop goes round again from a state
    in which the filesystem is still closing and the same item is still
    the first one; while the item keeps failing, the loop never returns. *)
Theorem gc_work_loop_retries_failing_item s r path rsv k l :
  closing s = true ->
  items s (root_key r) = k :: l ->
  (forall n, 0 <= o_fault env n) ->
  (type k <> BTRFS_GC_INODE_ITEM_KEY
   \/ forall f s0, exists res s1,
        gc_inode f rsv k s0 = Some (res, s1) /\ res <> 0) ->
  (forall fuel, exists s2,
      gc_work_loop (S fuel) r path rsv s = gc_work_loop fuel r empty_path rsv s2
      /\ closing s2 = true
      /\ items s2 (root_key r) = k :: l)
  /\ (forall fuel, gc_work_loop fuel r path rsv s = None).
Proof.
  intros Hc Hi Hf Hfail.
  assert (Hpass : forall s0 p fuel,
    closing s0 = true -> items s0 (root_key r) = k :: l ->
    exists s2,
      gc_work_loop (S fuel) r p rsv s0 = gc_work_loop fuel r empty_path rsv s2
      /\ closing s2 = true
      /\ items s2 (root_key r) = k :: l).
  { intros s0 p fuel Hc0 Hi0.
    rewrite (gc_work_loop_enters s0 r p rsv k l fuel Hc0 (Hf _) Hi0).
    match goal with |- context [bind _ _ ?s1] =>
      destruct (gc_work_body_failure s1 r rsv k fuel Hfail) as (s2 & Hb & Hc2 & Hi2)
    end.
    exists s2. rewrite (bind_run _ _ _ _ _ Hb).
    split; [reflexivity|]. cbn in Hc2, Hi2. split; [congruence|].
    now rewrite Hi2. }
  split.
  - intros fuel. apply Hpass; assumption.
  - intros fuel. revert s path Hc Hi.
    induction fuel as [|fuel IH]; intros s path Hc Hi.
    + apply (gc_work_loop_no_fuel s r path rsv k l Hc (Hf _) Hi).
    + destruct (Hpass s path fuel Hc Hi) as (s2 & -> & Hc2 & Hi2).
      now apply IH.
Qed.

(** C3, where the code departs from it: delete_gc_item never assigns
    [trans->block_rsv].  When it finds the key, btrfs_del_item and
    btrfs_end_transaction both see the handle with the budget [b] that
    btrfs_gc_rsv_refill_and_join handed out: the deletion is bound to the
    caller's reservation only if the handle already was, and then the
    handle is ended without its budget being put back. *)
Theorem delete_gc_item_does_not_bind_rsv s r path rsv key b :
  o_join env (ticks s) = JoinOk b ->
  0 <= o_fault env (S (ticks s)) ->
  0 <= o_fault env (S (S (ticks s))) ->
  items_mem key (items s (root_key r)) = true ->
  exists s' tdel tend,
    delete_gc_item r path rsv key s = Some (empty_path, s')
    /\ trace s' = trace s ++
         [EvJoin r rsv (Ptr {| transid := ticks s; block_rsv := b |});
          EvSearch {| transid := ticks s; block_rsv := b |} r key 0;
          EvDel tdel r (Some key); EvReleasePath; EvEnd tend]
    /\ block_rsv tdel = b
    /\ block_rsv tend = b
    /\ (rsv <> trans_block_rsv ->
        ~ (block_rsv tdel = rsv /\ block_rsv tend = trans_block_rsv)).
Proof.
  intros Hj Hf Hd Hk.
  rewrite (delete_gc_item_present s r path rsv key b Hj Hf Hd Hk).
  do 3 eexists. split; [reflexivity|]. cbn. repeat split.
  intros Hne [H1 H2]. congruence.
Qed.

(** The sibling paths do bind and restore: add_gc_item inserts with the
    caller's reservation and ends the handle with the default budget. *)
Lemma add_gc_item_binds_rsv s r key rsv b :
  o_alloc env (ticks s) = true ->
  o_join env (S (ticks s)) = JoinOk b ->
  exists res s' tins tend,
    add_gc_item r key rsv s = Some (res, s')
    /\ trace s' = trace s ++
         [EvAllocPath true;
          EvJoin r rsv (Ptr {| transid := S (ticks s); block_rsv := b |});
          EvInsert tins r key res; EvEnd tend; EvFreePath]
    /\ block_rsv tins = rsv
    /\ block_rsv tend = trans_block_rsv.
Proof.
  intros Ha Hj.
  destruct (add_gc_item_joined s r key rsv b Ha Hj) as (res & s' & Hrun & Htr & _).
  exists res, s'. do 2 eexists. split; [exact Hrun|]. split; [exact Htr|].
  split; reflexivity.
Qed.

(** C4: removing a GC item whose key is not in the root is a no-op for the
    caller.  delete_gc_item has no result to carry an error (it is void;
    the model returns only the path it was given, as it has become), and
    when the key is not among the items of the root it deletes nothing:
    the items of every root are as before and btrfs_del_item is not
    called, whatever the transaction manager and the search answer. *)
Theorem delete_gc_item_absent_is_noop s r path rsv key :
  items_mem key (items s (root_key r)) = false ->
  exists path' s' ev,
    delete_gc_item r path rsv key s = Some (path', s')
    /\ items s' = items s
    /\ trace s' = trace s ++ ev
    /\ (forall t r' k, ~ In (EvDel t r' k) ev).
Proof.
  intros Hk. destruct (o_join env (ticks s)) as [b|e] eqn:Hj.
  - destruct (Z_lt_ge_dec (o_fault env (S (ticks s))) 0) as [Hf|Hf].
    + rewrite (delete_gc_item_search_error _ _ _ _ _ _ Hj Hf).
      do 3 eexists. split; [reflexivity|]. cbn. repeat split.
      intros t r' k [H|[H|[]]]; discriminate.
    + rewrite (delete_gc_item_absent s r path rsv key b Hj ltac:(lia) Hk).
      do 3 eexists. split; [reflexivity|]. cbn. repeat split.
      intros t r' k [H|[H|[]]]; discriminate.
  - rewrite (delete_gc_item_join_fails _ _ _ _ _ _ Hj).
    do 3 eexists. split; [reflexivity|]. cbn. repeat split.
    intros t r' k [H|[]]; discriminate.
Qed.

(** C5: the loop of gc_inode retries exactly while truncation returns
    -ENOSPC or -EAGAIN.  When the subvolume is found and the truncation
    engine answers the transient codes of [l] and then [res], which is
    neither, gc_inode makes one pass per answer and returns [res]: every
    pass joins a handle of its own (numbered by the call that handed it
    out), truncates with the caller's reservation as the handle's budget,
    and ends the handle with the default budget; the pass that gets [res]
    is the last. *)
Theorem gc_inode_retries_while_transient s rsv key l b res fuel :
  0 <= o_fs_root env (ticks s) ->
  answers (S (ticks s)) (l ++ [(b, res)]) ->
  Forall (fun x => snd x = - ENOSPC \/ snd x = - EAGAIN) l ->
  res <> - ENOSPC -> res <> - EAGAIN ->
  (length l <= fuel)%nat ->
  let r := {| root_key := mk_key (objectid key) BTRFS_ROOT_ITEM_KEY (2 ^ 64 - 1) |} in
  exists s',
    gc_inode fuel rsv key s = Some (res, s')
    /\ trace s' = trace s ++ [EvGetFsRoot (objectid key) (Ptr r)]
                    ++ run_events r rsv key (S (ticks s)) (l ++ [(b, res)])
                    ++ [EvPutRoot r].
Proof.
  intros He Ha Hl Hr1 Hr2 Hfuel r.
  rewrite (gc_inode_root_found s fuel rsv key He). fold r.
  match goal with |- context [bind _ _ ?s1] => set (s1' := s1) end.
  destruct (gc_inode_loop_run l s1' r rsv key b res fuel) as (s2 & Hrun & Htr & _).
  - exact Ha.
  - eapply Forall_impl; [|exact Hl]. cbn. intros x Hx. now apply retryable_iff.
  - destruct (retryable res) eqn:E; [|reflexivity].
    apply retryable_iff in E. tauto.
  - exact Hfuel.
  - rewrite (bind_run _ _ _ _ _ Hrun). run.
    eexists. split; [reflexivity|]. cbn. rewrite Htr. cbn.
    repeat rewrite <- app_assoc. reflexivity.
Qed.

(** While every truncation is answered by a transient code, the loop does
    not end, whatever the fuel. *)
Lemma gc_inode_loop_spins_while_transient fuel : forall s r rsv key,
  (forall n, exists b, o_join env n = JoinOk b) ->
  (forall n, retryable (o_truncate env n) = true) ->
  gc_inode_loop fuel r rsv key s = None.
Proof.
  induction fuel as [|fuel IH]; intros s r rsv key Hj Ht.
  - destruct (Hj (ticks s)) as [b Hb]. cbn. unfold bind at 1.
    rewrite (gc_inode_pass_joined _ _ _ _ _ Hb). cbn. now rewrite Ht.
  - destruct (Hj (ticks s)) as [b Hb].
    rewrite (gc_inode_loop_retries _ _ _ _ _ _ Hb (Ht _)). now apply IH.
Qed.

(** C6: when the subvolume of the item cannot be resolved, gc_inode does no
    truncation.  For -ENOENT it returns 0 without a log message, and the
    body of the worker's loop goes on to delete_gc_item, which removes the
    item when its transaction and search succeed.  For any other error it
    logs the error and returns it, and the body of the loop ends there:
    the items are as before. *)
Theorem gc_inode_root_lookup_failure s r path rsv key fuel e :
  o_fs_root env (ticks s) = e ->
  is_errno e ->
  slot path = Some key ->
  type key = BTRFS_GC_INODE_ITEM_KEY ->
  let log := if e =? - ENOENT then [] else [EvErr (objectid key) e] in
  let s1 := with_trace (trace s ++ EvGetFsRoot (objectid key) (ErrPtr e) :: log)
              (with_ticks (S (ticks s)) s) in
  let s2 := with_trace (trace s ++ EvReleasePath
                          :: EvGetFsRoot (objectid key) (ErrPtr e) :: log)
              (with_ticks (S (ticks s)) s) in
  gc_inode fuel rsv key s = Some (if e =? - ENOENT then 0 else e, s1)
  /\ (e = - ENOENT ->
      gc_work_body fuel r path rsv s = delete_gc_item r empty_path rsv key s2
      /\ forall b,
          o_join env (S (ticks s)) = JoinOk b ->
          0 <= o_fault env (S (S (ticks s))) ->
          0 <= o_fault env (S (S (S (ticks s)))) ->
          items_mem key (items s (root_key r)) = true ->
          exists path' s',
            gc_work_body fuel r path rsv s = Some (path', s')
            /\ items_mem key (items s' (root_key r)) = false)
  /\ (e <> - ENOENT ->
      gc_work_body fuel r path rsv s = Some (empty_path, s2)
      /\ items s2 = items s).
Proof.
  intros He [Hlo Hneg] Hs Ht log s1 s2. subst log s1 s2.
  destruct (Z.eqb_spec e (- ENOENT)) as [E|E].
  - rewrite E in He. rewrite E. clear E Hlo Hneg e. cbn [Z.eqb Z.opp ENOENT Pos.eqb].
    split; [|split].
    + now rewrite (gc_inode_root_gone s fuel rsv key He).
    + intros _.
      rewrite (gc_work_body_inode s fuel r path rsv key Hs Ht).
      assert (Hbody :
        (res <- gc_inode fuel rsv key;;
         (if res =? 0 then delete_gc_item r empty_path rsv key else ret empty_path))
          (with_trace (trace s ++ [EvReleasePath]) s)
        = delete_gc_item r empty_path rsv key
            (with_trace (trace s ++ [EvReleasePath;
                           EvGetFsRoot (objectid key) (ErrPtr (- ENOENT))])
               (with_ticks (S (ticks s)) s))).
      { erewrite bind_run by (apply gc_inode_root_gone; exact He).
        cbn. rewrite <- app_assoc. reflexivity. }
      split; [exact Hbody|].
      intros b Hj Hf Hd Hk. rewrite Hbody.
      erewrite delete_gc_item_present by (cbn; eassumption).
      do 2 eexists. split; [reflexivity|]. cbn.
      rewrite upd_same. apply items_remove_not_mem.
    + intros Hne. now contradiction Hne.
  - split; [|split].
    + now rewrite (gc_inode_root_error s fuel rsv key e He Hneg E).
    + intros Habs. contradiction.
    + intros _. split; [|reflexivity].
      rewrite (gc_work_body_inode s fuel r path rsv key Hs Ht).
      erewrite bind_run
        by (apply (gc_inode_root_error _ fuel rsv key e); [exact He|exact Hneg|exact E]).
      assert (E0 : (e =? 0) = false) by (apply Z.eqb_neq; lia).
      rewrite E0. cbn. rewrite <- app_assoc. reflexivity.
Qed.

(** C7: every finished run of gc_work_fn clears the running bit of its root
    as its last step but kfree, on the paths where the path or the
    reservation cannot be allocated (which finish, with no item read) and on
    every path through the drain loop; and the dispatcher, when kmalloc
    returns NULL, clears the bit it has just set and queues nothing. *)
Theorem gc_work_fn_clears_running_bit fuel w s :
  let r := work_root w in
  (forall s',
      gc_work_fn fuel w s = Some (tt, s') ->
      gc_running s' (root_key r) = false
      /\ exists ev, trace s' = ev ++ [EvClearBit r; EvKfree])
  /\ (o_alloc env (ticks s) = false ->
      exists s',
        gc_work_fn fuel w s = Some (tt, s')
        /\ gc_running s' (root_key r) = false
        /\ items s' = items s
        /\ trace s' = trace s ++ [EvAllocPath false; EvClearBit r; EvKfree])
  /\ (o_alloc env (ticks s) = true -> o_alloc env (S (ticks s)) = false ->
      exists s',
        gc_work_fn fuel w s = Some (tt, s')
        /\ gc_running s' (root_key r) = false
        /\ items s' = items s
        /\ trace s' = trace s ++ [EvAllocPath true; EvAllocRsv false; EvFreePath;
                                  EvClearBit r; EvKfree])
  /\ (forall p s2,
      o_alloc env (ticks s) = true -> o_alloc env (S (ticks s)) = true ->
      gc_work_loop fuel r empty_path
        (rsv_of {| rsv_id := S (ticks s); size := metadata_size_1; failfast := true |})
        (with_trace (trace s ++ [EvAllocPath true; EvAllocRsv true])
           (with_ticks (S (S (ticks s))) s)) = Some (p, s2) ->
      exists s',
        gc_work_fn fuel w s = Some (tt, s')
        /\ gc_running s' (root_key r) = false
        /\ trace s' = trace s2 ++ [EvFreeRsv; EvFreePath; EvClearBit r; EvKfree])
  /\ (forall i,
      gc_running s (gc_root_key i) = false ->
      o_alloc env (ticks s) = false ->
      exists s',
        queue_gc_root i s = Some (tt, s')
        /\ gc_running s' (gc_root_key i) = false
        /\ gc_workers s' = gc_workers s
        /\ trace s' = trace s ++
             [EvTestAndSetBit (btrfs_global_root (gc_root_key i)) false;
              EvKmalloc false;
              EvClearBit (btrfs_global_root (gc_root_key i))]).
Proof.
  intros r. split; [|split; [|split; [|split]]].
  - intros s' H. apply gc_work_fn_exit in H. destruct H as (s1 & _ & ->).
    cbn. split; [apply upd_same|]. now exists (trace s1).
  - intros Ha. rewrite (gc_work_fn_no_path fuel w s Ha).
    eexists. split; [reflexivity|]. cbn. split; [apply upd_same|]. now split.
  - intros Ha Hb. rewrite (gc_work_fn_no_rsv fuel w s Ha Hb).
    eexists. split; [reflexivity|]. cbn. split; [apply upd_same|]. now split.
  - intros p s2 Ha Hb Hl. rewrite (gc_work_fn_drained fuel w s p s2 Ha Hb Hl).
    eexists. split; [reflexivity|]. cbn. split; [apply upd_same|reflexivity].
  - intros i Hr Ha. rewrite (queue_gc_root_no_memory i s Hr Ha).
    eexists. split; [reflexivity|]. cbn. split; [apply upd_same|]. now split.
Qed.

(** C8: for every GC root at most one worker is active (queued or running)
    at any time, in every interleaving of calls of btrfs_queue_gc_work,
    workers and other activity that starts with no call under way and
    no worker.  A dispatcher that has set the bit of a root (its
    test_and_set_bit returned 0) and has not yet queued the worker or
    cleared the bit is the only one to stand there for that root, the bit
    is set, and the root has no active worker.  A step adds an active
    worker of a root only as the queueing by such a dispatcher, and then
    the root had none: the previous worker has cleared the bit and
    returned. *)
Theorem at_most_one_worker_per_root init y k :
  dispatchers init = [] ->
  running init = [] ->
  gc_workers (fs init) = [] ->
  reachable init y ->
  (active_workers k y <= 1)%nat
  /\ (active_workers k y = 1%nat -> gc_running (fs y) k = true)
  /\ (forall pc, In pc (dispatchers y) -> holds_bit k pc = true ->
      gc_running (fs y) k = true
      /\ active_workers k y = 0%nat
      /\ holders k (dispatchers y) = 1%nat)
  /\ (forall y', step y y' ->
      (active_workers k y < active_workers k y')%nat ->
      active_workers k y = 0%nat
      /\ gc_running (fs y) k = true
      /\ exists i n, In (AtQueueWork i n) (dispatchers y) /\ gc_root_key i = k).
Proof.
  intros Hd Hr Hq Hreach.
  assert (Hinit : one_owner init).
  { intros k0. unfold active_workers. rewrite Hd, Hr, Hq. cbn. split; auto. }
  pose proof (one_owner_reachable init y Hinit Hreach k) as [H1 H0].
  assert (Hholder : forall pc, In pc (dispatchers y) -> holds_bit k pc = true ->
            gc_running (fs y) k = true
            /\ active_workers k y = 0%nat
            /\ holders k (dispatchers y) = 1%nat).
  { intros pc Hin Hpc.
    apply in_split in Hin. destruct Hin as (ds1 & ds2 & Hds).
    rewrite Hds in *. rewrite holders_app in *. rewrite Hpc in *.
    split; [|lia].
    destruct (gc_running (fs y) k) eqn:E; [reflexivity|].
    specialize (H0 eq_refl). lia. }
  split; [lia|]. split; [|split].
  - intros Ha. destruct (gc_running (fs y) k) eqn:E; [reflexivity|].
    specialize (H0 eq_refl). lia.
  - exact Hholder.
  - intros y' Hstep Hlt.
    destruct (active_workers_grow y y' k Hstep Hlt) as (i & n & Hin & Hk).
    destruct (Hholder (AtQueueWork i n) Hin) as (Hbit & Hact & _).
    + cbn. rewrite Hk. apply key_eqb_refl.
    + split; [exact Hact|]. split; [exact Hbit|]. now exists i, n.
Qed.

(** The dispatcher does nothing on a filesystem that is closing. *)
Lemma btrfs_queue_gc_work_closing s :
  closing s = true -> btrfs_queue_gc_work s = Some (tt, s).
Proof.
  intros Hc. unfold btrfs_queue_gc_work. unfold_prims.
  destruct (extent_tree_v2 s); cbn; [|reflexivity].
  now rewrite Hc.
Qed.

(** A worker that runs on a filesystem that is not closing reads no item. *)
Lemma gc_work_fn_not_closing fuel w s :
  closing s = false ->
  exists s' ev,
    gc_work_fn fuel w s = Some (tt, s')
    /\ trace s' = trace s ++ ev
    /\ forallb (fun e => negb (item_event e)) ev = true
    /\ items s' = items s
    /\ open_trans s' = open_trans s.
Proof.
  intros Hc. destruct (o_alloc env (ticks s)) eqn:Ha.
  - destruct (o_alloc env (S (ticks s))) eqn:Hb.
    + erewrite gc_work_fn_drained; [| exact Ha | exact Hb |].
      2:{ apply gc_work_loop_not_closing. exact Hc. }
      do 2 eexists. split; [reflexivity|]. cbn.
      rewrite <- app_assoc. cbn. repeat split.
    + rewrite (gc_work_fn_no_rsv fuel w s Ha Hb).
      do 2 eexists. split; [reflexivity|]. cbn. repeat split.
  - rewrite (gc_work_fn_no_path fuel w s Ha).
    do 2 eexists. split; [reflexivity|]. cbn. repeat split.
Qed.

(** C9: while the closing state of the filesystem stays what it was at
    dispatch, a worker queued by btrfs_queue_gc_work processes no item.
    The call queues work only when the filesystem is not closing, and the
    worker's loop runs only while it is: the worker returns, whatever its
    fuel, having read no item, joined no transaction, and with the items
    of every root as they were. *)
Theorem queued_worker_processes_nothing s s' q w s1 fuel :
  btrfs_queue_gc_work s = Some (tt, s') ->
  gc_workers s' = gc_workers s ++ q ->
  In w q ->
  closing s1 = closing s ->
  closing s = false
  /\ exists s1' ev,
       gc_work_fn fuel w s1 = Some (tt, s1')
       /\ trace s1' = trace s1 ++ ev
       /\ forallb (fun e => negb (item_event e)) ev = true
       /\ items s1' = items s1
       /\ open_trans s1' = open_trans s1.
Proof.
  intros Hq Hw Hin Hc.
  assert (Hnc : closing s = false).
  { destruct (closing s) eqn:E; [|reflexivity].
    rewrite (btrfs_queue_gc_work_closing s E) in Hq. inversion Hq; subst s'.
    rewrite <- (app_nil_r (gc_workers s)) in Hw at 1.
    apply app_inv_head in Hw. subst q. contradiction. }
  split; [exact Hnc|].
  apply gc_work_fn_not_closing. congruence.
Qed.

(** C10: when delete_gc_item has joined a transaction and the search for
    the key returns nonzero (a search error, or 1 for a key that is not
    there), it returns after the search: the handle stays open
    (btrfs_end_transaction is not called) and the path is not released (a
    path left on a position by the search still holds it).  The other
    paths that open a transaction end it: delete_gc_item when the key is
    found, add_gc_item, and gc_inode whenever it returns. *)
Theorem delete_gc_item_search_failure_leaves_trans_open s r path rsv key b :
  trans_fresh s ->
  o_join env (ticks s) = JoinOk b ->
  (o_fault env (S (ticks s)) < 0
   \/ items_mem key (items s (root_key r)) = false) ->
  let t := {| transid := ticks s; block_rsv := b |} in
  (exists path' s' res,
      delete_gc_item r path rsv key s = Some (path', s')
      /\ res <> 0
      /\ trace s' = trace s ++ [EvJoin r rsv (Ptr t); EvSearch t r key res]
      /\ open_trans s' = ticks s :: open_trans s
      /\ (res > 0 -> held path' = true)
      /\ (res < 0 -> path' = path))
  /\ (forall s0 path0,
         trans_fresh s0 ->
         o_join env (ticks s0) = JoinOk b ->
         0 <= o_fault env (S (ticks s0)) ->
         0 <= o_fault env (S (S (ticks s0))) ->
         items_mem key (items s0 (root_key r)) = true ->
         exists s',
           delete_gc_item r path0 rsv key s0 = Some (empty_path, s')
           /\ open_trans s' = open_trans s0)
  /\ (forall s0,
         trans_fresh s0 ->
         exists res s',
           add_gc_item r key rsv s0 = Some (res, s')
           /\ open_trans s' = open_trans s0)
  /\ (forall s0 fuel res s',
         trans_fresh s0 ->
         gc_inode fuel rsv key s0 = Some (res, s') ->
         open_trans s' = open_trans s0).
Proof.
  intros Hfr Hj Hs t. split; [|split; [|split]].
  - destruct (Z_lt_ge_dec (o_fault env (S (ticks s))) 0) as [Hf|Hf].
    + rewrite (delete_gc_item_search_error _ _ _ _ _ _ Hj Hf).
      do 3 eexists. split; [reflexivity|]. cbn.
      repeat split; try reflexivity; lia.
    + destruct Hs as [Hs|Hk]; [lia|].
      rewrite (delete_gc_item_absent s r path rsv key b Hj ltac:(lia) Hk).
      exists {| held := true; slot := None |}. eexists. exists 1.
      split; [reflexivity|]. cbn. repeat split; try reflexivity; lia.
  - intros s0 path0 Hfr0 Hj0 Hf0 Hd0 Hk0.
    rewrite (delete_gc_item_present s0 r path0 rsv key b Hj0 Hf0 Hd0 Hk0).
    eexists. split; [reflexivity|]. cbn.
    pose proof (end_restores_open_trans _ Hfr0) as E. cbn in E. exact E.
  - intros s0 Hfr0. destruct (o_alloc env (ticks s0)) eqn:Ha.
    + destruct (o_join env (S (ticks s0))) as [b0|e] eqn:Hj0.
      * destruct (add_gc_item_joined s0 r key rsv b0 Ha Hj0)
          as (res & s' & Hrun & _ & Hop & _).
        exists res, s'. split; [exact Hrun|]. rewrite Hop.
        apply (end_removes_fresh _ (ticks s0)); [exact Hfr0|lia].
      * rewrite (add_gc_item_join_fails _ _ _ _ _ Ha Hj0).
        do 2 eexists. split; reflexivity.
    + rewrite (add_gc_item_no_path _ _ _ _ Ha).
      do 2 eexists. split; reflexivity.
  - intros s0 fuel res s' Hfr0 Hrun.
    destruct (gc_inode_quiet _ _ _ _ _ _ Hrun) as (_ & _ & _ & Hop).
    now apply Hop.
Qed.

(** * Further properties of the module *)

(** ** The item store *)

Lemma items_remove_insert k l :
  items_mem k l = false -> items_remove k (items_insert k l) = l.
Proof.
  unfold items_mem, items_remove. induction l as [|x l IH]; cbn; intros H.
  - now rewrite key_eqb_refl.
  - apply orb_false_iff in H. destruct H as [Hx Hl].
    destruct (key_ltb k x); cbn.
    + rewrite key_eqb_refl. cbn. rewrite Hx. cbn. f_equal.
      clear IH. induction l as [|y l IH]; cbn; [reflexivity|].
      cbn in Hl. apply orb_false_iff in Hl. destruct Hl as [Hy Hl].
      rewrite Hy. cbn. f_equal. now apply IH.
    + rewrite Hx. cbn. f_equal. now apply IH.
Qed.

Lemma items_mem_remove_other k k' l :
  k' <> k -> items_mem k' (items_remove k l) = items_mem k' l.
Proof.
  intros Hne. unfold items_mem, items_remove.
  induction l as [|x l IH]; cbn; [reflexivity|].
  destruct (key_eqb k x) eqn:E; cbn.
  - apply key_eqb_eq in E. subst x.
    assert (E' : key_eqb k' k = false) by (now apply key_eqb_neq).
    rewrite E'. cbn. exact IH.
  - now rewrite IH.
Qed.

Lemma upd_upd_same {A : Type} (f : btrfs_key -> A) k v v' k0 :
  upd (upd f k v) k v' k0 = upd f k v' k0.
Proof. unfold upd. now destruct (key_eqb k k0). Qed.

Lemma upd_id {A : Type} (f : btrfs_key -> A) k k0 : upd f k (f k) k0 = f k0.
Proof.
  unfold upd. destruct (key_eqb k k0) eqn:E; [|reflexivity].
  apply key_eqb_eq in E. now subst.
Qed.

Lemma upd_neq {A : Type} (f : btrfs_key -> A) k v k0 :
  k0 <> k -> upd f k v k0 = f k0.
Proof.
  intros H. unfold upd.
  assert (E : key_eqb k k0 = false) by (apply key_eqb_neq; congruence).
  now rewrite E.
Qed.



(** X3: add_gc_item always returns, on one of three paths.  Without a path
    it returns -ENOMEM and calls nothing else.  When the join fails it
    returns the join's error, having freed the path and inserted nothing.
    Otherwise it returns what btrfs_insert_empty_item returned, success or
    not, having ended the handle and freed the path. *)
Theorem add_gc_item_paths s r key rsv :
  exists res s' ev,
    add_gc_item r key rsv s = Some (res, s')
    /\ trace s' = trace s ++ ev
    /\ ((ev = [EvAllocPath false] /\ res = - ENOMEM
         /\ items s' = items s /\ open_trans s' = open_trans s)
        \/ (exists e,
              ev = [EvAllocPath true; EvJoin r rsv (ErrPtr e); EvFreePath]
              /\ res = e
              /\ items s' = items s /\ open_trans s' = open_trans s)
        \/ (exists t,
              ev = [EvAllocPath true; EvJoin r rsv (Ptr t);
                    EvInsert (set_block_rsv t rsv) r key res;
                    EvEnd (set_block_rsv t trans_block_rsv); EvFreePath])).
Proof.
  destruct (o_alloc env (ticks s)) eqn:Ha.
  - destruct (o_join env (S (ticks s))) as [b|e] eqn:Hj.
    + destruct (add_gc_item_joined s r key rsv b Ha Hj)
        as (res & s' & Hrun & Htr & _).
      exists res, s'. eexists. split; [exact Hrun|]. split; [exact Htr|].
      right. right. exists {| transid := S (ticks s); block_rsv := b |}.
      reflexivity.
    + rewrite (add_gc_item_join_fails s r key rsv e Ha Hj).
      do 3 eexists. split; [reflexivity|]. split; [reflexivity|].
      right. left. exists e. repeat split.
  - rewrite (add_gc_item_no_path s r key rsv Ha).
    do 3 eexists. split; [reflexivity|]. split; [reflexivity|].
    left. repeat split.
Qed.

(** X4: adding an item and then deleting it, when every collaborator
    succeeds and the key was not there, leaves the items of every root as
    they were and no handle open. *)
Theorem add_then_delete_restores s r key rsv path b1 b2 :
  trans_fresh s ->
  items_mem key (items s (root_key r)) = false ->
  o_alloc env (ticks s) = true ->
  o_join env (S (ticks s)) = JoinOk b1 ->
  0 <= o_fault env (S (S (ticks s))) ->
  o_join env (S (S (S (ticks s)))) = JoinOk b2 ->
  0 <= o_fault env (S (S (S (S (ticks s))))) ->
  0 <= o_fault env (S (S (S (S (S (ticks s)))))) ->
  exists s1 s2,
    add_gc_item r key rsv s = Some (0, s1)
    /\ delete_gc_item r path rsv key s1 = Some (empty_path, s2)
    /\ (forall k, items s2 k = items s k)
    /\ open_trans s2 = open_trans s.
Proof.
  intros Hfr Hk Ha Hj1 Hf1 Hj2 Hf2 Hf3.
  destruct (add_gc_item_joined s r key rsv b1 Ha Hj1)
    as (res & s1 & Hrun & _ & Hop & Htk & H0 & _ & Hres).
  specialize (Hres Hf1 Hk). subst res.
  destruct (H0 eq_refl) as (_ & _ & Hit).
  assert (Hop1 : open_trans s1 = open_trans s).
  { rewrite Hop. apply (end_removes_fresh _ (ticks s)); [exact Hfr|lia]. }
  assert (Hfr1 : trans_fresh s1).
  { apply (trans_fresh_later s s1); [lia|exact Hop1|exact Hfr]. }
  exists s1. eexists. split; [exact Hrun|].
  rewrite (delete_gc_item_present s1 r path rsv key b2).
  - split; [reflexivity|]. cbn. split.
    + intros k. rewrite Hit, upd_same, (items_remove_insert _ _ Hk).
      rewrite upd_upd_same. apply upd_id.
    + pose proof (end_restores_open_trans _ Hfr1) as E. cbn in E.
      rewrite E. exact Hop1.
  - rewrite Htk. exact Hj2.
  - rewrite Htk. exact Hf2.
  - rewrite Htk. exact Hf3.
  - rewrite Hit, upd_same. apply items_mem_insert.
Qed.

(** X5: a successful delete_gc_item removes its key from its root and
    nothing else: the other keys of the root and the items of the other
    roots are as before. *)
Theorem delete_gc_item_removes_only_key s r path rsv key b :
  o_join env (ticks s) = JoinOk b ->
  0 <= o_fault env (S (ticks s)) ->
  0 <= o_fault env (S (S (ticks s))) ->
  items_mem key (items s (root_key r)) = true ->
  exists s',
    delete_gc_item r path rsv key s = Some (empty_path, s')
    /\ items_mem key (items s' (root_key r)) = false
    /\ (forall k', k' <> key ->
        items_mem k' (items s' (root_key r)) = items_mem k' (items s (root_key r)))
    /\ (forall k0, k0 <> root_key r -> items s' k0 = items s k0).
Proof.
  intros Hj Hf Hd Hk.
  rewrite (delete_gc_item_present s r path rsv key b Hj Hf Hd Hk).
  eexists. split; [reflexivity|]. cbn. split; [|split].
  - rewrite upd_same. apply items_remove_not_mem.
  - intros k' Hne. rewrite upd_same. now apply items_mem_remove_other.
  - intros k0 Hne. now apply upd_neq.
Qed.

(** X6: delete_gc_item drops the result of btrfs_del_item.  When the
    deletion itself fails, the path is still released and the handle
    ended, exactly as after a deletion that worked, and the item is still
    in the root. *)
Theorem delete_gc_item_ignores_del_error s r path rsv key b :
  trans_fresh s ->
  o_join env (ticks s) = JoinOk b ->
  0 <= o_fault env (S (ticks s)) ->
  o_fault env (S (S (ticks s))) < 0 ->
  items_mem key (items s (root_key r)) = true ->
  let t := {| transid := ticks s; block_rsv := b |} in
  exists s',
    delete_gc_item r path rsv key s = Some (empty_path, s')
    /\ trace s' = trace s ++ [EvJoin r rsv (Ptr t); EvSearch t r key 0;
                              EvDel t r (Some key); EvReleasePath; EvEnd t]
    /\ items s' = items s
    /\ open_trans s' = open_trans s.
Proof.
  intros Hfr Hj Hf Hd Hk t. unfold delete_gc_item. run. rewrite Hj. cbn.
  assert (Hlt : (o_fault env (S (ticks s)) <? 0) = false) by (apply Z.ltb_ge; lia).
  assert (Hlt' : (o_fault env (S (S (ticks s))) <? 0) = true) by (apply Z.ltb_lt; lia).
  unfold items_mem in Hk. rewrite Hlt, Hk. cbn. rewrite Hlt'. cbn.
  eexists. split; [reflexivity|]. cbn. repeat rewrite <- app_assoc. cbn.
  split; [reflexivity|]. split; [reflexivity|].
  pose proof (end_restores_open_trans _ Hfr) as E. cbn in E. exact E.
Qed.


(** ** gc_inode *)

Lemma emits_only_refl P s : emits_only P s s.
Proof. exists []. split; [now rewrite app_nil_r|constructor]. Qed.

Lemma emits_only_trans P a b c :
  emits_only P a b -> emits_only P b c -> emits_only P a c.
Proof.
  intros (e1 & H1 & F1) (e2 & H2 & F2). exists (e1 ++ e2). split.
  - now rewrite H2, H1, app_assoc.
  - apply Forall_app. now split.
Qed.

Lemma emits_only_weaken (P Q : event -> Prop) s s' :
  (forall e, P e -> Q e) -> emits_only P s s' -> emits_only Q s s'.
Proof.
  intros HPQ (ev & H & F). exists ev. split; [exact H|].
  eapply Forall_impl; [|exact F]. exact HPQ.
Qed.

Lemma emits_bind P {A B : Type} (m : M A) (k : A -> M B) :
  preserves (emits_only P) m -> (forall a, preserves (emits_only P) (k a)) ->
  preserves (emits_only P) (bind m k).
Proof. apply preserves_bind. apply emits_only_trans. Qed.

Lemma emits_ret P {A : Type} (a : A) : preserves (emits_only P) (ret a).
Proof. apply preserves_ret. apply emits_only_refl. Qed.

Lemma pass_event_worker r rsv e : pass_event rsv e -> worker_event r rsv e.
Proof. destruct e; cbn; intros H; try exact H; try exact I; contradiction. Qed.

Lemma gc_inode_pass_emits r rsv key :
  preserves (emits_only (pass_event rsv)) (gc_inode_pass r rsv key).
Proof.
  intros s a s' H. destruct (o_join env (ticks s)) as [b|e] eqn:Hj.
  - rewrite (gc_inode_pass_joined _ _ _ _ _ Hj) in H. inversion H; subst.
    eexists. split; [reflexivity|]. unfold pass_events.
    repeat constructor.
  - rewrite (gc_inode_pass_join_fails _ _ _ _ _ Hj) in H. inversion H; subst.
    eexists. split; [reflexivity|]. repeat constructor.
Qed.

Lemma gc_inode_loop_emits fuel r rsv key :
  preserves (emits_only (pass_event rsv)) (gc_inode_loop fuel r rsv key).
Proof.
  induction fuel as [|fuel IH]; cbn.
  - apply emits_bind; [apply gc_inode_pass_emits|].
    intros [res broke]. destruct broke; [apply emits_ret|].
    destruct (retryable res); [apply preserves_out_of_fuel|apply emits_ret].
  - apply emits_bind; [apply gc_inode_pass_emits|].
    intros [res broke]. destruct broke; [apply emits_ret|].
    destruct (retryable res); [exact IH|apply emits_ret].
Qed.

Lemma gc_inode_loop_run_break l : forall s r rsv key e fuel,
  answers (ticks s) l ->
  Forall (fun x => retryable (snd x) = true) l ->
  o_join env (ticks s + 2 * length l) = JoinErr e ->
  (length l <= fuel)%nat ->
  exists s',
    gc_inode_loop fuel r rsv key s = Some (e, s')
    /\ trace s' = trace s ++ run_events r rsv key (ticks s) l
                    ++ [EvJoin r rsv (ErrPtr e)].
Proof.
  induction l as [|[b0 res0] l IH]; intros s r rsv key e fuel Ha Hl He Hfuel.
  - cbn in He. rewrite Nat.add_0_r in He.
    rewrite (gc_inode_loop_breaks _ _ _ _ _ _ He).
    eexists. split; reflexivity.
  - cbn in Ha. destruct Ha as (Hj & Ht & Ha). subst res0.
    inversion Hl as [|x l' Hr0 Hl']; subst. cbn in Hr0.
    destruct fuel as [|fuel]; [cbn in Hfuel; lia|].
    rewrite (gc_inode_loop_retries _ _ _ _ _ _ Hj Hr0).
    match goal with |- context [gc_inode_loop fuel r rsv key ?s1] =>
      destruct (IH s1 r rsv key e fuel) as (s' & Hrun & Htr)
    end; try assumption.
    + cbn. cbn in He. rewrite <- He. f_equal. lia.
    + cbn in Hfuel. lia.
    + exists s'. split; [exact Hrun|]. cbn in Htr. rewrite Htr. cbn.
      repeat rewrite <- app_assoc. reflexivity.
Qed.

(** X7: when joining a transaction fails in gc_inode, on the first pass or
    on a retry, the loop is left at once and gc_inode returns the error of
    the join, whatever it is: -ENOSPC and -EAGAIN are retried only when
    the truncation returns them.  The failed pass truncates nothing, and
    the root is put. *)
Theorem gc_inode_join_error_ends_loop s rsv key l e fuel :
  0 <= o_fs_root env (ticks s) ->
  answers (S (ticks s)) l ->
  Forall (fun x => snd x = - ENOSPC \/ snd x = - EAGAIN) l ->
  o_join env (S (ticks s) + 2 * length l) = JoinErr e ->
  (length l <= fuel)%nat ->
  let r := {| root_key := mk_key (objectid key) BTRFS_ROOT_ITEM_KEY (2 ^ 64 - 1) |} in
  exists s',
    gc_inode fuel rsv key s = Some (e, s')
    /\ trace s' = trace s ++ [EvGetFsRoot (objectid key) (Ptr r)]
                    ++ run_events r rsv key (S (ticks s)) l
                    ++ [EvJoin r rsv (ErrPtr e); EvPutRoot r].
Proof.
  intros Hroot Ha Hl He Hfuel r.
  rewrite (gc_inode_root_found s fuel rsv key Hroot). fold r.
  match goal with |- context [bind _ _ ?s1] => set (s1' := s1) end.
  destruct (gc_inode_loop_run_break l s1' r rsv key e fuel) as (s2 & Hrun & Htr).
  - exact Ha.
  - eapply Forall_impl; [|exact Hl]. cbn. intros x Hx. now apply retryable_iff.
  - exact He.
  - exact Hfuel.
  - rewrite (bind_run _ _ _ _ _ Hrun). run.
    eexists. split; [reflexivity|]. cbn. rewrite Htr. cbn.
    repeat rewrite <- app_assoc. reflexivity.
Qed.

(** X8: every finished run of gc_inode puts the root it got, once, as its
    last call, however its loop ended; between the resolution and the put
    there are only the passes of the loop.  When the resolution fails no
    root is put: the run ends after the resolution for -ENOENT (result 0),
    and after the log message for another error (which is the result). *)
Theorem gc_inode_puts_the_root_it_got fuel rsv key s res s' :
  gc_inode fuel rsv key s = Some (res, s') ->
  (exists r mid,
      trace s' = trace s ++ EvGetFsRoot (objectid key) (Ptr r) :: mid
                   ++ [EvPutRoot r]
      /\ Forall (pass_event rsv) mid)
  \/ (exists e,
      e < 0
      /\ ((e = - ENOENT /\ res = 0
           /\ trace s' = trace s ++ [EvGetFsRoot (objectid key) (ErrPtr e)])
          \/ (e <> - ENOENT /\ res = e
              /\ trace s' = trace s ++ [EvGetFsRoot (objectid key) (ErrPtr e);
                                        EvErr (objectid key) e]))).
Proof.
  intros H.
  destruct (Z_lt_ge_dec (o_fs_root env (ticks s)) 0) as [Hneg|Hpos].
  - right. exists (o_fs_root env (ticks s)). split; [exact Hneg|].
    destruct (Z.eq_dec (o_fs_root env (ticks s)) (- ENOENT)) as [E|E].
    + left. rewrite (gc_inode_root_gone s fuel rsv key E) in H.
      inversion H; subst. rewrite E. repeat split.
    + right. rewrite (gc_inode_root_error s fuel rsv key _ eq_refl Hneg E) in H.
      inversion H; subst. repeat split; auto.
  - left. rewrite (gc_inode_root_found s fuel rsv key ltac:(lia)) in H.
    apply bind_inv in H. destruct H as (res1 & s1 & Hloop & H).
    destruct (gc_inode_loop_emits _ _ _ _ _ _ _ Hloop) as (mid & Hmid & Fmid).
    unfold btrfs_put_root, emit, modify, bind, ret in H. inversion H; subst.
    do 2 eexists. split; [|exact Fmid]. cbn. rewrite Hmid. cbn.
    repeat rewrite <- app_assoc. reflexivity.
Qed.


(** ** The reclaim worker *)

Lemma delete_gc_item_emits r path rsv key :
  preserves (emits_only (worker_event r rsv)) (delete_gc_item r path rsv key).
Proof.
  unfold delete_gc_item. apply emits_bind; [emits_prim|].
  intros [t|e]; [|apply emits_ret].
  apply emits_bind; [emits_prim|].
  intros [res path']. cbn.
  match goal with
  | |- context [if ?c <? 0 then ret _ else _] => destruct (c <? 0)
  end; [apply emits_ret|].
  apply emits_bind; [emits_prim|]. intros _.
  apply emits_bind; [emits_prim|]. intros p.
  apply emits_bind; [emits_prim|]. intros _.
  apply emits_ret.
Qed.

Lemma gc_inode_emits fuel r rsv key :
  preserves (emits_only (worker_event r rsv)) (gc_inode fuel rsv key).
Proof.
  unfold gc_inode. apply emits_bind; [emits_prim|].
  intros [r0|e].
  - apply emits_bind.
    + intros s a s' H. eapply emits_only_weaken; [apply pass_event_worker|].
      eapply gc_inode_loop_emits. exact H.
    + intros res. apply emits_bind; [emits_prim|]. intros _. apply emits_ret.
  - destruct (e =? - ENOENT); [apply emits_ret|].
    apply emits_bind; [emits_prim|]. intros _. apply emits_ret.
Qed.

Lemma gc_work_body_emits fuel r path rsv :
  preserves (emits_only (worker_event r rsv)) (gc_work_body fuel r path rsv).
Proof.
  unfold gc_work_body.
  apply emits_bind; [emits_prim|]. intros p.
  apply emits_bind.
  - destruct (_ =? BTRFS_GC_INODE_ITEM_KEY).
    + apply gc_inode_emits.
    + apply emits_bind; [emits_prim|]. intros _. apply emits_ret.
  - intros res. destruct (res =? 0);
      [apply delete_gc_item_emits | apply emits_ret].
Qed.

Lemma gc_work_loop_emits fuel : forall r path rsv,
  preserves (emits_only (worker_event r rsv)) (gc_work_loop fuel r path rsv).
Proof.
  induction fuel as [|fuel IH]; intros r path rsv; cbn.
  - apply emits_bind; [emits_prim|]. intros c.
    destruct (negb c); [apply emits_ret|].
    apply emits_bind; [emits_prim|]. intros [res p].
    destruct (negb (res =? 0)); [apply emits_ret|].
    apply preserves_out_of_fuel.
  - apply emits_bind; [emits_prim|]. intros c.
    destruct (negb c); [apply emits_ret|].
    apply emits_bind; [emits_prim|]. intros [res p].
    destruct (negb (res =? 0)); [apply emits_ret|].
    apply emits_bind; [apply gc_work_body_emits|]. intros p'.
    apply IH.
Qed.

(** The three ways through gc_work_fn. *)
Lemma gc_work_fn_shape fuel w s s' :
  gc_work_fn fuel w s = Some (tt, s') ->
  let r := work_root w in
  let rsv := rsv_of {| rsv_id := S (ticks s); size := metadata_size_1;
                       failfast := true |} in
  trace s' = trace s ++ [EvAllocPath false; EvClearBit r; EvKfree]
  \/ trace s' = trace s ++ [EvAllocPath true; EvAllocRsv false; EvFreePath;
                            EvClearBit r; EvKfree]
  \/ exists ev,
       trace s' = trace s ++ [EvAllocPath true; EvAllocRsv true] ++ ev
                    ++ [EvFreeRsv; EvFreePath; EvClearBit r; EvKfree]
       /\ Forall (worker_event r rsv) ev.
Proof.
  intros H r rsv. destruct (o_alloc env (ticks s)) eqn:Ha.
  - destruct (o_alloc env (S (ticks s))) eqn:Hb.
    + right. right.
      pose proof H as H'. unfold gc_work_fn in H'.
      unfold btrfs_alloc_path, btrfs_alloc_block_rsv, tick, emit, modify in H'.
      unfold bind at 1 2 3 in H'. cbn in H'. rewrite Ha in H'.
      unfold bind at 1 2 3 in H'. cbn in H'. rewrite Hb in H'. cbn in H'.
      apply bind_inv in H'. destruct H' as (p & s2 & Hl & _).
      rewrite <- app_assoc in Hl. cbn in Hl.
      rewrite (gc_work_fn_drained fuel w s p s2 Ha Hb Hl) in H.
      inversion H; subst. cbn.
      destruct (gc_work_loop_emits _ _ _ _ _ _ _ Hl) as (ev & Hev & Fev).
      exists ev. split; [|exact Fev]. rewrite Hev. cbn.
      repeat rewrite <- app_assoc. reflexivity.
    + right. left. rewrite (gc_work_fn_no_rsv fuel w s Ha Hb) in H.
      inversion H; subst. reflexivity.
  - left. rewrite (gc_work_fn_no_path fuel w s Ha) in H.
    inversion H; subst. reflexivity.
Qed.

(** X9: every finished run of gc_work_fn releases what it acquired, in the
    reverse order, before it clears the bit: nothing but the bit when the
    path could not be allocated, the path when the reservation could not,
    and otherwise the reservation and then the path, after a drain loop
    that allocates and frees nothing. *)
Theorem gc_work_fn_releases_what_it_acquired fuel w s s' :
  gc_work_fn fuel w s = Some (tt, s') ->
  let r := work_root w in
  trace s' = trace s ++ [EvAllocPath false; EvClearBit r; EvKfree]
  \/ trace s' = trace s ++ [EvAllocPath true; EvAllocRsv false; EvFreePath;
                            EvClearBit r; EvKfree]
  \/ exists ev,
       trace s' = trace s ++ [EvAllocPath true; EvAllocRsv true] ++ ev
                    ++ [EvFreeRsv; EvFreePath; EvClearBit r; EvKfree]
       /\ (forall e, In e ev ->
           match e with
           | EvAllocPath _ | EvFreePath | EvAllocRsv _ | EvFreeRsv
           | EvKmalloc _ | EvKfree => False
           | _ => True
           end).
Proof.
  intros H r. destruct (gc_work_fn_shape fuel w s s' H) as [E|[E|(ev & E & F)]].
  - left. exact E.
  - right. left. exact E.
  - right. right. exists ev. split; [exact E|].
    intros e Hin. rewrite Forall_forall in F. specialize (F e Hin).
    destruct e; cbn in F; try exact I; contradiction.
Qed.

(** X10: in every finished run of gc_work_fn, each transaction is joined
    with the worker's own reservation, of the size of one metadata item and
    fail-fast, each truncation runs with that reservation as the budget of
    its handle, and reads, searches and deletions are in the worker's
    root; the worker inserts no item, queues no work and tests no
    running bit. *)
Theorem gc_work_fn_uses_its_reservation fuel w s s' :
  gc_work_fn fuel w s = Some (tt, s') ->
  let r := work_root w in
  let rsv := rsv_of {| rsv_id := S (ticks s); size := metadata_size_1;
                       failfast := true |} in
  exists ev,
    trace s' = trace s ++ ev
    /\ forall e, In e ev ->
       match e with
       | EvJoin _ rsv' _ => rsv' = rsv
       | EvTruncate t _ _ _ => block_rsv t = rsv
       | EvFirstItem r' _ | EvSearch _ r' _ _ | EvDel _ r' _ => r' = r
       | EvInsert _ _ _ _ | EvQueueWork _ | EvTestAndSetBit _ _ => False
       | _ => True
       end.
Proof.
  intros H r rsv. destruct (gc_work_fn_shape fuel w s s' H) as [E|[E|(ev & E & F)]].
  - eexists. split; [exact E|]. intros e [<-|[<-|[<-|[]]]]; exact I.
  - eexists. split; [exact E|].
    intros e [<-|[<-|[<-|[<-|[<-|[]]]]]]; exact I.
  - eexists. split; [exact E|]. intros e Hin.
    cbn in Hin. destruct Hin as [<-|[<-|Hin]]; try exact I.
    apply in_app_or in Hin. destruct Hin as [Hin|Hin].
    + rewrite Forall_forall in F. specialize (F e Hin).
      destruct e; cbn in F; try exact I; try exact F; contradiction.
    + destruct Hin as [<-|[<-|[<-|[<-|[]]]]]; exact I.
Qed.


Lemma shrinks_at_refl rk s : shrinks_at rk s s.
Proof. split; auto. Qed.

Lemma shrinks_at_trans rk a b c :
  shrinks_at rk a b -> shrinks_at rk b c -> shrinks_at rk a c.
Proof.
  intros [H1 H2] [H3 H4]. split.
  - intros k0 Hk. rewrite (H3 k0 Hk). now apply H1.
  - intros key Hm. apply H2. now apply H4.
Qed.

Lemma same_items_shrinks rk s s' : items s' = items s -> shrinks_at rk s s'.
Proof. intros E. split; intros; rewrite E in *; auto. Qed.

Lemma shrinks_bind rk {A B : Type} (m : M A) (k : A -> M B) :
  preserves (shrinks_at rk) m -> (forall a, preserves (shrinks_at rk) (k a)) ->
  preserves (shrinks_at rk) (bind m k).
Proof. apply preserves_bind. apply shrinks_at_trans. Qed.

Lemma shrinks_ret rk {A : Type} (a : A) : preserves (shrinks_at rk) (ret a).
Proof. apply preserves_ret. apply shrinks_at_refl. Qed.

Lemma items_mem_remove_subset k k' l :
  items_mem k' (items_remove k l) = true -> items_mem k' l = true.
Proof.
  unfold items_mem, items_remove. induction l as [|x l IH]; cbn; [auto|].
  destruct (key_eqb k x); cbn.
  - intros H. rewrite (IH H). apply orb_true_r.
  - intros H. apply orb_true_iff in H. apply orb_true_iff.
    destruct H as [H|H]; [now left|right; now apply IH].
Qed.

Lemma del_item_shrinks t r path :
  preserves (shrinks_at (root_key r)) (btrfs_del_item t r path).
Proof.
  intros s a s' H. unfold btrfs_del_item in H. unfold_prims_in H. cbn in H.
  destruct (o_fault env (ticks s) <? 0).
  - inversion H; subst. now apply same_items_shrinks.
  - destruct (slot path) as [k|].
    + inversion H; subst. split; cbn.
      * intros k0 Hk. now apply upd_neq.
      * intros key. rewrite upd_same. apply items_mem_remove_subset.
    + inversion H; subst. now apply same_items_shrinks.
Qed.

Lemma delete_gc_item_shrinks r path rsv key :
  preserves (shrinks_at (root_key r)) (delete_gc_item r path rsv key).
Proof.
  unfold delete_gc_item. apply shrinks_bind.
  - frame_prim; now apply same_items_shrinks.
  - intros [t|e]; [|apply shrinks_ret].
    apply shrinks_bind; [frame_prim; now apply same_items_shrinks|].
    intros [res path']. cbn.
    match goal with
    | |- context [if ?c <? 0 then ret _ else _] => destruct (c <? 0)
    end; [apply shrinks_ret|].
    apply shrinks_bind; [apply del_item_shrinks|]. intros _.
    apply shrinks_bind; [frame_prim; now apply same_items_shrinks|]. intros p.
    apply shrinks_bind; [frame_prim; now apply same_items_shrinks|]. intros _.
    apply shrinks_ret.
Qed.

Lemma gc_work_body_shrinks fuel r path rsv :
  preserves (shrinks_at (root_key r)) (gc_work_body fuel r path rsv).
Proof.
  unfold gc_work_body.
  apply shrinks_bind; [frame_prim; now apply same_items_shrinks|]. intros p.
  apply shrinks_bind.
  - destruct (_ =? BTRFS_GC_INODE_ITEM_KEY).
    + intros s a s' H. apply same_items_shrinks.
      now destruct (gc_inode_quiet _ _ _ _ _ _ H) as (_ & Hi & _).
    + apply shrinks_bind; [frame_prim; now apply same_items_shrinks|].
      intros _. apply shrinks_ret.
  - intros res. destruct (res =? 0);
      [apply delete_gc_item_shrinks | apply shrinks_ret].
Qed.

Lemma gc_work_loop_shrinks fuel : forall r path rsv,
  preserves (shrinks_at (root_key r)) (gc_work_loop fuel r path rsv).
Proof.
  induction fuel as [|fuel IH]; intros r path rsv; cbn.
  - apply shrinks_bind; [frame_prim; now apply same_items_shrinks|]. intros c.
    destruct (negb c); [apply shrinks_ret|].
    apply shrinks_bind; [frame_prim; now apply same_items_shrinks|].
    intros [res p].
    destruct (negb (res =? 0)); [apply shrinks_ret|].
    apply preserves_out_of_fuel.
  - apply shrinks_bind; [frame_prim; now apply same_items_shrinks|]. intros c.
    destruct (negb c); [apply shrinks_ret|].
    apply shrinks_bind; [frame_prim; now apply same_items_shrinks|].
    intros [res p].
    destruct (negb (res =? 0)); [apply shrinks_ret|].
    apply shrinks_bind; [apply gc_work_body_shrinks|]. intros p'.
    apply IH.
Qed.

(** X11: a worker changes the items of its own root only, and only by
    removing: after any finished run of gc_work_fn the other roots hold
    the items they held, and the worker's root holds no item it did not
    hold; the queue is as before and no other running bit has changed. *)
Theorem gc_work_fn_touches_only_its_root fuel w s s' :
  gc_work_fn fuel w s = Some (tt, s') ->
  let rk := root_key (work_root w) in
  (forall k0, k0 <> rk -> items s' k0 = items s k0)
  /\ (forall key, items_mem key (items s' rk) = true ->
                  items_mem key (items s rk) = true)
  /\ gc_workers s' = gc_workers s
  /\ (forall k0, k0 <> rk -> gc_running s' k0 = gc_running s k0).
Proof.
  intros H rk.
  destruct (gc_work_fn_inv fuel w s s' H) as (Hr & Hq).
  assert (Hsh : shrinks_at rk s s').
  { destruct (o_alloc env (ticks s)) eqn:Ha.
    - destruct (o_alloc env (S (ticks s))) eqn:Hb.
      + pose proof H as H'. unfold gc_work_fn in H'.
        unfold btrfs_alloc_path, btrfs_alloc_block_rsv, tick, emit, modify in H'.
        unfold bind at 1 2 3 in H'. cbn in H'. rewrite Ha in H'.
        unfold bind at 1 2 3 in H'. cbn in H'. rewrite Hb in H'. cbn in H'.
        apply bind_inv in H'. destruct H' as (p & s2 & Hl & _).
        rewrite <- app_assoc in Hl. cbn in Hl.
        rewrite (gc_work_fn_drained fuel w s p s2 Ha Hb Hl) in H.
        inversion H; subst.
        destruct (gc_work_loop_shrinks _ _ _ _ _ _ _ Hl) as [H1 H2].
        split; cbn; [exact H1|exact H2].
      + rewrite (gc_work_fn_no_rsv fuel w s Ha Hb) in H. inversion H; subst.
        apply same_items_shrinks. reflexivity.
    - rewrite (gc_work_fn_no_path fuel w s Ha) in H. inversion H; subst.
      apply same_items_shrinks. reflexivity. }
  destruct Hsh as [H1 H2]. split; [exact H1|]. split; [exact H2|].
  split; [exact Hq|]. intros k0 Hk. rewrite Hr. now apply upd_neq.
Qed.

Lemma btrfs_first_item_nothing s r path :
  o_fault env (ticks s) < 0 \/ items s (root_key r) = [] ->
  exists res,
    res <> 0
    /\ btrfs_first_item r path s =
       Some ((res, path),
             with_trace (trace s ++ [EvFirstItem r res])
               (with_ticks (S (ticks s)) s)).
Proof.
  intros H. unfold btrfs_first_item. run.
  destruct (o_fault env (ticks s) <? 0) eqn:E.
  - apply Z.ltb_lt in E. exists (o_fault env (ticks s)).
    split; [lia|]. reflexivity.
  - apply Z.ltb_ge in E. destruct H as [H|H]; [lia|]. rewrite H.
    exists 1. split; [lia|]. reflexivity.
Qed.

(** X12: a worker on a closing filesystem whose first read of the root
    returns nonzero, because the root is empty or because the read
    failed, processes nothing: it frees the reservation and the path,
    clears the bit and returns.  A read error is not told from an empty
    root and is not logged. *)
Theorem gc_work_fn_stops_when_nothing_is_read fuel w s :
  closing s = true ->
  o_alloc env (ticks s) = true ->
  o_alloc env (S (ticks s)) = true ->
  o_fault env (S (S (ticks s))) < 0 \/ items s (root_key (work_root w)) = [] ->
  let r := work_root w in
  exists s' res,
    gc_work_fn fuel w s = Some (tt, s')
    /\ res <> 0
    /\ trace s' = trace s ++ [EvAllocPath true; EvAllocRsv true;
                              EvFirstItem r res; EvFreeRsv; EvFreePath;
                              EvClearBit r; EvKfree]
    /\ items s' = items s
    /\ open_trans s' = open_trans s
    /\ gc_running s' (root_key r) = false.
Proof.
  intros Hc Ha Hb Hn r.
  match type of Hn with
  | _ \/ items s ?rk = [] =>
      destruct (btrfs_first_item_nothing
                  (with_trace (trace s ++ [EvAllocPath true; EvAllocRsv true])
                     (with_ticks (S (S (ticks s))) s))
                  r empty_path Hn) as (res & Hres & Hfi)
  end.
  erewrite gc_work_fn_drained; [| exact Ha | exact Hb |].
  2:{ rewrite gc_work_loop_closing by exact Hc.
      rewrite (bind_run _ _ _ _ _ Hfi). cbn.
      apply Z.eqb_neq in Hres. rewrite Hres. reflexivity. }
  eexists. exists res. split; [reflexivity|]. split; [exact Hres|]. cbn.
  repeat rewrite <- app_assoc. cbn.
  split; [reflexivity|]. split; [reflexivity|]. split; [reflexivity|].
  apply upd_same.
Qed.


Lemma truncations_app a b : truncations (a ++ b) = truncations a ++ truncations b.
Proof.
  induction a as [|e a IH]; cbn; [reflexivity|].
  destruct e; cbn; rewrite IH; reflexivity.
Qed.

Lemma items_mem_not_in k l : ~ In k l -> items_mem k l = false.
Proof.
  unfold items_mem. induction l as [|x l IH]; cbn; intros H; [reflexivity|].
  assert (E : key_eqb k x = false).
  { apply key_eqb_neq. intros ->. apply H. now left. }
  rewrite E. cbn. apply IH. intros Hin. apply H. now right.
Qed.

Lemma items_remove_head k l :
  items_mem k l = false -> items_remove k (k :: l) = l.
Proof.
  intros H. unfold items_remove. cbn. rewrite key_eqb_refl. cbn.
  unfold items_mem in H. induction l as [|x l IH]; cbn; [reflexivity|].
  cbn in H. apply orb_false_iff in H. destruct H as [Hx Hl].
  rewrite Hx. cbn. f_equal. now apply IH.
Qed.

Lemma items_mem_head_true k l : items_mem k (k :: l) = true.
Proof. unfold items_mem. cbn. now rewrite key_eqb_refl. Qed.

(** gc_inode when the root is found, the join succeeds and the truncation
    returns 0 at once. *)
Lemma gc_inode_succeeds s fuel rsv key b :
  0 <= o_fs_root env (ticks s) ->
  o_join env (S (ticks s)) = JoinOk b ->
  o_truncate env (S (S (ticks s))) = 0 ->
  let r := {| root_key := mk_key (objectid key) BTRFS_ROOT_ITEM_KEY (2 ^ 64 - 1) |} in
  gc_inode fuel rsv key s =
  Some (0, with_trace (trace s ++ EvGetFsRoot (objectid key) (Ptr r)
                         :: pass_events r rsv key (S (ticks s)) b 0
                         ++ [EvPutRoot r])
             (with_open_trans
                (filter (fun n => negb (Nat.eqb n (S (ticks s))))
                        (S (ticks s) :: open_trans s))
                (with_ticks (S (S (S (ticks s)))) s))).
Proof.
  intros He Hj Ht r. rewrite (gc_inode_root_found s fuel rsv key He). fold r.
  erewrite bind_run.
  2:{ apply gc_inode_loop_stops with (b := b); cbn; [exact Hj|].
      rewrite Ht. reflexivity. }
  cbn. rewrite Ht. run. repeat rewrite <- app_assoc. reflexivity.
Qed.

(** A pass of the drain loop that succeeds: the first item is truncated
    and deleted, and the loop goes on with the rest. *)
Lemma gc_work_loop_pass_succeeds s r path rsv k l fuel :
  collaborators_succeed ->
  closing s = true ->
  items s (root_key r) = k :: l ->
  type k = BTRFS_GC_INODE_ITEM_KEY ->
  items_mem k l = false ->
  exists s2 ev,
    gc_work_loop (S fuel) r path rsv s = gc_work_loop fuel r empty_path rsv s2
    /\ closing s2 = true
    /\ items s2 (root_key r) = l
    /\ (forall k0, k0 <> root_key r -> items s2 k0 = items s k0)
    /\ trace s2 = trace s ++ ev
    /\ truncations ev = [(objectid k, offset k)]
    /\ (ticks s <= ticks s2)%nat
    /\ (trans_fresh s -> open_trans s2 = open_trans s).
Proof.
  intros Hok Hc Hi Hk Hnm.
  destruct (Hok (S (S (ticks s)))) as ((b1 & Hj1) & _).
  destruct (Hok (S (S (S (S (ticks s)))))) as ((b2 & Hj2) & _).
  rewrite (gc_work_loop_enters s r path rsv k l fuel Hc
             (proj1 (proj2 (Hok _))) Hi).
  erewrite bind_run.
  2:{ rewrite (gc_work_body_inode _ fuel r {| held := true; slot := Some k |}
                 rsv k eq_refl Hk).
      erewrite bind_run.
      2:{ apply gc_inode_succeeds with (b := b1); cbn.
          - apply (Hok _).
          - exact Hj1.
          - apply (Hok _). }
      cbn. apply delete_gc_item_present with (b := b2); cbn.
      - exact Hj2.
      - apply (Hok _).
      - apply (Hok _).
      - rewrite Hi. apply items_mem_head_true. }
  do 2 eexists. split; [reflexivity|]. cbn.
  split; [exact Hc|]. split; [|split; [|split; [|split; [|split]]]].
  - rewrite upd_same, Hi. now apply items_remove_head.
  - intros k0 Hne. now apply upd_neq.
  - repeat rewrite <- app_assoc. cbn. reflexivity.
  - reflexivity.
  - lia.
  - intros Hfr.
    pose proof (end_removes_fresh (open_trans s) (ticks s) (S (S (ticks s)))
                  Hfr ltac:(lia)) as E1.
    pose proof (end_removes_fresh (open_trans s) (ticks s)
                  (S (S (S (S (ticks s))))) Hfr ltac:(lia)) as E2.
    cbn in E1, E2. rewrite E1. exact E2.
Qed.


(** X13: when every collaborator succeeds, the drain loop of a worker on a
    closing filesystem empties its root, with one pass per item: each
    inode is truncated once, in the order of the keys, its item is
    deleted, the other roots are not touched and no handle stays open.
    Fuel of the number of items is enough. *)
Theorem gc_work_loop_drains_root l : forall s r path rsv fuel,
  collaborators_succeed ->
  closing s = true ->
  items s (root_key r) = l ->
  NoDup l ->
  Forall (fun k => type k = BTRFS_GC_INODE_ITEM_KEY) l ->
  (length l <= fuel)%nat ->
  exists p s' ev,
    gc_work_loop fuel r path rsv s = Some (p, s')
    /\ items s' (root_key r) = []
    /\ (forall k0, k0 <> root_key r -> items s' k0 = items s k0)
    /\ trace s' = trace s ++ ev
    /\ truncations ev = map (fun k => (objectid k, offset k)) l
    /\ (trans_fresh s -> open_trans s' = open_trans s).
Proof.
  induction l as [|k l IH]; intros s r path rsv fuel Hok Hc Hi Hnd Hty Hfuel.
  - destruct (btrfs_first_item_nothing s r path (or_intror Hi))
      as (res & Hres & Hfi).
    rewrite gc_work_loop_closing by exact Hc.
    rewrite (bind_run _ _ _ _ _ Hfi). cbn.
    apply Z.eqb_neq in Hres. rewrite Hres. cbn.
    do 3 eexists. split; [reflexivity|]. cbn.
    split; [exact Hi|]. repeat split.
  - inversion Hnd as [|k' l' Hnin Hnd']; subst k' l'.
    inversion Hty as [|k' l' Hk Hty']; subst k' l'.
    destruct fuel as [|fuel]; [cbn in Hfuel; lia|].
    destruct (gc_work_loop_pass_succeeds s r path rsv k l fuel Hok Hc Hi Hk
                (items_mem_not_in _ _ Hnin))
      as (s2 & ev1 & Hstep & Hc2 & Hi2 & Hoth2 & Htr2 & Htrunc2 & Htk2 & Hop2).
    destruct (IH s2 r empty_path rsv fuel Hok Hc2 Hi2 Hnd' Hty')
      as (p & s' & ev2 & Hrun & Hi' & Hoth' & Htr' & Htrunc' & Hop').
    { cbn in Hfuel. lia. }
    exists p, s', (ev1 ++ ev2). rewrite Hstep.
    split; [exact Hrun|]. split; [exact Hi'|]. split; [|split; [|split]].
    + intros k0 Hne. rewrite (Hoth' k0 Hne). now apply Hoth2.
    + rewrite Htr', Htr2. now rewrite app_assoc.
    + rewrite truncations_app, Htrunc2, Htrunc'. reflexivity.
    + intros Hfr. rewrite Hop'.
      * now apply Hop2.
      * apply (trans_fresh_later s s2); [exact Htk2|now apply Hop2|exact Hfr].
Qed.


(** ** The dispatcher *)

Lemma dispatched_refl s : dispatched s s.
Proof.
  split; [auto|]. split; [|split; reflexivity].
  exists []. split; [now rewrite app_nil_r|]. split; [constructor|].
  intros w [].
Qed.

Lemma dispatched_trans a b c : dispatched a b -> dispatched b c -> dispatched a c.
Proof.
  intros (M1 & (q1 & Q1 & N1 & W1) & I1 & O1) (M2 & (q2 & Q2 & N2 & W2) & I2 & O2).
  split; [auto|]. split; [|split; congruence].
  exists (q1 ++ q2). split; [now rewrite Q2, Q1, app_assoc|]. split.
  - apply NoDup_app; [exact N1|exact N2|].
    intros w H1 H2. destruct (W1 w H1) as [_ Hb]. destruct (W2 w H2) as [Hb' _].
    congruence.
  - intros w Hin. apply in_app_or in Hin. destruct Hin as [Hin|Hin].
    + destruct (W1 w Hin) as [Ha Hb]. split; [exact Ha|now apply M2].
    + destruct (W2 w Hin) as [Hb Hc]. split; [|exact Hc].
      destruct (gc_running a (root_key (work_root w))) eqn:E; [|reflexivity].
      apply M1 in E. congruence.
Qed.

Lemma queue_gc_root_dispatched i : preserves dispatched (queue_gc_root i).
Proof.
  intros s [] s' H.
  destruct (gc_running s (gc_root_key i)) eqn:Hr.
  - rewrite (queue_gc_root_busy i s Hr) in H. inversion H; subst.
    split; [|split; [|split; reflexivity]].
    + intros k Hk. cbn. unfold upd. now destruct (key_eqb (gc_root_key i) k).
    + exists []. cbn. split; [now rewrite app_nil_r|]. split; [constructor|].
      intros w [].
  - destruct (o_alloc env (ticks s)) eqn:Ha.
    + rewrite (queue_gc_root_queued i s Hr Ha) in H. inversion H; subst.
      split; [|split; [|split; reflexivity]].
      * intros k Hk. cbn. unfold upd. now destruct (key_eqb (gc_root_key i) k).
      * eexists. cbn. split; [reflexivity|]. split.
        -- constructor; [intros []|constructor].
        -- intros w [<-|[]]. cbn. split; [exact Hr|apply upd_same].
    + rewrite (queue_gc_root_no_memory i s Hr Ha) in H. inversion H; subst.
      split; [|split; [|split; reflexivity]].
      * intros k Hk. cbn. rewrite upd_neq; [rewrite upd_neq; [exact Hk|]|];
          intros ->; congruence.
      * exists []. cbn. split; [now rewrite app_nil_r|]. split; [constructor|].
        intros w [].
Qed.

Lemma queue_gc_loop_dispatched n : forall i, preserves dispatched (queue_gc_loop n i).
Proof.
  induction n as [|n IH]; intros i; cbn.
  - apply preserves_ret. apply dispatched_refl.
  - apply preserves_bind; [apply dispatched_trans|apply queue_gc_root_dispatched|].
    intros _. apply IH.
Qed.

Lemma btrfs_queue_gc_work_off s :
  extent_tree_v2 s = false -> btrfs_queue_gc_work s = Some (tt, s).
Proof.
  intros Hv. unfold btrfs_queue_gc_work. unfold_prims. now rewrite Hv.
Qed.

(** X14: one call of btrfs_queue_gc_work, whatever kmalloc answers, queues
    work only for roots whose running bit was clear, no root twice, and
    leaves the bit of each of them set; the bits that were set are still
    set; the call reads and changes no item and joins no transaction. *)
Theorem btrfs_queue_gc_work_queues_clear_roots_once s s' :
  btrfs_queue_gc_work s = Some (tt, s') ->
  (forall k, gc_running s k = true -> gc_running s' k = true)
  /\ (exists q,
        gc_workers s' = gc_workers s ++ q
        /\ NoDup q
        /\ forall w, In w q ->
             gc_running s (root_key (work_root w)) = false
             /\ gc_running s' (root_key (work_root w)) = true)
  /\ items s' = items s
  /\ open_trans s' = open_trans s.
Proof.
  intros H. change (dispatched s s').
  destruct (extent_tree_v2 s) eqn:Hv.
  - destruct (closing s) eqn:Hc.
    + rewrite (btrfs_queue_gc_work_closing s Hc) in H. inversion H; subst.
      apply dispatched_refl.
    + rewrite (btrfs_queue_gc_work_loops s Hv Hc) in H.
      eapply queue_gc_loop_dispatched. exact H.
  - rewrite (btrfs_queue_gc_work_off s Hv) in H. inversion H; subst.
    apply dispatched_refl.
Qed.

Lemma gc_root_key_neq i j : i <> j -> gc_root_key i <> gc_root_key j.
Proof. unfold gc_root_key. intros H E. injection E as E. contradiction. Qed.

Lemma queue_gc_loop_all_clear n : forall i s,
  (forall m, o_alloc env m = true) ->
  (forall j, (j < n)%nat -> gc_running s (gc_root_key (i + Z.of_nat j)) = false) ->
  exists s',
    queue_gc_loop n i s = Some (tt, s')
    /\ gc_workers s' = gc_workers s ++
         map (fun j => {| work_root := btrfs_global_root
                                         (gc_root_key (i + Z.of_nat j)) |})
             (seq 0 n)
    /\ (forall j, (j < n)%nat ->
                  gc_running s' (gc_root_key (i + Z.of_nat j)) = true)
    /\ (forall k, (forall j, (j < n)%nat -> k <> gc_root_key (i + Z.of_nat j)) ->
                  gc_running s' k = gc_running s k).
Proof.
  induction n as [|n IH]; intros i s Ha Hclear.
  - exists s. cbn. rewrite app_nil_r. repeat split; auto. intros j Hj. lia.
  - assert (H0 : gc_running s (gc_root_key i) = false).
    { specialize (Hclear 0%nat ltac:(lia)). now rewrite Z.add_0_r in Hclear. }
    pose proof (queue_gc_root_queued i s H0 (Ha _)) as Hq.
    cbn zeta in Hq.
    match type of Hq with _ = Some (tt, ?s1) =>
      destruct (IH (i + 1) s1 Ha) as (s' & Hrun & Hw & Hset & Hoth)
    end.
    { intros j Hj. cbn. rewrite upd_neq.
      - replace (i + 1 + Z.of_nat j) with (i + Z.of_nat (S j)) by lia.
        apply Hclear. lia.
      - apply gc_root_key_neq. lia. }
    exists s'. split; [|split; [|split]].
    + cbn [queue_gc_loop]. rewrite (bind_run _ _ _ _ _ Hq). exact Hrun.
    + rewrite Hw. cbn [gc_workers with_gc_workers with_trace].
      rewrite <- app_assoc. cbn [seq map app]. rewrite Z.add_0_r. do 2 f_equal.
      rewrite <- seq_shift, map_map. apply map_ext. intros j.
      do 3 f_equal. lia.
    + intros j Hj. destruct j as [|j].
      * rewrite Z.add_0_r. rewrite Hoth.
        -- cbn. apply upd_same.
        -- intros j Hj'. apply gc_root_key_neq. lia.
      * replace (i + Z.of_nat (S j)) with (i + 1 + Z.of_nat j) by lia.
        apply Hset. lia.
    + intros k Hk. rewrite Hoth.
      * cbn. apply upd_neq. specialize (Hk 0%nat ltac:(lia)).
        now rewrite Z.add_0_r in Hk.
      * intros j Hj. replace (i + 1 + Z.of_nat j) with (i + Z.of_nat (S j)) by lia.
        apply Hk. lia.
Qed.

Lemma queue_gc_loop_all_set n : forall i s,
  (forall j, (j < n)%nat -> gc_running s (gc_root_key (i + Z.of_nat j)) = true) ->
  exists s',
    queue_gc_loop n i s = Some (tt, s')
    /\ gc_workers s' = gc_workers s
    /\ (forall k, gc_running s' k = gc_running s k)
    /\ ticks s' = ticks s.
Proof.
  induction n as [|n IH]; intros i s Hset.
  - exists s. cbn. repeat split.
  - assert (H0 : gc_running s (gc_root_key i) = true).
    { specialize (Hset 0%nat ltac:(lia)). now rewrite Z.add_0_r in Hset. }
    pose proof (queue_gc_root_busy i s H0) as Hq.
    assert (Hsame : forall k, upd (gc_running s) (gc_root_key i) true k
                              = gc_running s k).
    { intros k. rewrite <- H0 at 1. apply upd_id. }
    match type of Hq with _ = Some (tt, ?s1) =>
      destruct (IH (i + 1) s1) as (s' & Hrun & Hw & Hfl & Htk)
    end.
    { intros j Hj. cbn. rewrite Hsame.
      replace (i + 1 + Z.of_nat j) with (i + Z.of_nat (S j)) by lia.
      apply Hset. lia. }
    exists s'. split; [|split; [|split]].
    + cbn [queue_gc_loop]. rewrite (bind_run _ _ _ _ _ Hq). exact Hrun.
    + rewrite Hw. reflexivity.
    + intros k. rewrite Hfl. cbn. apply Hsame.
    + rewrite Htk. reflexivity.
Qed.

(** X15: when no allocation fails and the running bit of every root is
    clear, btrfs_queue_gc_work queues one worker for each of the
    nr_global_roots roots, in the order of the index, and sets every bit;
    it does so whether or not a root holds items.  A second call right
    after it queues nothing and changes no bit. *)
Theorem btrfs_queue_gc_work_queues_every_root_once s :
  extent_tree_v2 s = true ->
  closing s = false ->
  0 <= nr_global_roots s <= INT_MAX ->
  (forall m, o_alloc env m = true) ->
  (forall i, 0 <= i < nr_global_roots s -> gc_running s (gc_root_key i) = false) ->
  exists s1 s2,
    btrfs_queue_gc_work s = Some (tt, s1)
    /\ gc_workers s1 = gc_workers s ++
         map (fun j => {| work_root := btrfs_global_root
                                         (gc_root_key (Z.of_nat j)) |})
             (seq 0 (Z.to_nat (nr_global_roots s)))
    /\ (forall i, 0 <= i < nr_global_roots s ->
                  gc_running s1 (gc_root_key i) = true)
    /\ items s1 = items s
    /\ btrfs_queue_gc_work s1 = Some (tt, s2)
    /\ gc_workers s2 = gc_workers s1
    /\ (forall k, gc_running s2 k = gc_running s1 k).
Proof.
  intros Hv Hc Hnr Ha Hclear.
  rewrite (btrfs_queue_gc_work_loops s Hv Hc).
  rewrite (int_of_u64_small _ Hnr).
  destruct (queue_gc_loop_all_clear (Z.to_nat (nr_global_roots s)) 0 s Ha)
    as (s1 & Hrun & Hw & Hset & _).
  { intros j Hj. apply Hclear. lia. }
  assert (Hd : dispatched s s1)
    by (eapply queue_gc_loop_dispatched; exact Hrun).
  destruct Hd as (_ & _ & Hit & _).
  assert (Hv1 : extent_tree_v2 s1 = true /\ closing s1 = false
                /\ nr_global_roots s1 = nr_global_roots s).
  { clear - Hrun Hv Hc.
    assert (G : forall n i a b,
               queue_gc_loop n i a = Some (tt, b) ->
               extent_tree_v2 b = extent_tree_v2 a
               /\ closing b = closing a
               /\ nr_global_roots b = nr_global_roots a).
    { induction n as [|n IH]; intros i a b H.
      - inversion H; subst. auto.
      - cbn [queue_gc_loop] in H. apply bind_inv in H.
        destruct H as ([] & m & H1 & H2). apply IH in H2.
        assert (G1 : extent_tree_v2 m = extent_tree_v2 a
                     /\ closing m = closing a
                     /\ nr_global_roots m = nr_global_roots a).
        { destruct (gc_running a (gc_root_key i)) eqn:Hr.
          - rewrite (queue_gc_root_busy i a Hr) in H1. inversion H1; subst. auto.
          - destruct (o_alloc env (ticks a)) eqn:Hal.
            + rewrite (queue_gc_root_queued i a Hr Hal) in H1.
              inversion H1; subst. auto.
            + rewrite (queue_gc_root_no_memory i a Hr Hal) in H1.
              inversion H1; subst. auto. }
        intuition congruence. }
    destruct (G _ _ _ _ Hrun) as (G1 & G2 & G3). repeat split; congruence. }
  destruct Hv1 as (Hv1 & Hc1 & Hnr1).
  exists s1. rewrite (btrfs_queue_gc_work_loops s1 Hv1 Hc1). rewrite Hnr1.
  rewrite (int_of_u64_small _ Hnr).
  destruct (queue_gc_loop_all_set (Z.to_nat (nr_global_roots s)) 0 s1)
    as (s2 & Hrun2 & Hw2 & Hfl2 & _).
  { intros j Hj. cbn [Z.add]. rewrite <- (Z.add_0_l (Z.of_nat j)).
    apply Hset. exact Hj. }
  exists s2. split; [exact Hrun|]. split; [exact Hw|]. split; [|split; [exact Hit|]].
  - intros i Hi. replace i with (0 + Z.of_nat (Z.to_nat i)) by lia.
    apply Hset. lia.
  - split; [exact Hrun2|]. split; [exact Hw2|exact Hfl2].
Qed.


(** X16: btrfs_queue_gc_work always returns.  It leaves the filesystem
    state untouched when the EXTENT_TREE_V2 feature is off, when the
    filesystem is closing, or when nr_global_roots taken as an int is not
    positive; otherwise its first act is test_and_set_bit on the root of
    index 0. *)
Theorem btrfs_queue_gc_work_gates s :
  exists s',
    btrfs_queue_gc_work s = Some (tt, s')
    /\ (extent_tree_v2 s = false \/ closing s = true
        \/ int_of_u64 (nr_global_roots s) <= 0 -> s' = s)
    /\ (extent_tree_v2 s = true -> closing s = false ->
        0 < int_of_u64 (nr_global_roots s) ->
        exists old ev,
          trace s' = trace s
                       ++ EvTestAndSetBit (btrfs_global_root (gc_root_key 0)) old
                       :: ev).
Proof.
  destruct (extent_tree_v2 s) eqn:Hv.
  - destruct (closing s) eqn:Hc.
    + exists s. split; [now apply btrfs_queue_gc_work_closing|].
      split; [reflexivity|]. intros _ H. discriminate H.
    + rewrite (btrfs_queue_gc_work_loops s Hv Hc).
      destruct (Z.to_nat (int_of_u64 (nr_global_roots s))) as [|n] eqn:En.
      * exists s. split; [reflexivity|]. split; [reflexivity|].
        intros _ _ Hpos. lia.
      * cbn [queue_gc_loop].
        destruct (queue_gc_loop_tested n (0 + 1) 
                    (match queue_gc_root 0 s with
                     | Some (_, x) => x
                     | None => s
                     end)) as (s' & ev2 & Hrun2 & Htr2 & _).
        assert (H1 : exists old ev1 s1,
                   queue_gc_root 0 s = Some (tt, s1)
                   /\ trace s1 = trace s
                        ++ EvTestAndSetBit (btrfs_global_root (gc_root_key 0)) old
                        :: ev1).
        { destruct (gc_running s (gc_root_key 0)) eqn:Hr.
          - rewrite (queue_gc_root_busy 0 s Hr). do 3 eexists.
            split; reflexivity.
          - destruct (o_alloc env (ticks s)) eqn:Ha.
            + rewrite (queue_gc_root_queued 0 s Hr Ha). do 3 eexists.
              split; reflexivity.
            + rewrite (queue_gc_root_no_memory 0 s Hr Ha). do 3 eexists.
              split; reflexivity. }
        destruct H1 as (old & ev1 & s1 & Hq & Htr1).
        rewrite Hq in Hrun2, Htr2. rewrite (bind_run _ _ _ _ _ Hq).
        exists s'. split; [exact Hrun2|]. split.
        -- intros [H|[H|H]]; [discriminate H|discriminate H|lia].
        -- intros _ _ _. exists old, (ev1 ++ ev2).
           rewrite Htr2, Htr1. rewrite <- app_assoc. reflexivity.
  - exists s. split; [now apply btrfs_queue_gc_work_off|].
    split; [reflexivity|]. intros H. discriminate H.
Qed.

(** ** Interleavings: no running bit is left without an owner *)

Lemma bits_owned_step a b : step a b -> bits_owned a -> bits_owned b.
Proof.
  intros Hstep Hinv. unfold bits_owned in *.
  destruct Hstep as
    [ s ds ws Hv Hc
    | s s' ds1 ds2 ws i n Ht
    | s s' ds1 ds2 ws i n Ht
    | s ds1 ds2 ws i
    | s s' ds1 ds2 ws i n Hm
    | s s' ds1 ds2 ws i n Hm
    | s s' ds1 ds2 ws i n Hcl
    | s s' ds1 ds2 ws i n Hq
    | s ds ws q1 q2 w Hq
    | s s' ds ws1 ws2 w fuel Hw
    | s s' ds ws Hr Hq ];
    intros k; specialize (Hinv k); unfold active_workers in *;
    cbn [fs dispatchers running] in *.
  - unfold holders in *. cbn. exact Hinv.
  - apply test_and_set_bit_inv in Ht. destruct Ht as (Hold & Hr & Hq).
    cbn [root_key btrfs_global_root] in *.
    rewrite Hr, Hq. rewrite holders_app in *. cbn [holds_bit] in *.
    destruct (key_eqb (gc_root_key i) k) eqn:E.
    + intros _. lia.
    + unfold upd. rewrite E. exact Hinv.
  - apply test_and_set_bit_inv in Ht. destruct Ht as (Hold & Hr & Hq).
    cbn [root_key btrfs_global_root] in *.
    rewrite Hr, Hq. rewrite holders_app in *. cbn [holds_bit] in *.
    intros Hk. apply Hinv. unfold upd in Hk.
    destruct (key_eqb (gc_root_key i) k) eqn:E; [|exact Hk].
    apply key_eqb_eq in E. subst k. now rewrite <- Hold.
  - rewrite holders_app in Hinv. rewrite holders_drop. cbn [holds_bit] in Hinv.
    intros Hk. specialize (Hinv Hk). lia.
  - apply kmalloc_inv in Hm. destruct Hm as (_ & Hr & Hq).
    rewrite Hr, Hq. rewrite holders_app in *. exact Hinv.
  - apply kmalloc_inv in Hm. destruct Hm as (_ & Hr & Hq).
    rewrite Hr, Hq. rewrite holders_app in *. exact Hinv.
  - apply clear_bit_inv in Hcl. destruct Hcl as (Hr & Hq).
    cbn [root_key btrfs_global_root] in *.
    rewrite Hr, Hq. rewrite holders_app in *. cbn [holds_bit] in *.
    destruct (key_eqb (gc_root_key i) k) eqn:E.
    + apply key_eqb_eq in E. subst k. rewrite upd_same. discriminate.
    + unfold upd. rewrite E. intros Hk. specialize (Hinv Hk). lia.
  - apply btrfs_queue_work_inv in Hq. destruct Hq as (Hr & Hq).
    cbn [root_key work_root btrfs_global_root] in *.
    rewrite Hr, Hq. rewrite holders_app in *. cbn [holds_bit] in *.
    rewrite works_on_drop, works_on_cons.
    cbn [work_root btrfs_global_root root_key].
    change (works_on k []) with 0%nat.
    intros Hk. specialize (Hinv Hk).
    destruct (key_eqb (gc_root_key i) k); lia.
  - rewrite Hq in Hinv. rewrite works_on_app in Hinv.
    unfold with_gc_workers. cbn [gc_workers gc_running].
    rewrite works_on_drop, works_on_cons.
    intros Hk. specialize (Hinv Hk).
    destruct (key_eqb (root_key (work_root w)) k); lia.
  - apply gc_work_fn_inv in Hw. destruct Hw as (Hr & Hq).
    rewrite Hr, Hq. rewrite works_on_app in Hinv. rewrite works_on_drop.
    destruct (key_eqb (root_key (work_root w)) k) eqn:E.
    + apply key_eqb_eq in E. subst k. rewrite upd_same. discriminate.
    + unfold upd. rewrite E. intros Hk. specialize (Hinv Hk). lia.
  - rewrite Hr, Hq. exact Hinv.
Qed.

(** X17: from a start with every running bit clear, no call under way and
    no worker, in every interleaving each running bit that is set has
    exactly one owner that will clear it or hand it on: a dispatcher
    between its test_and_set_bit and its clear_bit or btrfs_queue_work, or
    a worker queued or running.  No step leaves a bit set with nobody to
    clear it. *)
Theorem set_running_bit_has_one_owner init y k :
  dispatchers init = [] ->
  running init = [] ->
  gc_workers (fs init) = [] ->
  (forall k0, gc_running (fs init) k0 = false) ->
  reachable init y ->
  gc_running (fs y) k = true ->
  (holders k (dispatchers y) + active_workers k y = 1)%nat.
Proof.
  intros Hd Hr Hq Hclear Hreach Hk.
  assert (Hone : one_owner init).
  { intros k0. unfold active_workers. rewrite Hd, Hr, Hq. cbn. split; auto. }
  assert (Hown : bits_owned init).
  { intros k0 Hk0. rewrite Hclear in Hk0. discriminate. }
  assert (Hown' : bits_owned y).
  { clear Hk. induction Hreach as [|a b Hab IH Hstep]; [exact Hown|].
    exact (bits_owned_step a b Hstep IH). }
  pose proof (one_owner_reachable init y Hone Hreach k) as [H1 _].
  specialize (Hown' k Hk). lia.
Qed.


(** ** More on the loops *)

(** X18: an item whose inode was truncated with success but whose deletion
    could not join a transaction stays in the root, and the drain loop
    goes round again from a state in which it is still the first item: the
    next pass truncates the same inode again. *)
Theorem gc_work_loop_repeats_after_failed_delete s r path rsv k l b e fuel :
  closing s = true ->
  items s (root_key r) = k :: l ->
  type k = BTRFS_GC_INODE_ITEM_KEY ->
  0 <= o_fault env (ticks s) ->
  0 <= o_fs_root env (S (ticks s)) ->
  o_join env (S (S (ticks s))) = JoinOk b ->
  o_truncate env (S (S (S (ticks s)))) = 0 ->
  o_join env (S (S (S (S (ticks s))))) = JoinErr e ->
  exists s2 ev,
    gc_work_loop (S fuel) r path rsv s = gc_work_loop fuel r empty_path rsv s2
    /\ closing s2 = true
    /\ items s2 = items s
    /\ trace s2 = trace s ++ ev
    /\ truncations ev = [(objectid k, offset k)]
    /\ (forall t r' k', ~ In (EvDel t r' k') ev).
Proof.
  intros Hc Hi Hk Hf Hroot Hj Ht He.
  rewrite (gc_work_loop_enters s r path rsv k l fuel Hc Hf Hi).
  erewrite bind_run.
  2:{ rewrite (gc_work_body_inode _ fuel r {| held := true; slot := Some k |}
                 rsv k eq_refl Hk).
      erewrite bind_run.
      2:{ apply gc_inode_succeeds with (b := b); cbn;
            [exact Hroot|exact Hj|exact Ht]. }
      cbn. apply delete_gc_item_join_fails. cbn. exact He. }
  do 2 eexists. split; [reflexivity|]. cbn.
  split; [exact Hc|]. split; [reflexivity|].
  repeat rewrite <- app_assoc. cbn.
  split; [reflexivity|]. split; [reflexivity|].
  intros t r' k' Hin.
  repeat (destruct Hin as [Hin|Hin]; [discriminate Hin|]). exact Hin.
Qed.

(** X19: the loop of gc_inode has no bound on its retries: while every join
    succeeds and every truncation returns -ENOSPC or -EAGAIN, gc_inode
    does not return, whatever the fuel. *)
Theorem gc_inode_retries_without_bound s rsv key :
  0 <= o_fs_root env (ticks s) ->
  (forall n, exists b, o_join env n = JoinOk b) ->
  (forall n, o_truncate env n = - ENOSPC \/ o_truncate env n = - EAGAIN) ->
  forall fuel, gc_inode fuel rsv key s = None.
Proof.
  intros Hroot Hj Ht fuel.
  rewrite (gc_inode_root_found s fuel rsv key Hroot).
  unfold bind at 1.
  rewrite gc_inode_loop_spins_while_transient; [reflexivity|exact Hj|].
  intros n. apply retryable_iff. apply Ht.
Qed.

End GcTree.

(** * The properties on the sample filesystem *)

(** Inode 42 with sixteen roots goes to root 10. *)
Lemma inode_gc_root_routing_witness :
  0 < nr_global_roots sample_fs <= INT_MAX
  /\ inode_gc_root 12 132 sample_fs sample_inode = sample_root.
Proof.
  assert (H : 0 < nr_global_roots sample_fs <= INT_MAX)
    by (unfold INT_MAX; cbn; lia).
  split; [exact H|].
  exact (proj1 (inode_gc_root_routing 12 132 200 sample_env sample_fs
                  sample_inode (rsv_of sample_rsv) H)).
Defined.

(** An item whose truncation fails with -EIO keeps the loop going. *)
Lemma gc_work_loop_retries_failing_item_witness :
  closing sample_fs_closing = true
  /\ gc_work_loop 132 200 sample_env_eio 7 sample_root empty_path
       (rsv_of sample_rsv) sample_fs_closing = None.
Proof.
  split; [reflexivity|].
  assert (Hfail : forall f s0, exists res s1,
            gc_inode 132 sample_env_eio f (rsv_of sample_rsv) sample_key s0
              = Some (res, s1) /\ res <> 0).
  { intros f s0.
    destruct (gc_inode_hard_error 132 sample_env_eio s0 f (rsv_of sample_rsv)
                sample_key trans_block_rsv (Z.le_refl 0) eq_refl eq_refl)
      as [s1 H1].
    exists (-5), s1. split; [exact H1|discriminate]. }
  exact (proj2 (gc_work_loop_retries_failing_item 132 200 sample_env_eio
                  sample_fs_closing sample_root empty_path (rsv_of sample_rsv)
                  sample_key [] eq_refl eq_refl (fun _ => Z.le_refl 0)
                  (or_intror Hfail)) 7%nat).
Defined.

(** Deleting the sample item: btrfs_del_item runs on the default budget. *)
Lemma delete_gc_item_does_not_bind_rsv_witness :
  exists s' tdel,
    delete_gc_item sample_env sample_root empty_path (rsv_of sample_rsv)
      sample_key sample_fs_item = Some (empty_path, s')
    /\ In (EvDel tdel sample_root (Some sample_key)) (trace s')
    /\ block_rsv tdel = trans_block_rsv.
Proof.
  destruct (delete_gc_item_does_not_bind_rsv sample_env sample_fs_item
              sample_root empty_path (rsv_of sample_rsv) sample_key
              trans_block_rsv eq_refl (Z.le_refl 0) (Z.le_refl 0) eq_refl)
    as (s' & tdel & tend & H1 & H2 & H3 & _).
  exists s', tdel. split; [exact H1|]. split; [|exact H3].
  rewrite H2. cbn. tauto.
Defined.

(** Deleting an item from a root that has none. *)
Lemma delete_gc_item_absent_is_noop_witness :
  exists path' s',
    delete_gc_item sample_env sample_root empty_path (rsv_of sample_rsv)
      sample_key sample_fs = Some (path', s')
    /\ items s' = items sample_fs.
Proof.
  destruct (delete_gc_item_absent_is_noop sample_env sample_fs sample_root
              empty_path (rsv_of sample_rsv) sample_key eq_refl)
    as (p & s' & ev & H1 & H2 & _).
  exists p, s'. split; assumption.
Defined.

(** Two transient answers, then success: three passes. *)
Lemma gc_inode_retries_while_transient_witness :
  exists s',
    gc_inode 132 sample_env_retry 2 (rsv_of sample_rsv) sample_key sample_fs
      = Some (0, s')
    /\ length (trace s') = 14%nat.
Proof.
  assert (Ha : answers sample_env_retry 1
                 ([(trans_block_rsv, -28); (trans_block_rsv, -11)]
                    ++ [(trans_block_rsv, 0)]))
    by (cbn; repeat split).
  assert (Hl : Forall (fun x : rsv_ptr * Z => snd x = - ENOSPC \/ snd x = - EAGAIN)
                 [(trans_block_rsv, -28); (trans_block_rsv, -11)]).
  { constructor; [left; reflexivity|].
    constructor; [right; reflexivity|]. constructor. }
  destruct (gc_inode_retries_while_transient 132 sample_env_retry sample_fs
              (rsv_of sample_rsv) sample_key
              [(trans_block_rsv, -28); (trans_block_rsv, -11)]
              trans_block_rsv 0 2 (Z.le_refl 0) Ha Hl
              ltac:(discriminate) ltac:(discriminate) (le_n 2))
    as (s' & H1 & H2).
  exists s'. split; [exact H1|]. rewrite H2. reflexivity.
Defined.

(** The subvolume of the sample item is gone: gc_inode returns 0. *)
Lemma gc_inode_root_lookup_failure_witness :
  is_errno (-2)
  /\ exists s1,
       gc_inode 132 sample_env_gone 0 (rsv_of sample_rsv) sample_key
         sample_fs_closing = Some (0, s1).
Proof.
  assert (He : is_errno (-2)) by (unfold is_errno, MAX_ERRNO; lia).
  split; [exact He|]. eexists.
  exact (proj1 (gc_inode_root_lookup_failure 132 200 sample_env_gone
                  sample_fs_closing sample_root sample_path
                  (rsv_of sample_rsv) sample_key 0 (-2) eq_refl He eq_refl
                  eq_refl)).
Defined.

(** A worker whose item fails and whose next read fails returns with the
    bit of its root clear. *)
Lemma gc_work_fn_clears_running_bit_witness :
  gc_running sample_fs_closing (root_key sample_root) = true
  /\ exists s',
       gc_work_fn 132 200 4096 sample_env_fail 5 sample_work sample_fs_closing
         = Some (tt, s')
       /\ gc_running s' (root_key sample_root) = false.
Proof.
  split; [reflexivity|].
  destruct (gc_work_fn 132 200 4096 sample_env_fail 5 sample_work
              sample_fs_closing) as [[[] s']|] eqn:E.
  - exists s'. split; [reflexivity|].
    exact (proj1 (proj1 (gc_work_fn_clears_running_bit 12 132 200 4096
                           sample_env_fail 5 sample_work sample_fs_closing)
                    s' E)).
  - vm_compute in E. discriminate E.
Defined.

(** A call sets the bit of root 0 and queues its worker: one active
    worker. *)
Lemma at_most_one_worker_per_root_witness :
  exists y,
    reachable 12 132 200 4096 sample_env (mk_system sample_fs [] []) y
    /\ active_workers (gc_root_key 12 132 0) y = 1%nat
    /\ (active_workers (gc_root_key 12 132 0) y <= 1)%nat.
Proof.
  assert (Hreach : exists y,
    reachable 12 132 200 4096 sample_env (mk_system sample_fs [] []) y
    /\ active_workers (gc_root_key 12 132 0) y = 1%nat).
  { eexists. split.
    - eapply reach_step; [eapply reach_step; [eapply reach_step;
        [eapply reach_step; [apply reach_init|]|]|]|].
      + apply step_call; reflexivity.
      + eapply step_test_set with (ds1 := []) (ds2 := []) (i := 0) (n := 15%nat).
        reflexivity.
      + eapply step_kmalloc_ok with (ds1 := []) (ds2 := []) (i := 0) (n := 15%nat).
        reflexivity.
      + eapply step_queue with (ds1 := []) (ds2 := []) (i := 0) (n := 15%nat).
        reflexivity.
    - reflexivity. }
  destruct Hreach as (y & Hy & Hone). exists y.
  split; [exact Hy|]. split; [exact Hone|].
  exact (proj1 (at_most_one_worker_per_root 12 132 200 4096 sample_env
                  (mk_system sample_fs [] []) y (gc_root_key 12 132 0)
                  eq_refl eq_refl eq_refl Hy)).
Defined.

(** The worker of root 10 queued on the sample filesystem reads nothing. *)
Lemma queued_worker_processes_nothing_witness :
  exists s1',
    gc_work_fn 132 200 4096 sample_env 3 sample_work sample_fs_item
      = Some (tt, s1')
    /\ items s1' = items sample_fs_item.
Proof.
  destruct (btrfs_queue_gc_work 12 132 sample_env sample_fs)
    as [[[] s']|] eqn:E; [|vm_compute in E; discriminate E].
  assert (Hin : In sample_work (gc_workers s')).
  { replace (gc_workers s')
      with (match btrfs_queue_gc_work 12 132 sample_env sample_fs with
            | Some (_, x) => gc_workers x
            | None => []
            end) by (rewrite E; reflexivity).
    vm_compute. do 10 right. left. reflexivity. }
  destruct (queued_worker_processes_nothing 12 132 200 4096 sample_env
              sample_fs s' (gc_workers s') sample_work sample_fs_item 3
              E eq_refl Hin eq_refl)
    as (_ & s1' & ev & Hrun & _ & _ & Hit & _).
  exists s1'. split; assumption.
Defined.

(** The key is not there: the handle joined by delete_gc_item stays open. *)
Lemma delete_gc_item_search_failure_leaves_trans_open_witness :
  trans_fresh sample_fs
  /\ exists path' s',
       delete_gc_item sample_env sample_root empty_path (rsv_of sample_rsv)
         sample_key sample_fs = Some (path', s')
       /\ open_trans s' = [0%nat].
Proof.
  assert (Hfr : trans_fresh sample_fs) by apply Forall_nil.
  split; [exact Hfr|].
  destruct (proj1 (delete_gc_item_search_failure_leaves_trans_open 132
                     sample_env sample_fs sample_root empty_path
                     (rsv_of sample_rsv) sample_key trans_block_rsv Hfr
                     eq_refl (or_intror eq_refl)))
    as (p & s' & res & H1 & _ & _ & H4 & _).
  exists p, s'. split; [exact H1|exact H4].
Defined.

(** End to end on the sample filesystem: the item of inode 42 is added to
    root 10; the worker of root 10, once the filesystem is closing,
    truncates inode 42 under its own reservation, deletes the item, finds
    the root empty and returns with the running bit clear. *)
Example sample_add_then_drain :
  exists s1 s2,
    btrfs_add_inode_gc_item 12 132 200 sample_env sample_inode
      (rsv_of sample_rsv) sample_fs = Some (0, s1)
    /\ items s1 (root_key sample_root) = [sample_key]
    /\ gc_work_fn 132 200 4096 sample_env 1 sample_work
         (mk_fs 16 true true [] (items s1) (fun _ => true) [] 0 [])
       = Some (tt, s2)
    /\ items s2 (root_key sample_root) = []
    /\ gc_running s2 (root_key sample_root) = false
    /\ open_trans s2 = []
    /\ map (fun e => match e with
                     | EvTruncate t _ c res => Some (block_rsv t, tc_ino c, res)
                     | _ => None
                     end)
           (filter (fun e => match e with EvTruncate _ _ _ _ => true | _ => false end)
                   (trace s2))
       = [Some (rsv_of (mk_rsv 1 4096 true), 42, 0)].
Proof.
  destruct (btrfs_add_inode_gc_item 12 132 200 sample_env sample_inode
              (rsv_of sample_rsv) sample_fs) as [[res s1]|] eqn:E1;
    vm_compute in E1; [|discriminate E1].
  injection E1 as <- <-.
  match goal with
  | |- exists s1 s2, Some (0, ?a) = Some (0, s1) /\ _ => exists a
  end.
  destruct (gc_work_fn 132 200 4096 sample_env 1 sample_work
              (mk_fs 16 true true [] _ (fun _ => true) [] 0 []))
    as [[[] s2]|] eqn:E2; vm_compute in E2; [|discriminate E2].
  injection E2 as <-.
  eexists. repeat split.
Qed.

(** * The further properties on the sample filesystem *)



(** Add, then delete: the sample filesystem has its items back. *)
Lemma add_then_delete_restores_witness :
  trans_fresh sample_fs
  /\ exists s1 s2,
       add_gc_item sample_env sample_root sample_key (rsv_of sample_rsv)
         sample_fs = Some (0, s1)
       /\ delete_gc_item sample_env sample_root empty_path (rsv_of sample_rsv)
            sample_key s1 = Some (empty_path, s2)
       /\ items s2 (root_key sample_root) = [].
Proof.
  assert (Hfr : trans_fresh sample_fs) by apply Forall_nil.
  split; [exact Hfr|].
  destruct (add_then_delete_restores sample_env sample_fs sample_root
              sample_key (rsv_of sample_rsv) empty_path trans_block_rsv
              trans_block_rsv Hfr eq_refl eq_refl eq_refl (Z.le_refl 0)
              eq_refl (Z.le_refl 0) (Z.le_refl 0))
    as (s1 & s2 & H1 & H2 & H3 & _).
  exists s1, s2. split; [exact H1|]. split; [exact H2|].
  rewrite H3. reflexivity.
Defined.

(** Deleting the sample item leaves root 10 without it. *)
Lemma delete_gc_item_removes_only_key_witness :
  exists s',
    delete_gc_item sample_env sample_root empty_path (rsv_of sample_rsv)
      sample_key sample_fs_item = Some (empty_path, s')
    /\ items_mem sample_key (items s' (root_key sample_root)) = false.
Proof.
  destruct (delete_gc_item_removes_only_key sample_env sample_fs_item
              sample_root empty_path (rsv_of sample_rsv) sample_key
              trans_block_rsv eq_refl (Z.le_refl 0) (Z.le_refl 0) eq_refl)
    as (s' & H1 & H2 & _).
  exists s'. split; assumption.
Defined.

(** btrfs_del_item fails with -EIO: delete_gc_item returns as usual and
    the item is still there. *)
Lemma delete_gc_item_ignores_del_error_witness :
  o_fault sample_env_del_fails 2 < 0
  /\ exists s',
       delete_gc_item sample_env_del_fails sample_root empty_path
         (rsv_of sample_rsv) sample_key sample_fs_item = Some (empty_path, s')
       /\ items s' = items sample_fs_item.
Proof.
  assert (Hd : o_fault sample_env_del_fails 2 < 0) by (cbn; lia).
  split; [exact Hd|].
  destruct (delete_gc_item_ignores_del_error sample_env_del_fails
              sample_fs_item sample_root empty_path (rsv_of sample_rsv)
              sample_key trans_block_rsv (Forall_nil _) eq_refl
              (Z.le_refl 0) Hd eq_refl)
    as (s' & H1 & _ & H3 & _).
  exists s'. split; assumption.
Defined.

(** The join of the second pass fails with -ENOSPC: gc_inode returns it. *)
Lemma gc_inode_join_error_ends_loop_witness :
  exists s',
    gc_inode 132 sample_env_join_fails 1 (rsv_of sample_rsv) sample_key
      sample_fs = Some (- ENOSPC, s').
Proof.
  assert (Ha : answers sample_env_join_fails 1 [(trans_block_rsv, -28)])
    by (cbn; repeat split).
  assert (Hl : Forall (fun x : rsv_ptr * Z => snd x = - ENOSPC \/ snd x = - EAGAIN)
                 [(trans_block_rsv, -28)]).
  { constructor; [left; reflexivity|constructor]. }
  destruct (gc_inode_join_error_ends_loop 132 sample_env_join_fails sample_fs
              (rsv_of sample_rsv) sample_key [(trans_block_rsv, -28)] (-28) 1
              (Z.le_refl 0) Ha Hl eq_refl (le_n 1))
    as (s' & H1 & _).
  exists s'. exact H1.
Defined.

(** gc_inode on the sample item: the last call is btrfs_put_root. *)
Lemma gc_inode_puts_the_root_it_got_witness :
  exists s' r mid,
    gc_inode 132 sample_env 0 (rsv_of sample_rsv) sample_key sample_fs_item
      = Some (0, s')
    /\ trace s' = trace sample_fs_item
                    ++ EvGetFsRoot 7 (Ptr r) :: mid ++ [EvPutRoot r].
Proof.
  destruct (gc_inode 132 sample_env 0 (rsv_of sample_rsv) sample_key
              sample_fs_item) as [[res s']|] eqn:E;
    [|vm_compute in E; discriminate E].
  pose proof (gc_inode_puts_the_root_it_got 132 sample_env 0
                (rsv_of sample_rsv) sample_key sample_fs_item res s' E) as H.
  vm_compute in E. injection E as <- <-.
  destruct H as [(r & mid & Htr & _)|(e & _ & [(_ & _ & Ht)|(_ & _ & Ht)])].
  - eexists. exists r, mid. split; [reflexivity|exact Htr].
  - discriminate Ht.
  - discriminate Ht.
Defined.

(** The worker of root 10 on the sample item frees its reservation and
    its path before it clears the bit. *)
Lemma gc_work_fn_releases_what_it_acquired_witness :
  exists s' ev,
    gc_work_fn 132 200 4096 sample_env 1 sample_work sample_fs_closing
      = Some (tt, s')
    /\ trace s' = trace sample_fs_closing
                    ++ [EvAllocPath true; EvAllocRsv true] ++ ev
                    ++ [EvFreeRsv; EvFreePath; EvClearBit sample_root; EvKfree].
Proof.
  destruct (gc_work_fn 132 200 4096 sample_env 1 sample_work
              sample_fs_closing) as [[[] s']|] eqn:E;
    [|vm_compute in E; discriminate E].
  pose proof (gc_work_fn_releases_what_it_acquired 132 200 4096 sample_env 1
                sample_work sample_fs_closing s' E) as H.
  vm_compute in E. injection E as <-.
  destruct H as [Ht|[Ht|(ev & Ht & _)]].
  - discriminate Ht.
  - discriminate Ht.
  - eexists. exists ev. split; [reflexivity|exact Ht].
Defined.

(** The same run: its events are those of a worker with its own
    reservation. *)
Lemma gc_work_fn_uses_its_reservation_witness :
  exists s' ev,
    gc_work_fn 132 200 4096 sample_env 1 sample_work sample_fs_closing
      = Some (tt, s')
    /\ trace s' = trace sample_fs_closing ++ ev
    /\ ~ In (EvQueueWork sample_work) ev.
Proof.
  destruct (gc_work_fn 132 200 4096 sample_env 1 sample_work
              sample_fs_closing) as [[[] s']|] eqn:E;
    [|vm_compute in E; discriminate E].
  destruct (gc_work_fn_uses_its_reservation 132 200 4096 sample_env 1
              sample_work sample_fs_closing s' E) as (ev & Ht & Hin).
  exists s', ev. split; [reflexivity|]. split; [exact Ht|].
  intros H. exact (Hin _ H).
Defined.

(** The same run: the queue is as it was. *)
Lemma gc_work_fn_touches_only_its_root_witness :
  exists s',
    gc_work_fn 132 200 4096 sample_env 1 sample_work sample_fs_closing
      = Some (tt, s')
    /\ gc_workers s' = gc_workers sample_fs_closing.
Proof.
  destruct (gc_work_fn 132 200 4096 sample_env 1 sample_work
              sample_fs_closing) as [[[] s']|] eqn:E;
    [|vm_compute in E; discriminate E].
  exists s'. split; [reflexivity|].
  exact (proj1 (proj2 (proj2 (gc_work_fn_touches_only_its_root 132 200 4096
                                sample_env 1 sample_work sample_fs_closing
                                s' E)))).
Defined.

(** The worker of an empty root returns after one read. *)
Lemma gc_work_fn_stops_when_nothing_is_read_witness :
  closing sample_fs_closing_empty = true
  /\ exists s',
       gc_work_fn 132 200 4096 sample_env 0 sample_work
         sample_fs_closing_empty = Some (tt, s')
       /\ gc_running s' (root_key sample_root) = false.
Proof.
  split; [reflexivity|].
  destruct (gc_work_fn_stops_when_nothing_is_read 132 200 4096 sample_env 0
              sample_work sample_fs_closing_empty eq_refl eq_refl eq_refl
              (or_intror eq_refl))
    as (s' & res & H1 & _ & _ & _ & _ & H6).
  exists s'. split; [exact H1|exact H6].
Defined.

(** The drain loop on the sample item: inode 42 of subvolume 7 is
    truncated once and root 10 is empty. *)
Lemma gc_work_loop_drains_root_witness :
  collaborators_succeed sample_env
  /\ exists p s' ev,
       gc_work_loop 132 200 sample_env 1 sample_root empty_path
         (rsv_of sample_rsv) sample_fs_closing = Some (p, s')
       /\ items s' (root_key sample_root) = []
       /\ trace s' = trace sample_fs_closing ++ ev
       /\ truncations ev = [(7, 42)].
Proof.
  assert (Hok : collaborators_succeed sample_env).
  { intros n. split; [now exists trans_block_rsv|]. cbn. repeat split; lia. }
  split; [exact Hok|].
  assert (Hnd : NoDup [sample_key]) by (constructor; [intros []|constructor]).
  assert (Hty : Forall (fun k => type k = 200) [sample_key])
    by (constructor; [reflexivity|constructor]).
  destruct (gc_work_loop_drains_root 132 200 sample_env [sample_key]
              sample_fs_closing sample_root empty_path (rsv_of sample_rsv)
              1 Hok eq_refl eq_refl Hnd Hty (le_n 1))
    as (p & s' & ev & H1 & H2 & _ & H4 & H5 & _).
  exists p, s', ev. repeat split; assumption.
Defined.

(** A call on the sample filesystem queues work for root 10, whose bit
    was clear. *)
Lemma btrfs_queue_gc_work_queues_clear_roots_once_witness :
  exists s',
    btrfs_queue_gc_work 12 132 sample_env sample_fs = Some (tt, s')
    /\ items s' = items sample_fs.
Proof.
  destruct (btrfs_queue_gc_work 12 132 sample_env sample_fs)
    as [[[] s']|] eqn:E; [|vm_compute in E; discriminate E].
  exists s'. split; [reflexivity|].
  exact (proj1 (proj2 (proj2 (btrfs_queue_gc_work_queues_clear_roots_once
                                12 132 sample_env sample_fs s' E)))).
Defined.

(** Two calls on the sample filesystem: sixteen workers, not thirty-two. *)
Lemma btrfs_queue_gc_work_queues_every_root_once_witness :
  0 <= nr_global_roots sample_fs <= INT_MAX
  /\ exists s1 s2,
       btrfs_queue_gc_work 12 132 sample_env sample_fs = Some (tt, s1)
       /\ btrfs_queue_gc_work 12 132 sample_env s1 = Some (tt, s2)
       /\ length (gc_workers s2) = 16%nat.
Proof.
  assert (Hnr : 0 <= nr_global_roots sample_fs <= INT_MAX)
    by (unfold INT_MAX; cbn; lia).
  split; [exact Hnr|].
  destruct (btrfs_queue_gc_work_queues_every_root_once 12 132 sample_env
              sample_fs eq_refl eq_refl Hnr (fun _ => eq_refl)
              (fun _ _ => eq_refl))
    as (s1 & s2 & H1 & H2 & _ & _ & H5 & H6 & _).
  exists s1, s2. split; [exact H1|]. split; [exact H5|].
  rewrite H6, H2. reflexivity.
Defined.

(** After a call has set the bit of root 0, it is its only owner. *)
Lemma set_running_bit_has_one_owner_witness :
  exists y,
    reachable 12 132 200 4096 sample_env (mk_system sample_fs [] []) y
    /\ gc_running (fs y) (gc_root_key 12 132 0) = true
    /\ holders 12 132 (gc_root_key 12 132 0) (dispatchers y) = 1%nat.
Proof.
  assert (Hreach : exists y,
    reachable 12 132 200 4096 sample_env (mk_system sample_fs [] []) y
    /\ gc_running (fs y) (gc_root_key 12 132 0) = true
    /\ active_workers (gc_root_key 12 132 0) y = 0%nat).
  { eexists. split.
    - eapply reach_step; [eapply reach_step; [apply reach_init|]|].
      + apply step_call; reflexivity.
      + eapply step_test_set with (ds1 := []) (ds2 := []) (i := 0) (n := 15%nat).
        reflexivity.
    - split; reflexivity. }
  destruct Hreach as (y & Hy & Hbit & Hact). exists y.
  split; [exact Hy|]. split; [exact Hbit|].
  pose proof (set_running_bit_has_one_owner 12 132 200 4096 sample_env
                (mk_system sample_fs [] []) y (gc_root_key 12 132 0)
                eq_refl eq_refl eq_refl (fun _ => eq_refl) Hy Hbit) as H.
  rewrite Hact in H. rewrite Nat.add_0_r in H. exact H.
Defined.

(** The deletion cannot join: the loop goes on with the sample item still
    in root 10. *)
Lemma gc_work_loop_repeats_after_failed_delete_witness :
  exists s2,
    gc_work_loop 132 200 sample_env_late_join_fails 1 sample_root empty_path
      (rsv_of sample_rsv) sample_fs_closing
    = gc_work_loop 132 200 sample_env_late_join_fails 0 sample_root empty_path
        (rsv_of sample_rsv) s2
    /\ items s2 = items sample_fs_closing.
Proof.
  destruct (gc_work_loop_repeats_after_failed_delete 132 200
              sample_env_late_join_fails sample_fs_closing sample_root
              empty_path (rsv_of sample_rsv) sample_key [] trans_block_rsv
              (-12) 0 eq_refl eq_refl eq_refl (Z.le_refl 0) (Z.le_refl 0)
              eq_refl eq_refl eq_refl)
    as (s2 & ev & H1 & _ & H3 & _).
  exists s2. split; assumption.
Defined.

(** Truncation always answers -ENOSPC: gc_inode has not returned after
    nine retries. *)
Lemma gc_inode_retries_without_bound_witness :
  gc_inode 132 sample_env_nospace 9 (rsv_of sample_rsv) sample_key sample_fs
  = None.
Proof.
  exact (gc_inode_retries_without_bound 132 sample_env_nospace sample_fs
           (rsv_of sample_rsv) sample_key (Z.le_refl 0)
           (fun _ => ex_intro _ trans_block_rsv eq_refl)
           (fun _ => or_introl eq_refl) 9%nat).
Defined.
